(** * Amdivgen: division-routine generator for the Z80 (Amstrad CPC)

    A shallow embedding of [amdivgen.c] and the properties of its code
    synthesis engine: decomposition of the multiplier into powers of two,
    the instruction sequence built from it, the peephole optimizer, the
    cost evaluation and the search for a multiply-and-shift approximation
    of a division.

    C [int] values are modelled by [Z]. In the decomposition and in the
    sequence builder every quantity stays below [2^26] in absolute value;
    the one product that can leave the [int]s, [value*j] in the tests of the
    search, has its wrap-around written out. A C [float] is an IEEE 754
    binary32 number, and each of its operations rounds to the nearest float.
    Array indices and loop counters that only count are [nat]. *)

From Stdlib Require Import ZArith QArith Qround Qpower List Bool Lia Sorted.
Import ListNotations.
Local Open Scope Z_scope.

(** ** Instruction model *)

Definition MAXPOWER2 : Z := 24.

(** [enum asmLines]. *)
Inductive asmLines : Set :=
  | _ld_ba | _rra | _srl_a | _add_b | _ret
  | _and_fc | _and_f8 | _and_f0 | _and_e0 | _and_c0 | _and_80
  | _rlca | _rrca | _rla
  | _and_01 | _and_03 | _and_07 | _and_0f
  | _xor_a.

(** [enum paramregistersUsed]. *)
Inductive paramregistersUsed : Set := _only_use_a | _destroys_b.


Definition is_srl_a (x : asmLines) : bool :=
  match x with _srl_a => true | _ => false end.

(** ** Program state

    The two global buffers [resultLines] and [resultLinesTemp] are arrays of
    50 [int]s with their fill counters [numResultLines] and
    [numResultLinesTemp]. The model keeps the filled prefix of each array as
    a list, the counter being its length. A write at index 50 or beyond is
    outside the array: the model stops with [None] there.

    What [printHeader] and [printlines] write to the standard output is
    kept as one [routine] record per call of [generateCode]. *)

Record routine : Set := mkRoutine {
  r_num : Q;                        (* the number shown in the header *)
  r_divisor : Z;                    (* 0: division, else fraction mode *)
  r_registers : paramregistersUsed;
  r_size : Z;
  r_speed : Z;
  r_lines : list asmLines
}.

Record globals : Set := mkGlobals {
  resultLines : list asmLines;
  resultLinesTemp : list asmLines;
  sizeResult : Z;
  speedResult : Z;
  stdout : list routine
}.

Definition numResultLines (g : globals) : nat := length (resultLines g).
Definition numResultLinesTemp (g : globals) : nat := length (resultLinesTemp g).

Definition CAPACITY : nat := 50.

(** At program start all globals are zero. *)
Definition initial : globals := mkGlobals [] [] 0 0 [].

(** A computation over the globals that may run out of a buffer. *)
Definition M (A : Type) : Type := globals -> option (A * globals).

Definition ret {A} (a : A) : M A := fun g => Some (a, g).

Definition bind {A B} (m : M A) (k : A -> M B) : M B :=
  fun g => match m g with
           | Some (a, g') => k a g'
           | None => None
           end.

Notation "x <- m ;; k" := (bind m (fun x => k))
  (at level 61, m at next level, right associativity).
Notation "m ;; k" := (bind m (fun _ => k))
  (at level 61, right associativity).

Definition set_resultLines (l : list asmLines) (g : globals) : globals :=
  mkGlobals l (resultLinesTemp g) (sizeResult g) (speedResult g) (stdout g).

Definition set_resultLinesTemp (l : list asmLines) (g : globals) : globals :=
  mkGlobals (resultLines g) l (sizeResult g) (speedResult g) (stdout g).

Definition set_measure (size speed : Z) (g : globals) : globals :=
  mkGlobals (resultLines g) (resultLinesTemp g) size speed (stdout g).

Definition print (r : routine) (g : globals) : globals :=
  mkGlobals (resultLines g) (resultLinesTemp g) (sizeResult g)
            (speedResult g) (stdout g ++ [r]).

(** [addLine]: add one instruction to the code. *)
Definition addLine (asmInstruction : asmLines) : M unit :=
  fun g =>
    if (numResultLines g <? CAPACITY)%nat
    then Some (tt, set_resultLines (resultLines g ++ [asmInstruction]) g)
    else None.

(** [addLineTemp]: add one instruction to the temporary code. *)
Definition addLineTemp (asmInstruction : asmLines) : M unit :=
  fun g =>
    if (numResultLinesTemp g <? CAPACITY)%nat
    then Some (tt, set_resultLinesTemp (resultLinesTemp g ++ [asmInstruction]) g)
    else None.

(** ** Cost evaluation *)

(** The size and time columns of the [switch] in [measureCode]. *)
Definition size_of (x : asmLines) : Z :=
  match x with
  | _ret => 1
  | _ld_ba | _rra | _add_b | _rlca | _rrca | _rla | _xor_a => 1
  | _srl_a | _and_fc | _and_f8 | _and_f0 | _and_e0 | _and_c0 | _and_80
  | _and_01 | _and_03 | _and_07 | _and_0f => 2
  end.

Definition speed_of (x : asmLines) : Z :=
  match x with
  | _ret => 3
  | _ld_ba | _rra | _add_b | _rlca | _rrca | _rla | _xor_a => 1
  | _srl_a | _and_fc | _and_f8 | _and_f0 | _and_e0 | _and_c0 | _and_80
  | _and_01 | _and_03 | _and_07 | _and_0f => 2
  end.

Fixpoint measure_loop (lines : list asmLines) (size speed : Z) : Z * Z :=
  match lines with
  | [] => (size, speed)
  | x :: rest => measure_loop rest (size + size_of x) (speed + speed_of x)
  end.

(** [measureCode]: size and speed of the generated code. *)
Definition measureCode : M unit :=
  fun g =>
    let '(size, speed) := measure_loop (resultLines g) 0 0 in
    Some (tt, set_measure size speed g).

(** ** Peephole optimizer *)

(** The counting loops of [optimizeCode]: the number of consecutive
    [_srl_a] from the head of [l]. *)
Fixpoint count_srla (l : list asmLines) : nat :=
  match l with
  | x :: rest => if is_srl_a x then S (count_srla rest) else O
  | [] => O
  end.

Fixpoint addLinesTemp (l : list asmLines) : M unit :=
  match l with
  | [] => ret tt
  | x :: rest => addLineTemp x ;; addLinesTemp rest
  end.

(** One turn of the [for] loop of [optimizeCode] at index [i]: the lines
    added to the temporary code and [modnextline]. [resultLines[j]] beyond
    the filled part of the array is never [_srl_a] in a run of the program
    (the array is zero at start and every sequence ends in [_ret]). *)
Definition optimize_at (lines : list asmLines) (i : nat)
  : list asmLines * nat :=
  match nth_error lines i with
  | Some _rra =>
      match count_srla (skipn (S i) lines) with
      | 4%nat => ([_rla; _rla; _rla; _rla; _and_0f], 4%nat)
      | 5%nat => ([_rla; _rla; _rla; _and_07], 5%nat)
      | 6%nat => ([_rla; _rla; _and_03], 6%nat)
      | 7%nat => ([_rla; _and_01], 7%nat)
      | _ => ([_rra], 0%nat)
      end
  | Some _srl_a =>
      match count_srla (skipn i lines) with
      | 3%nat => ([_and_f8; _rrca; _rrca; _rrca], 2%nat)
      | 4%nat => ([_and_f0; _rrca; _rrca; _rrca; _rrca], 3%nat)
      | 5%nat => ([_and_e0; _rlca; _rlca; _rlca], 4%nat)
      | 6%nat => ([_and_c0; _rlca; _rlca], 5%nat)
      | 7%nat => ([_and_80; _rlca], 6%nat)
      | 8%nat => ([_xor_a], 7%nat)
      | _ => ([_srl_a], 0%nat)
      end
  | Some x => ([x], 0%nat)
  | None => ([], 0%nat)
  end.

(** The scan [for (i=0; i<numResultLines; i++) { ...; i+=modnextline; }].
    [fuel] bounds the number of turns; [numResultLines] turns are enough. *)
Fixpoint optimize_loop (fuel : nat) (i : nat) : M unit :=
  match fuel with
  | O => ret tt
  | S fuel' =>
      fun g =>
        if (i <? numResultLines g)%nat
        then
          let '(added, modnextline) := optimize_at (resultLines g) i in
          (addLinesTemp added ;;
           optimize_loop fuel' (i + modnextline + 1)%nat) g
        else Some (tt, g)
  end.

Fixpoint addLines (l : list asmLines) : M unit :=
  match l with
  | [] => ret tt
  | x :: rest => addLine x ;; addLines rest
  end.

(** [optimizeCode]: replace consecutive [srl a] by a more compact form. *)
Definition optimizeCode : M unit :=
  fun g =>
    let g0 := set_resultLinesTemp [] g in
    match optimize_loop (numResultLines g0) 0%nat g0 with
    | Some (_, g1) =>
        (* numResultLines=0, then copy temp to result *)
        addLines (resultLinesTemp g1) (set_resultLines [] g1)
    | None => None
    end.

(** ** Sequence builder *)

(** First loop of [generateCode]: the decomposition of [i] into powers of
    two. [n] turns remain, [j] is the loop index; the list is the filled
    part of [arrrayPowersOf2], its length is [numpowers]. *)
Fixpoint decompose_loop (n : nat) (j i powtwo : Z) (arr : list Z) : list Z :=
  match n with
  | O => arr
  | S n' =>
      if i >? powtwo - 1
      then decompose_loop n' (j + 1) (i - powtwo) (powtwo / 2)
                          (arr ++ [MAXPOWER2 - j])
      else decompose_loop n' (j + 1) i (powtwo / 2) arr
  end.

Definition decompose (i : Z) : list Z :=
  decompose_loop (Z.to_nat (MAXPOWER2 + 1)) 0 i (Z.shiftl 1 MAXPOWER2) [].

(** Second loop: [for (j=numpowers-1; j>0; j--)], discarding the smaller
    powers when the difference is too big. The argument [j] is the loop
    index; the result is the final [numpowers]. *)
Fixpoint prune_loop (arr : list Z) (j : nat) (numpowers : nat) : nat :=
  match j with
  | O => numpowers
  | S j' =>
      let difference := nth j' arr 0 - nth j arr 0 in
      if ((j =? numpowers - 1)%nat && (difference >? 7)) || (difference >? 8)
      then prune_loop arr j' j
      else prune_loop arr j' numpowers
  end.

Definition prune (arr : list Z) : nat :=
  prune_loop arr (length arr - 1) (length arr).

(** [while (difference>0) { addLine(_srl_a); difference--; }] *)
Fixpoint srla_times (n : nat) : M unit :=
  match n with
  | O => ret tt
  | S n' => addLine _srl_a ;; srla_times n'
  end.

Definition while_difference (difference : Z) : M unit :=
  srla_times (Z.to_nat difference).

(** Third loop: [for (j=numpowers-1; j+1>0; j--)]; [c] is [j+1]. *)
Fixpoint terms_loop (arr : list Z) (numpowers : nat) (c : nat) : M unit :=
  match c with
  | O => ret tt
  | S j =>
      (match j with
       | O => ret tt
       | S j' =>
           let difference := nth j' arr 0 - nth j arr 0 in
           (if (j =? numpowers - 1)%nat then addLine _srl_a
            else addLine _rra) ;;
           while_difference (difference - 1) ;;
           addLine _add_b
       end) ;;
      terms_loop arr numpowers j
  end.

(** [generateCode] up to and including [addLine(_ret)]: the sequence before
    optimization. The result is the final value of [numpowers]. For [i < 1]
    nothing is written to [arrrayPowersOf2] and the C code reads its first
    element uninitialised; [main] never passes such an [i], and the model
    reads 0 there. *)
Definition buildCode (i divpow : Z) : M nat :=
  let arr := decompose i in
  let numpowers := prune arr in
  numpowers' <-
    (if divpow - nth 0 arr 0 >? 8
     then addLine _xor_a ;; ret 1%nat
     else
       (if (1 <? numpowers)%nat then addLine _ld_ba else ret tt) ;;
       terms_loop arr numpowers numpowers ;;
       (if negb (numpowers =? 1)%nat then addLine _rra
        else if negb ((numpowers =? 1)%nat && (divpow =? nth 0 arr 0))
             then addLine _srl_a else ret tt) ;;
       while_difference (divpow - nth 0 arr 0 - 1) ;;
       ret numpowers) ;;
  addLine _ret ;;
  ret numpowers'.

(** [printHeader] followed by [printlines]. *)
Definition printRoutine (num : Q) (registers : paramregistersUsed) (div : Z)
  : M unit :=
  fun g => Some (tt, print (mkRoutine num div registers (sizeResult g)
                                      (speedResult g) (resultLines g)) g).

(** [generateCode]: create code for a multiplication by a fraction. *)
Definition generateCode (num : Q) (i div divpow : Z) : M unit :=
  numpowers <- buildCode i divpow ;;
  optimizeCode ;;
  measureCode ;;
  printRoutine num (if (1 <? numpowers)%nat then _destroys_b else _only_use_a)
               div.

(** ** Approximation search *)

(** The test of one approximation in [findApproximation], for an
    integer-valued divisor [i >= 1]: [n] turns remain, [j] is the loop
    index; the result is [correct]. For such a divisor and the candidates
    the search reaches, the single-precision quotients [(j*1000)/(i*1000)]
    and [div/i] have the integer parts of the exact quotients, which is what
    this model computes; [findApproximation_float_integer] below proves it
    from the single-precision model of the search. *)
Fixpoint test_loop (n : nat) (j i value div : Z) : bool :=
  match n with
  | O => true
  | S n' =>
      if negb ((j * 1000) / (i * 1000) =? (value * j) / div)
      then false                      (* correct=0; j=256 *)
      else test_loop n' (j + 1) i value div
  end.

Definition test_approximation (i value div : Z) : bool :=
  test_loop 256 0 i value div.

Section Approximation.

(** The divisor is a C [float]: a rational number [i]. Comparing it with
    an [int] is exact. What the loop computes from it in floating point,
    [value=(div/i)+1] and the result [correct] of the 256 tests, is taken
    at each [dividerBase2] from [value_at] and [correct_at]. *)
Variable i : Q.
Variable value_at : Z -> Z.
Variable correct_at : Z -> bool.

(** The [for] loop of [findApproximation]; [dividerBase2=200] leaves it. *)
Fixpoint search_loop (fuel : nat) (dividerBase2 : Z) : M unit :=
  match fuel with
  | O => ret tt
  | S fuel' =>
      if dividerBase2 <=? MAXPOWER2
      then
        let div := Z.shiftl 1 dividerBase2 in
        let value := value_at dividerBase2 in
        let correct := correct_at dividerBase2 in
        dividerBase2' <-
          (if Qeq_bool i (inject_Z div)
           then generateCode (inject_Z div) 1 0 dividerBase2 ;; ret 200
           else ret dividerBase2) ;;
        dividerBase2'' <-
          (if correct
           then generateCode i value 0 dividerBase2' ;; ret 200
           else ret dividerBase2') ;;
        search_loop fuel' (dividerBase2'' + 1)
      else ret tt
  end.

Definition search : M unit :=
  search_loop (Z.to_nat (MAXPOWER2 + 1)) 0.

End Approximation.

(** [findApproximation] for an integer-valued divisor. *)
Definition findApproximation (i : Z) : M unit :=
  search (inject_Z i)
         (fun dividerBase2 => Z.shiftl 1 dividerBase2 / i + 1)
         (fun dividerBase2 =>
            test_approximation i (Z.shiftl 1 dividerBase2 / i + 1)
                               (Z.shiftl 1 dividerBase2)).

(** The test [i==div] at the candidate [dividerBase2]. *)
Definition is_div (i : Q) (dividerBase2 : Z) : bool :=
  Qeq_bool i (inject_Z (Z.shiftl 1 dividerBase2)).

(** [findApproximation] for any divisor, with the quotients of the tests
    computed without rounding: the multiplier [floor (2^k / i) + 1] and the
    tests [floor (j / i) = floor (value * j / 2^k)]. This is what
    [findApproximation] computes when no single-precision quotient is
    rounded across an integer and [value*j] fits an [int], as for the
    integer-valued divisors above; it is not what it computes for every
    divisor, see [findApproximation_float] below. *)
Fixpoint test_loop_exact (n : nat) (j : Z) (i : Q) (value div : Z) : bool :=
  match n with
  | O => true
  | S n' =>
      if negb (Qfloor (inject_Z (j * 1000) / (i * inject_Z 1000))
               =? (value * j) / div)
      then false
      else test_loop_exact n' (j + 1) i value div
  end.

Definition value_exact (i : Q) (dividerBase2 : Z) : Z :=
  Qfloor (inject_Z (Z.shiftl 1 dividerBase2) / i) + 1.

Definition correct_exact (i : Q) (dividerBase2 : Z) : bool :=
  test_loop_exact 256 0 i (value_exact i dividerBase2)
                  (Z.shiftl 1 dividerBase2).

Definition findApproximation_exact (i : Q) : M unit :=
  search i (value_exact i) (correct_exact i).

(** [isPowerOf2]: exponent+1 for a power of two, else 0. *)
Fixpoint isPowerOf2_loop (n : nat) (dividerBase2 num : Z) : Z :=
  match n with
  | O => 0
  | S n' =>
      if num =? Z.shiftl 1 dividerBase2 then dividerBase2 + 1
      else isPowerOf2_loop n' (dividerBase2 + 1) num
  end.

Definition isPowerOf2 (num : Z) : Z :=
  isPowerOf2_loop (Z.to_nat (MAXPOWER2 + 1)) 0 num.

(** ** Single precision

    The arithmetic of the C implementation, not of the repository. A C
    [float] is an IEEE 754 binary32 number: a rational [m*2^e] with
    [|m| < 2^24] and [-149 <= e <= 104], an infinity or a NaN. Every
    operation is rounded to a float on its own: it gives the float nearest
    to the exact result, ties going to the even [m]. Zero has no sign here:
    the program never divides by zero. *)

Inductive float : Set :=
  | NaN
  | Inf (negative : bool)
  | Fin (x : Q).

(** [2^e], for any integer [e]. *)
Definition two_pow (e : Z) : Q :=
  if 0 <=? e then inject_Z (Z.shiftl 1 e)
  else 1 # Z.to_pos (Z.shiftl 1 (- e)).

(** The exponent [l] of [2^l <= x < 2^(l+1)], for [0 < x]. *)
Definition ilog2 (x : Q) : Z :=
  let l := Z.log2 (Qnum x) - Z.log2 (Z.pos (Qden x)) in
  if Qle_bool (two_pow l) x then l else l - 1.

(** The nearest integer, the even one of two that are equally near. *)
Definition rne (x : Q) : Z :=
  let f := Qfloor x in
  match (x - inject_Z f ?= 1 # 2)%Q with
  | Lt => f
  | Gt => f + 1
  | Eq => if Z.even f then f else f + 1
  end.

(** The nearest number [m*2^e] with 24 binary digits and [-149 <= e], for
    [0 < x], whatever its size. *)
Definition nearest (x : Q) : Q :=
  let ulp := two_pow (Z.max (ilog2 x - 23) (-149)) in
  (inject_Z (rne (x / ulp)) * ulp)%Q.

(** Rounding of [0 < x]: from [2^128] on the result is infinite. *)
Definition round_pos (x : Q) : float :=
  let r := nearest (Qred x) in
  if Qle_bool (two_pow 128) r then Inf false else Fin (Qred r).

Definition fl_opp (a : float) : float :=
  match a with
  | NaN => NaN
  | Inf s => Inf (negb s)
  | Fin x => Fin (- x)
  end.

(** The float nearest to the rational [x]. *)
Definition round32 (x : Q) : float :=
  match (x ?= 0)%Q with
  | Eq => Fin 0
  | Gt => round_pos x
  | Lt => fl_opp (round_pos (- x))
  end.

Definition negative (x : Q) : bool := negb (Qle_bool 0 x).

Definition fl_mul (a b : float) : float :=
  match a, b with
  | NaN, _ | _, NaN => NaN
  | Inf s, Inf t => Inf (xorb s t)
  | Inf s, Fin x | Fin x, Inf s =>
      if Qeq_bool x 0 then NaN else Inf (xorb s (negative x))
  | Fin x, Fin y => round32 (x * y)
  end.

Definition fl_div (a b : float) : float :=
  match a, b with
  | NaN, _ | _, NaN => NaN
  | Inf _, Inf _ => NaN
  | Inf s, Fin y => Inf (xorb s (negative y))
  | Fin _, Inf _ => Fin 0
  | Fin x, Fin y =>
      if Qeq_bool y 0
      then (if Qeq_bool x 0 then NaN else Inf (negative x))
      else round32 (x / y)
  end.

Definition fl_add (a b : float) : float :=
  match a, b with
  | NaN, _ | _, NaN => NaN
  | Inf s, Inf t => if eqb s t then Inf s else NaN
  | Inf s, Fin _ | Fin _, Inf s => Inf s
  | Fin x, Fin y => round32 (x + y)
  end.

Definition fl_sub (a b : float) : float := fl_add a (fl_opp b).

Definition fl_eqb (a b : float) : bool :=
  match a, b with
  | Fin x, Fin y => Qeq_bool x y
  | Inf s, Inf t => eqb s t
  | _, _ => false
  end.

Definition fl_leb (a b : float) : bool :=
  match a, b with
  | NaN, _ | _, NaN => false
  | Inf true, _ => true
  | _, Inf false => true
  | Inf false, _ => false
  | _, Inf true => false
  | Fin x, Fin y => Qle_bool x y
  end.

Definition fl_ltb (a b : float) : bool :=
  match a, b with
  | NaN, _ | _, NaN => false
  | _, _ => negb (fl_leb b a)
  end.

(** Conversion of an [int] to [float]. *)
Definition of_int (n : Z) : float := round32 (inject_Z n).

Definition INT_MIN : Z := - 2 ^ 31.
Definition INT_MAX : Z := 2 ^ 31 - 1.

(** Conversion of a [float] to [int]: the fraction is dropped. C leaves the
    conversion of a NaN and of a value outside the [int]s undefined; the
    conversion instruction of the x86-64 gives [INT_MIN] there. *)
Definition to_int (a : float) : Z :=
  match a with
  | Fin x =>
      let t := if Qle_bool 0 x then Qfloor x else - Qfloor (- x) in
      if (INT_MIN <=? t) && (t <=? INT_MAX) then t else INT_MIN
  | _ => INT_MIN
  end.

(** An [int] product. C leaves one outside the [int]s undefined; the
    multiplication instruction keeps the low 32 bits. *)
Definition wrap (n : Z) : Z := (n + 2 ^ 31) mod 2 ^ 32 - 2 ^ 31.

(** The rational a finite float stands for; the header of a routine shows
    it. An infinity and a NaN have none: 0 stands for them, which equals no
    [div] of the search. *)
Definition number (i : float) : Q :=
  match i with
  | Fin x => x
  | _ => 0
  end.

(** ** The approximation search in single precision

    [findApproximation] as the program computes it: the instance of the
    loop [search] above in which [value] and [correct] come from the
    single-precision operations of the C code. *)

(** [value=(div/i)+1]: [div] and 1 are converted to [float], the sum is
    converted to [int]. *)
Definition value_float (i : float) (dividerBase2 : Z) : Z :=
  let div := Z.shiftl 1 dividerBase2 in
  to_int (fl_add (fl_div (of_int div) i) (of_int 1)).

(** The test loop of [findApproximation]:
    [(int)((j*1000)/(i*1000)) != ((value*j)/div)], with the [int] products
    [j*1000] and [value*j], the float product [i*1000], the float quotient
    and the [int] quotient, which drops the fraction. *)
Fixpoint test_loop_float (n : nat) (j : Z) (i : float) (value div : Z) : bool :=
  match n with
  | O => true
  | S n' =>
      if negb (to_int (fl_div (of_int (j * 1000)) (fl_mul i (of_int 1000)))
               =? Z.quot (wrap (value * j)) div)
      then false
      else test_loop_float n' (j + 1) i value div
  end.

Definition correct_float (i : float) (dividerBase2 : Z) : bool :=
  test_loop_float 256 0 i (value_float i dividerBase2)
                  (Z.shiftl 1 dividerBase2).

Definition findApproximation_float (i : float) : M unit :=
  search (number i) (value_float i) (correct_float i).

(** ** The program

    The result is the exit status. The help text, the messages, [showInfo]
    and the three fixed routines for the divisors above 64 only print: they
    leave the globals as they are.

    First [main] for arguments that are integers: [num], [param1] and
    [param2] are the values of the floats, and [atoi] gives [param1] for the
    first argument. [main_divisor_main] and [main_fraction_main] below prove
    that this is [main] on such arguments. *)

(** [amdivgen num]. *)
Definition main_divisor (num : Z) : M Z :=
  if num <=? -1 then findApproximation (- num) ;; ret 0
  else if num <? 1 then ret 1
  else if (num >? 128) && (num <=? 255) then ret 0
  else if (num >? 85) && (num <? 128) then ret 0
  else if (num >? 64) && (num <=? 85) then ret 0
  else findApproximation num ;; ret 0.

(** [amdivgen num1 num2]. *)
Definition main_fraction (param1 param2 : Z) : M Z :=
  if param1 =? 0
  then (if param2 <? 1 then ret 1 else ret 0)
  else
    let num := isPowerOf2 param2 in
    if num =? 0 then ret 1
    else if param1 >? param2 then ret 1
    else if param1 <? 0 then ret 1
    else generateCode (inject_Z param1) param1 param2 (num - 1) ;; ret 0.

(** [main]. What it gets from its command line is [atof] of each argument,
    stored in a [float], and [atoi] of the first one; arguments after the
    second are not read. The result is the exit status. *)

Inductive arguments : Set :=
  | no_argument
  | one_argument (param1 : float)
  | two_arguments (param1 : float) (atoi1 : Z) (param2 : float).

Definition main (argv : arguments) : M Z :=
  match argv with
  | no_argument => ret 1
  | two_arguments param1 atoi1 param2 =>
      if fl_eqb param1 (of_int 0)
      then (if fl_ltb param2 (of_int 1) then ret 1 else ret 0)
      else
        let num := of_int (isPowerOf2 (to_int param2)) in
        if fl_eqb num (of_int 0) then ret 1
        else if fl_ltb param2 param1 then ret 1
        else if negb (fl_eqb param1 (of_int atoi1))
                || fl_ltb param1 (of_int 0) then ret 1
        else generateCode (number param1) (to_int param1) (to_int param2)
                          (to_int (fl_sub num (of_int 1))) ;;
             ret 0
  | one_argument param1 =>
      let num := param1 in
      if fl_leb num (of_int (-1))
      then findApproximation_float (fl_opp num) ;; ret 0
      else if fl_ltb num (of_int 1) then ret 1
      else if fl_ltb (of_int 128) num && fl_leb num (of_int 255) then ret 0
      else if fl_ltb (of_int 85) num && fl_ltb num (of_int 128) then ret 0
      else if fl_ltb (of_int 64) num && fl_leb num (of_int 85) then ret 0
      else findApproximation_float num ;; ret 0
  end.

(** ** The target processor

    Modelled from the spec: the repository has no simulator. The state is
    the 8-bit accumulator, the auxiliary register B and the carry flag; each
    instruction acts as the Z80 instruction whose mnemonic [printlines]
    prints for it. *)

Record cpu : Set := mkCpu { regA : Z; regB : Z; carry : bool }.

Definition and_imm (n : Z) (c : cpu) : cpu :=
  mkCpu (Z.land (regA c) n) (regB c) false.

Definition step (x : asmLines) (c : cpu) : cpu :=
  let a := regA c in
  match x with
  | _ld_ba => mkCpu a a (carry c)
  | _rra => mkCpu (Z.lor (Z.shiftl (Z.b2z (carry c)) 7) (Z.shiftr a 1))
                  (regB c) (Z.testbit a 0)
  | _srl_a => mkCpu (Z.shiftr a 1) (regB c) (Z.testbit a 0)
  | _add_b => mkCpu (Z.land (a + regB c) 255) (regB c)
                    (Z.testbit (a + regB c) 8)
  | _ret => c
  | _and_fc => and_imm 252 c
  | _and_f8 => and_imm 248 c
  | _and_f0 => and_imm 240 c
  | _and_e0 => and_imm 224 c
  | _and_c0 => and_imm 192 c
  | _and_80 => and_imm 128 c
  | _rlca => mkCpu (Z.land (Z.lor (Z.shiftl a 1) (Z.shiftr a 7)) 255)
                   (regB c) (Z.testbit a 7)
  | _rrca => mkCpu (Z.lor (Z.shiftr a 1) (Z.shiftl (Z.land a 1) 7))
                   (regB c) (Z.testbit a 0)
  | _rla => mkCpu (Z.land (Z.lor (Z.shiftl a 1) (Z.b2z (carry c))) 255)
                  (regB c) (Z.testbit a 7)
  | _and_01 => and_imm 1 c
  | _and_03 => and_imm 3 c
  | _and_07 => and_imm 7 c
  | _and_0f => and_imm 15 c
  | _xor_a => mkCpu 0 (regB c) false
  end.

(** Execution of a routine up to its first [ret]. *)
Fixpoint run (lines : list asmLines) (c : cpu) : cpu :=
  match lines with
  | [] => c
  | _ret :: _ => c
  | x :: rest => run rest (step x c)
  end.

(** The value a routine returns in A for the input [a], entered with [b] in
    B and the carry flag [cy]. *)
Definition result (lines : list asmLines) (a b : Z) (cy : bool) : Z :=
  regA (run lines (mkCpu a b cy)).

(** * Definitions for the properties *)

(** The lines [terms_loop] adds. *)
Fixpoint terms_lines (arr : list Z) (numpowers c : nat) : list asmLines :=
  match c with
  | O => []
  | S j =>
      match j with
      | O => []
      | S j' =>
          (if (j =? numpowers - 1)%nat then _srl_a else _rra)
            :: repeat _srl_a (Z.to_nat (nth j' arr 0 - nth j arr 0 - 1))
            ++ [_add_b]
      end ++ terms_lines arr numpowers j
  end.

(** The lines added after the decomposition is pruned, for [numpowers]
    retained terms. *)
Definition tail_lines (arr : list Z) (numpowers : nat) (divpow : Z)
  : list asmLines :=
  (if (1 <? numpowers)%nat then [_ld_ba] else [])
    ++ terms_lines arr numpowers numpowers
    ++ (if negb (numpowers =? 1)%nat then [_rra]
        else if negb (divpow =? nth 0 arr 0) then [_srl_a] else [])
    ++ repeat _srl_a (Z.to_nat (divpow - nth 0 arr 0 - 1)).

(** The sequence before optimization. *)
Definition build_lines (i divpow : Z) : list asmLines :=
  (if divpow - nth 0 (decompose i) 0 >? 8 then [_xor_a]
   else tail_lines (decompose i) (prune (decompose i)) divpow) ++ [_ret].

(** The final [numpowers]. *)
Definition build_numpowers (i divpow : Z) : nat :=
  if divpow - nth 0 (decompose i) 0 >? 8 then 1%nat
  else prune (decompose i).

(** The lines the scan adds to the temporary code from index [i] on. *)
Fixpoint optimize_lines (fuel : nat) (lines : list asmLines) (i : nat)
  : list asmLines :=
  match fuel with
  | O => []
  | S fuel' =>
      if (i <? length lines)%nat
      then let '(added, modnextline) := optimize_at lines i in
           added ++ optimize_lines fuel' lines (i + modnextline + 1)
      else []
  end.

(** The lines [optimizeCode] leaves for the lines it finds. *)
Definition optimize (lines : list asmLines) : list asmLines :=
  optimize_lines (length lines) lines 0.

(** The scan only looks at the lines from [i] on. *)
Fixpoint peephole (fuel : nat) (rest : list asmLines) : list asmLines :=
  match fuel with
  | O => []
  | S fuel' =>
      match rest with
      | [] => []
      | _ :: _ =>
          let '(added, modnextline) := optimize_at rest 0 in
          added ++ peephole fuel' (skipn (modnextline + 1) rest)
      end
  end.


(** The 256 values of a byte. *)
Definition bytes : list Z := map Z.of_nat (seq 0 256).







(** The sum of the powers of two of a list of exponents. *)
Definition sum_pow2 (exps : list Z) : Z :=
  fold_right (fun e s => 2 ^ e + s) 0 exps.

(** The sum of the powers of two of the first [k] exponents. *)
Fixpoint sum_below (exps : list Z) (k : nat) : Z :=
  match k with
  | O => 0
  | S k' => sum_below exps k' + 2 ^ nth k' exps 0
  end.

(** Exponents that are not negative and strictly decrease. *)
Definition exponents (exps : list Z) : Prop :=
  (forall k, (k < length exps)%nat -> 0 <= nth k exps 0)
  /\ (forall k, (S k < length exps)%nat -> nth (S k) exps 0 < nth k exps 0).

(** The pruning rule in the words of the specification: the gap of index
    [k], between the exponents of index [k-1] and [k], is compared with 7
    when it is next to the most significant exponent and with 8 otherwise. *)
Definition threshold_as_claimed (k : nat) : Z :=
  if (k =? 1)%nat then 7 else 8.

(** The gaps between the exponents of index above [j] and below [n] are at
    most 8, and the last of them, if there is one, is at most 7. *)
Definition stable_from (exps : list Z) (j n : nat) : Prop :=
  (forall k, (j < k < n)%nat -> nth (k - 1) exps 0 - nth k exps 0 <= 8)
  /\ ((j + 1 < n)%nat -> nth (n - 2) exps 0 - nth (n - 1) exps 0 <= 7).

(** The first [n] exponents: every gap at most 8, the last one at most 7. *)
Definition stable (exps : list Z) (n : nat) : Prop := stable_from exps 0 n.

(** What is discarded is too small to be seen in the result: multiplied by
    a byte it stays below the last power that is kept. *)
Definition negligible (exps : list Z) (n : nat) : Prop :=
  forall x, 0 <= x <= 255 ->
    x * (sum_below exps (length exps) - sum_below exps n)
    < 2 ^ nth (n - 1) exps 0.

(** The carry flag and the accumulator as one 9-bit number. *)
Definition acc9 (c : cpu) : Z := 256 * Z.b2z (carry c) + regA c.

(** The value the terms loop leaves in carry and accumulator: from the
    term of index [c-1] down to index 1, divide by the difference of the
    exponents and add the input. *)
Fixpoint nested (exps : list Z) (x : Z) (c : nat) (w : Z) : Z :=
  match c with
  | O => w
  | S j =>
      match j with
      | O => w
      | S j' => nested exps x j (w / 2 ^ (nth j' exps 0 - nth j exps 0) + x)
      end
  end.

(** The number of [srl a] in a sequence. *)
Definition srla_count (l : list asmLines) : nat := length (filter is_srl_a l).

(** The lines of the routine that [generateCode] prints. *)
Definition generated (i divpow : Z) : list asmLines :=
  optimize (build_lines i divpow).

(** The register note of its header. *)
Definition registers_of (i divpow : Z) : paramregistersUsed :=
  if (1 <? build_numpowers i divpow)%nat then _destroys_b else _only_use_a.

(** What [generateCode] prints, started with an empty result buffer. *)
Definition routine_of (num : Q) (i div divpow : Z) : routine :=
  let lines := generated i divpow in
  mkRoutine num div (registers_of i divpow)
            (fst (measure_loop lines 0 0)) (snd (measure_loop lines 0 0))
            lines.

(** The candidate passes: the approximation agrees with the division on
    every input. *)
Definition passes (d value div : Z) : Prop :=
  forall j, 0 <= j <= 255 -> j / d = value * j / div.

(** The same for any divisor, with exact quotients. *)
Definition passes_exact (i : Q) (value div : Z) : Prop :=
  forall j, 0 <= j <= 255 -> Qfloor (inject_Z j / i) = value * j / div.

(** The candidate exponents, 0 to [MAXPOWER2]. *)
Definition candidates : list Z := map Z.of_nat (seq 0 25).

(** The run ended inside the buffers with one routine printed. *)
Definition prints_one (r : option (unit * globals)) : bool :=
  match r with
  | Some (_, g) => (length (stdout g) =? 1)%nat
  | None => false
  end.

(** The instructions the optimizer neither adds nor removes. *)
Definition untouched (x : asmLines) : bool :=
  match x with
  | _ld_ba | _add_b | _ret => true
  | _ => false
  end.

(** ** Single precision *)

(** The candidate passes the test of the program: the 256 comparisons of
    the test loop come out equal. *)
Definition passes_float (i : float) (value div : Z) : Prop :=
  forall j, 0 <= j <= 255 ->
    to_int (fl_div (of_int (j * 1000)) (fl_mul i (of_int 1000)))
    = Z.quot (wrap (value * j)) div.

(** A float is above [c]: not below it, and no NaN. *)
Definition above (a : float) (c : Q) : Prop :=
  match a with
  | Fin r => (c <= r)%Q
  | Inf s => s = false
  | NaN => False
  end.

Definition expo (x : Q) : Z := Z.max (ilog2 x - 23) (-149).

(** The divisors [main] passes to the search: at least 1, or no number. *)
Definition searched (i : float) : Prop :=
  match i with
  | NaN => True
  | Inf s => s = false
  | Fin x => (1 <= x)%Q
  end.

(** The float of the numeral 1.1: [1.1 + 2^-23 / 5]. *)
Definition f11 : float := Fin (9227469 # 8388608).

(** * Properties *)

(** ** Appending to the buffers *)

Lemma set_resultLines_same (g : globals) : set_resultLines (resultLines g) g = g.
Proof. destruct g; reflexivity. Qed.

Lemma bind_ret_l {A B} (a : A) (k : A -> M B) (g : globals) :
  bind (ret a) k g = k a g.
Proof. reflexivity. Qed.

Lemma bind_assoc {A B C} (m : M A) (k : A -> M B) (h : B -> M C) (g : globals) :
  bind (bind m k) h g = bind m (fun a => bind (k a) h) g.
Proof. unfold bind. destruct (m g) as [[a g']|]; reflexivity. Qed.

Lemma bind_ext {A B} (m m' : M A) (k k' : A -> M B) (g : globals) :
  m g = m' g -> (forall a g', k a g' = k' a g') -> bind m k g = bind m' k' g.
Proof.
  intros Hm Hk. unfold bind. rewrite Hm.
  destruct (m' g) as [[a g']|]; auto.
Qed.

Lemma addLines_app (l1 l2 : list asmLines) (g : globals) :
  addLines (l1 ++ l2) g = (addLines l1 ;; addLines l2) g.
Proof.
  revert g. induction l1 as [|x l1 IH]; intro g; simpl.
  - reflexivity.
  - rewrite bind_assoc. apply bind_ext; auto.
Qed.

Lemma addLines_one (x : asmLines) (g : globals) : addLines [x] g = addLine x g.
Proof.
  simpl. unfold bind. destruct (addLine x g) as [[[] g']|]; reflexivity.
Qed.

Lemma addLines_ok (l : list asmLines) (g : globals) :
  (numResultLines g + length l <= CAPACITY)%nat ->
  addLines l g = Some (tt, set_resultLines (resultLines g ++ l) g).
Proof.
  revert g. induction l as [|x l IH]; intros g H; simpl in *.
  - rewrite app_nil_r, set_resultLines_same. reflexivity.
  - unfold bind, addLine.
    destruct (Nat.ltb_spec (numResultLines g) CAPACITY) as [Hlt|Hge]; [|lia].
    rewrite IH.
    + simpl. rewrite <- app_assoc. reflexivity.
    + unfold numResultLines in *. simpl. rewrite length_app. simpl. lia.
Qed.

Lemma addLines_full (l : list asmLines) (g : globals) :
  (CAPACITY < numResultLines g + length l)%nat ->
  (numResultLines g <= CAPACITY)%nat ->
  addLines l g = None.
Proof.
  revert g. induction l as [|x l IH]; intros g H Hg; simpl in *.
  - lia.
  - unfold bind, addLine.
    destruct (Nat.ltb_spec (numResultLines g) CAPACITY) as [Hlt|Hge]; [|reflexivity].
    apply IH; unfold numResultLines in *; simpl; rewrite length_app; simpl; lia.
Qed.

Lemma addLinesTemp_ok (l : list asmLines) (g : globals) :
  (numResultLinesTemp g + length l <= CAPACITY)%nat ->
  addLinesTemp l g = Some (tt, set_resultLinesTemp (resultLinesTemp g ++ l) g).
Proof.
  revert g. induction l as [|x l IH]; intros g H; simpl in *.
  - rewrite app_nil_r. destruct g; reflexivity.
  - unfold bind, addLineTemp.
    destruct (Nat.ltb_spec (numResultLinesTemp g) CAPACITY) as [Hlt|Hge]; [|lia].
    rewrite IH.
    + simpl. rewrite <- app_assoc. reflexivity.
    + unfold numResultLinesTemp in *. simpl. rewrite length_app. simpl. lia.
Qed.

Lemma addLinesTemp_full (l : list asmLines) (g : globals) :
  (CAPACITY < numResultLinesTemp g + length l)%nat ->
  (numResultLinesTemp g <= CAPACITY)%nat ->
  addLinesTemp l g = None.
Proof.
  revert g. induction l as [|x l IH]; intros g H Hg; simpl in *.
  - lia.
  - unfold bind, addLineTemp.
    destruct (Nat.ltb_spec (numResultLinesTemp g) CAPACITY) as [Hlt|Hge]; [|reflexivity].
    apply IH; unfold numResultLinesTemp in *; simpl; rewrite length_app; simpl; lia.
Qed.

Lemma addLinesTemp_app (l1 l2 : list asmLines) (g : globals) :
  addLinesTemp (l1 ++ l2) g = (addLinesTemp l1 ;; addLinesTemp l2) g.
Proof.
  revert g. induction l1 as [|x l1 IH]; intro g; simpl.
  - reflexivity.
  - rewrite bind_assoc. apply bind_ext; auto.
Qed.

Lemma addLinesTemp_resultLines (l : list asmLines) (g g' : globals) (u : unit) :
  addLinesTemp l g = Some (u, g') -> resultLines g' = resultLines g.
Proof.
  revert g. induction l as [|x l IH]; intros g H; simpl in *.
  - inversion H; reflexivity.
  - unfold bind, addLineTemp in H.
    destruct (numResultLinesTemp g <? CAPACITY)%nat; [|discriminate].
    apply IH in H. exact H.
Qed.

(** ** The sequence builder as a list *)

Lemma srla_times_lines (n : nat) (g : globals) :
  srla_times n g = addLines (repeat _srl_a n) g.
Proof.
  revert g. induction n as [|n IH]; intro g; simpl; auto.
  apply bind_ext; auto.
Qed.

Lemma terms_loop_lines (arr : list Z) (numpowers c : nat) (g : globals) :
  terms_loop arr numpowers c g = addLines (terms_lines arr numpowers c) g.
Proof.
  revert g. induction c as [|j IH]; intro g; [reflexivity|].
  cbn [terms_loop terms_lines]. rewrite addLines_app.
  apply bind_ext; [|intros; apply IH].
  destruct j as [|j']; [reflexivity|].
  cbn [addLines]. apply bind_ext.
  - destruct (_ =? _)%nat; reflexivity.
  - intros _ g1. rewrite addLines_app. apply bind_ext.
    + apply srla_times_lines.
    + intros _ g2. symmetry. apply addLines_one.
Qed.

Lemma bind_addLines_app {B} (l1 l2 : list asmLines) (k : unit -> M B)
      (g : globals) :
  bind (addLines (l1 ++ l2)) k g
  = bind (addLines l1) (fun _ => bind (addLines l2) k) g.
Proof.
  rewrite <- bind_assoc. apply bind_ext; auto. apply addLines_app.
Qed.

Lemma bind_addLines_nil {B} (k : unit -> M B) (g : globals) :
  bind (addLines []) k g = k tt g.
Proof. reflexivity. Qed.

Lemma bind_addLine_one {B} (x : asmLines) (k : unit -> M B) (g : globals) :
  bind (addLines [x]) k g = bind (addLine x) k g.
Proof. apply bind_ext; auto. apply addLines_one. Qed.

Lemma buildCode_lines (i divpow : Z) (g : globals) :
  buildCode i divpow g
  = (addLines (build_lines i divpow) ;; ret (build_numpowers i divpow)) g.
Proof.
  unfold buildCode, build_lines, build_numpowers.
  destruct (divpow - nth 0 (decompose i) 0 >? 8) eqn:Hbig.
  - simpl. unfold bind. destruct (addLine _xor_a g) as [[[] g1]|]; simpl; auto.
    destruct (addLine _ret g1) as [[[] g2]|]; reflexivity.
  - unfold tail_lines.
    rewrite !bind_assoc. rewrite <- !app_assoc. rewrite bind_addLines_app.
    apply bind_ext.
    { destruct (1 <? _)%nat; [symmetry; apply addLines_one | reflexivity]. }
    intros _ g1. rewrite !bind_assoc, bind_addLines_app.
    apply bind_ext; [apply terms_loop_lines|].
    intros _ g2. rewrite !bind_assoc, bind_addLines_app.
    apply bind_ext.
    { destruct (prune (decompose i) =? 1)%nat; simpl.
      - destruct (divpow =? _); simpl; [reflexivity|].
        symmetry; apply addLines_one.
      - symmetry; apply addLines_one. }
    intros _ g3. rewrite !bind_assoc, bind_addLines_app.
    apply bind_ext; [apply srla_times_lines|].
    intros _ g4. rewrite bind_ret_l. rewrite bind_addLine_one.
    apply bind_ext; auto.
Qed.

(** ** The optimizer as a list function *)

Lemma bind_ext_run {A B} (m : M A) (k k' : A -> M B) (g : globals) :
  (forall a g', m g = Some (a, g') -> k a g' = k' a g') ->
  bind m k g = bind m k' g.
Proof.
  intros Hk. unfold bind. destruct (m g) as [[a g']|]; auto.
Qed.

Lemma optimize_loop_lines (fuel i : nat) (g : globals) :
  optimize_loop fuel i g
  = addLinesTemp (optimize_lines fuel (resultLines g) i) g.
Proof.
  revert i g. induction fuel as [|fuel IH]; intros i g; [reflexivity|].
  cbn [optimize_loop optimize_lines]. unfold numResultLines.
  destruct (i <? length (resultLines g))%nat; [|reflexivity].
  destruct (optimize_at (resultLines g) i) as [added m].
  rewrite addLinesTemp_app. apply bind_ext_run.
  intros [] g' Hg'. rewrite IH.
  rewrite (addLinesTemp_resultLines _ _ _ _ Hg'). reflexivity.
Qed.

Lemma optimizeCode_ok (g : globals) :
  (length (optimize (resultLines g)) <= CAPACITY)%nat ->
  optimizeCode g
  = Some (tt, mkGlobals (optimize (resultLines g)) (optimize (resultLines g))
                        (sizeResult g) (speedResult g) (stdout g)).
Proof.
  intro H. unfold optimizeCode.
  rewrite optimize_loop_lines.
  change (optimize_lines _ _ 0) with (optimize (resultLines g)).
  rewrite addLinesTemp_ok by (unfold numResultLinesTemp; simpl; lia).
  cbn [resultLinesTemp set_resultLinesTemp app].
  rewrite addLines_ok by (unfold numResultLines; simpl; lia).
  reflexivity.
Qed.

Lemma optimizeCode_full (g : globals) :
  (CAPACITY < length (optimize (resultLines g)))%nat ->
  optimizeCode g = None.
Proof.
  intro H. unfold optimizeCode.
  rewrite optimize_loop_lines.
  change (optimize_lines _ _ 0) with (optimize (resultLines g)).
  rewrite addLinesTemp_full; auto; unfold numResultLinesTemp, CAPACITY; simpl; lia.
Qed.

Lemma optimize_at_skipn (lines : list asmLines) (i : nat) :
  optimize_at lines i = optimize_at (skipn i lines) 0.
Proof.
  unfold optimize_at.
  rewrite nth_error_skipn, Nat.add_0_r.
  rewrite skipn_skipn. simpl. reflexivity.
Qed.

Lemma optimize_lines_peephole (fuel : nat) (lines : list asmLines) (i : nat) :
  optimize_lines fuel lines i = peephole fuel (skipn i lines).
Proof.
  revert i. induction fuel as [|fuel IH]; intro i; [reflexivity|].
  cbn [optimize_lines peephole].
  destruct (Nat.ltb_spec i (length lines)) as [Hlt|Hge].
  - destruct (skipn i lines) as [|x rest] eqn:Hs.
    + apply (f_equal (@length _)) in Hs. rewrite length_skipn in Hs.
      simpl in Hs. lia.
    + rewrite optimize_at_skipn, Hs.
      destruct (optimize_at (x :: rest) 0) as [added m].
      rewrite IH. rewrite <- Hs, skipn_skipn.
      do 3 f_equal. lia.
  - rewrite skipn_all2 by lia. reflexivity.
Qed.

Lemma peephole_fuel (n fuel1 fuel2 : nat) (rest : list asmLines) :
  (length rest <= n)%nat -> (n <= fuel1)%nat -> (n <= fuel2)%nat ->
  peephole fuel1 rest = peephole fuel2 rest.
Proof.
  revert fuel1 fuel2 rest.
  induction n as [|n IH]; intros fuel1 fuel2 rest Hlen H1 H2.
  - destruct rest; [|simpl in Hlen; lia].
    destruct fuel1, fuel2; reflexivity.
  - destruct rest as [|x rest].
    + destruct fuel1, fuel2; reflexivity.
    + destruct fuel1 as [|fuel1]; [lia|]. destruct fuel2 as [|fuel2]; [lia|].
      cbn [peephole]. destruct (optimize_at (x :: rest) 0) as [added m].
      f_equal. apply IH; try lia.
      rewrite length_skipn. cbn [length] in *. lia.
Qed.

Lemma optimize_nil : optimize [] = [].
Proof. reflexivity. Qed.

Lemma optimize_cons (x : asmLines) (rest : list asmLines) :
  optimize (x :: rest)
  = fst (optimize_at (x :: rest) 0)
    ++ optimize (skipn (snd (optimize_at (x :: rest) 0)) rest).
Proof.
  unfold optimize. rewrite !optimize_lines_peephole. cbn [skipn length peephole].
  destruct (optimize_at (x :: rest) 0) as [added m]. cbn [fst snd].
  f_equal. rewrite Nat.add_1_r. cbn [skipn].
  apply (peephole_fuel (length (skipn m rest))); auto.
  rewrite length_skipn. lia.
Qed.


Lemma count_srla_split (l : list asmLines) :
  l = repeat _srl_a (count_srla l) ++ skipn (count_srla l) l
  /\ count_srla (skipn (count_srla l) l) = O.
Proof.
  induction l as [|x l [IH1 IH2]]; simpl; auto.
  destruct x; simpl; auto. split; [f_equal; exact IH1 | exact IH2].
Qed.

Lemma optimize_rra (rest : list asmLines) :
  optimize (_rra :: rest)
  = match count_srla rest with
    | 4%nat => [_rla; _rla; _rla; _rla; _and_0f] ++ optimize (skipn 4 rest)
    | 5%nat => [_rla; _rla; _rla; _and_07] ++ optimize (skipn 5 rest)
    | 6%nat => [_rla; _rla; _and_03] ++ optimize (skipn 6 rest)
    | 7%nat => [_rla; _and_01] ++ optimize (skipn 7 rest)
    | _ => _rra :: optimize rest
    end.
Proof.
  rewrite optimize_cons. unfold optimize_at. cbn [nth_error skipn].
  destruct (count_srla rest) as [|[|[|[|[|[|[|[|n]]]]]]]]; reflexivity.
Qed.

Lemma optimize_srl_a (rest : list asmLines) :
  optimize (_srl_a :: rest)
  = match count_srla rest with
    | 2%nat => [_and_f8; _rrca; _rrca; _rrca] ++ optimize (skipn 2 rest)
    | 3%nat => [_and_f0; _rrca; _rrca; _rrca; _rrca] ++ optimize (skipn 3 rest)
    | 4%nat => [_and_e0; _rlca; _rlca; _rlca] ++ optimize (skipn 4 rest)
    | 5%nat => [_and_c0; _rlca; _rlca] ++ optimize (skipn 5 rest)
    | 6%nat => [_and_80; _rlca] ++ optimize (skipn 6 rest)
    | 7%nat => [_xor_a] ++ optimize (skipn 7 rest)
    | _ => _srl_a :: optimize rest
    end.
Proof.
  rewrite optimize_cons. unfold optimize_at. cbn [nth_error skipn count_srla is_srl_a].
  destruct (count_srla rest) as [|[|[|[|[|[|[|[|n]]]]]]]]; reflexivity.
Qed.

Lemma optimize_other (x : asmLines) (rest : list asmLines) :
  x <> _rra -> x <> _srl_a -> optimize (x :: rest) = x :: optimize rest.
Proof.
  intros H1 H2. rewrite optimize_cons.
  destruct x; try reflexivity; congruence.
Qed.

(** ** The processor *)

Lemma forall_byte (P : Z -> bool) :
  forallb P bytes = true -> forall a, 0 <= a < 256 -> P a = true.
Proof.
  intros H a Ha. rewrite forallb_forall in H. apply H.
  unfold bytes. apply in_map_iff. exists (Z.to_nat a). split; [lia|].
  apply in_seq. lia.
Qed.

Lemma land_255 (x : Z) : Z.land x 255 = x mod 256.
Proof. change 255 with (Z.ones 8). rewrite Z.land_ones by lia. reflexivity. Qed.

Lemma range_by_bytes (f : Z -> Z) :
  forallb (fun a => (0 <=? f a) && (f a <? 256)) bytes = true ->
  forall a, 0 <= a < 256 -> 0 <= f a < 256.
Proof.
  intros H a Ha. apply forall_byte with (a := a) in H; auto.
  apply andb_true_iff in H. lia.
Qed.

Lemma eq_by_bytes (f g : Z -> Z) :
  forallb (fun a => f a =? g a) bytes = true ->
  forall a, 0 <= a < 256 -> f a = g a.
Proof.
  intros H a Ha. apply forall_byte with (a := a) in H; auto. lia.
Qed.

Ltac by_bytes :=
  match goal with
  | |- forall a, 0 <= a < 256 -> 0 <= @?f a < 256 =>
      apply (range_by_bytes f); vm_compute; reflexivity
  | |- forall a, 0 <= a < 256 -> @?f a = @?g a =>
      apply (eq_by_bytes f g); vm_compute; reflexivity
  end.

Lemma step_regB (x : asmLines) (c : cpu) :
  x <> _ld_ba -> regB (step x c) = regB c.
Proof. destruct x; try reflexivity; congruence. Qed.




Lemma run_app (l1 l2 : list asmLines) (c : cpu) :
  ~ In _ret l1 -> run (l1 ++ l2) c = run l2 (run l1 c).
Proof.
  revert c. induction l1 as [|x l1 IH]; intros c H; [reflexivity|].
  assert (x <> _ret) by (intro; subst; apply H; left; reflexivity).
  assert (~ In _ret l1) by (intro; apply H; right; assumption).
  destruct x; try congruence; cbn [run app]; apply IH; assumption.
Qed.

Lemma run_cons (x : asmLines) (rest : list asmLines) (c : cpu) :
  x <> _ret -> run (x :: rest) c = run rest (step x c).
Proof. destruct x; try reflexivity; congruence. Qed.

Lemma not_in_repeat_srla (n : nat) : ~ In _ret (repeat _srl_a n).
Proof. intro H. apply repeat_spec in H. discriminate. Qed.

(** [n] times [srl a] divide the accumulator by [2^n]. *)
Lemma run_srla (n : nat) (c : cpu) :
  exists cy, run (repeat _srl_a n) c
             = mkCpu (regA c / 2 ^ Z.of_nat n) (regB c) cy.
Proof.
  revert c. induction n as [|n IH]; intro c.
  - exists (carry c). destruct c. simpl. rewrite Z.div_1_r. reflexivity.
  - cbn [repeat run]. destruct (IH (step _srl_a c)) as [cy Hcy].
    exists cy. rewrite Hcy. cbn [step regA regB].
    rewrite Z.shiftr_div_pow2 by lia.
    rewrite Z.div_div by lia.
    rewrite Nat2Z.inj_succ, Z.pow_succ_r by lia. reflexivity.
Qed.

(** ** Soundness of the optimizer *)





Lemma skipn_length_le {A} (k : nat) (l : list A) :
  (length (skipn k l) <= length l)%nat.
Proof. rewrite length_skipn. lia. Qed.



(** ** The decomposition into powers of two *)

Lemma sum_pow2_app (l1 l2 : list Z) :
  sum_pow2 (l1 ++ l2) = sum_pow2 l1 + sum_pow2 l2.
Proof. induction l1 as [|x l1 IH]; simpl; [reflexivity | rewrite IH; lia]. Qed.

Lemma decompose_loop_spec (n : nat) :
  forall j i arr,
    MAXPOWER2 - j = Z.of_nat n - 1 ->
    0 <= i < 2 ^ Z.of_nat n ->
    exists exps,
      decompose_loop n j i (2 ^ Z.of_nat n / 2) arr = arr ++ exps
      /\ sum_pow2 exps = i
      /\ StronglySorted Z.gt exps
      /\ Forall (fun e => 0 <= e < Z.of_nat n) exps.
Proof.
  induction n as [|n IH]; intros j i arr Hj Hi.
  - exists []. simpl in *. rewrite app_nil_r.
    repeat split; try constructor. lia.
  - assert (Hp : 2 ^ Z.of_nat (S n) / 2 = 2 ^ Z.of_nat n).
    { rewrite Nat2Z.inj_succ, Z.pow_succ_r by lia.
      rewrite Z.mul_comm, Z.div_mul by lia. reflexivity. }
    assert (Hpos : 0 < 2 ^ Z.of_nat n) by (apply Z.pow_pos_nonneg; lia).
    cbn [decompose_loop]. rewrite Hp.
    assert (Hi' : i < 2 * 2 ^ Z.of_nat n).
    { rewrite <- Z.pow_succ_r by lia. rewrite <- Nat2Z.inj_succ. lia. }
    destruct (Z.gtb_spec i (2 ^ Z.of_nat n - 1)) as [Hgt|Hle].
    + destruct (IH (j + 1) (i - 2 ^ Z.of_nat n) (arr ++ [MAXPOWER2 - j]))
        as (exps & E1 & E2 & E3 & E4); [lia | lia |].
      exists ((MAXPOWER2 - j) :: exps). rewrite E1, <- app_assoc.
      assert (Hlt : Forall (fun e => 0 <= e < MAXPOWER2 - j) exps).
      { eapply Forall_impl; [|exact E4]. cbv beta. intros; lia. }
      repeat split.
      * unfold sum_pow2 in *. cbn [fold_right]. rewrite E2.
        replace (MAXPOWER2 - j) with (Z.of_nat n) by lia. lia.
      * constructor; [assumption|].
        eapply Forall_impl; [|exact Hlt]. cbv beta. intros; lia.
      * constructor; [lia|].
        eapply Forall_impl; [|exact E4]. cbv beta. intros; lia.
    + destruct (IH (j + 1) i arr) as (exps & E1 & E2 & E3 & E4); [lia | lia |].
      exists exps. repeat split; auto.
      eapply Forall_impl; [|exact E4]. cbv beta. intros; lia.
Qed.

Lemma decompose_spec (v : Z) :
  0 <= v < 2 ^ (MAXPOWER2 + 1) ->
  sum_pow2 (decompose v) = v
  /\ StronglySorted Z.gt (decompose v)
  /\ Forall (fun e => 0 <= e <= MAXPOWER2) (decompose v).
Proof.
  intro Hv.
  destruct (decompose_loop_spec 25 0 v []) as (exps & E1 & E2 & E3 & E4).
  - reflexivity.
  - exact Hv.
  - unfold decompose. change (Z.to_nat (MAXPOWER2 + 1)) with 25%nat.
    change (Z.shiftl 1 MAXPOWER2) with (2 ^ Z.of_nat 25 / 2).
    rewrite E1. cbn [app]. repeat split; auto.
    eapply Forall_impl; [|exact E4]. cbv beta. unfold MAXPOWER2. intros; lia.
Qed.

(** The exponents by index, as the loops of [generateCode] read them. *)

Lemma firstn_succ_nth {A} (l : list A) (k : nat) (d : A) :
  (k < length l)%nat -> firstn (S k) l = firstn k l ++ [nth k l d].
Proof.
  revert k. induction l as [|x l IH]; intros k Hk; [simpl in Hk; lia|].
  destruct k as [|k]; [reflexivity|].
  cbn [firstn nth app]. cbn [firstn] in IH. rewrite IH by (simpl in Hk; lia).
  reflexivity.
Qed.

Lemma sum_below_firstn (exps : list Z) (k : nat) :
  (k <= length exps)%nat -> sum_below exps k = sum_pow2 (firstn k exps).
Proof.
  induction k as [|k IH]; intro Hk; [reflexivity|].
  cbn [sum_below]. rewrite IH by lia.
  rewrite (firstn_succ_nth exps k 0) by lia.
  rewrite sum_pow2_app. simpl. lia.
Qed.

Lemma sum_below_length (exps : list Z) :
  sum_below exps (length exps) = sum_pow2 exps.
Proof. rewrite sum_below_firstn by lia. rewrite firstn_all. reflexivity. Qed.

Lemma sorted_exponents (exps : list Z) :
  StronglySorted Z.gt exps -> Forall (fun e => 0 <= e) exps ->
  exponents exps.
Proof.
  intros Hs Hf. split.
  - intros k Hk. rewrite Forall_forall in Hf. apply Hf, nth_In, Hk.
  - induction Hs as [|x l Hs IH Hx]; intros k Hk; [simpl in Hk; lia|].
    destruct k as [|k].
    + cbn [nth]. rewrite Forall_forall in Hx.
      assert (In (nth 0 l 0) l) by (apply nth_In; simpl in Hk; lia).
      specialize (Hx _ H). lia.
    + apply IH; [inversion Hf; assumption | simpl in Hk; lia].
Qed.

Lemma exponents_le (exps : list Z) (a b : nat) :
  exponents exps -> (a <= b)%nat -> (b < length exps)%nat ->
  nth b exps 0 + Z.of_nat (b - a) <= nth a exps 0.
Proof.
  intros [_ Hd] Hab Hb. induction b as [|b IH].
  - replace a with 0%nat by lia. simpl. lia.
  - destruct (Nat.eq_dec a (S b)) as [->|Hne].
    + rewrite Nat.sub_diag. simpl. lia.
    + specialize (IH ltac:(lia) ltac:(lia)). specialize (Hd b Hb).
      replace (S b - a)%nat with (S (b - a)) by lia. lia.
Qed.

Lemma pow2_le (a b : Z) : 0 <= a <= b -> 2 ^ a <= 2 ^ b.
Proof. intro H. apply Z.pow_le_mono_r; lia. Qed.

Lemma pow2_pos (a : Z) : 0 <= a -> 0 < 2 ^ a.
Proof. intro H. apply Z.pow_pos_nonneg; lia. Qed.

Lemma pow2_double (a : Z) : 0 <= a -> 2 ^ (a + 1) = 2 * 2 ^ a.
Proof. intro H. rewrite Z.pow_add_r by lia. lia. Qed.

(** The terms from index [k] to [n-1] sum to less than twice the first. *)
Lemma sum_below_tail (exps : list Z) (k n : nat) :
  exponents exps -> (k < n)%nat -> (n <= length exps)%nat ->
  sum_below exps n - sum_below exps k
  <= 2 * 2 ^ nth k exps 0 - 2 ^ nth (n - 1) exps 0.
Proof.
  intros He Hk Hn. induction n as [|n IH]; [lia|].
  destruct (Nat.eq_dec k n) as [->|Hne].
  - cbn [sum_below]. replace (S n - 1)%nat with n by lia. lia.
  - specialize (IH ltac:(lia) ltac:(lia)).
    cbn [sum_below]. replace (S n - 1)%nat with n by lia.
    destruct He as [Hpos Hd].
    assert (Hlt : nth n exps 0 < nth (n - 1) exps 0).
    { specialize (Hd (n - 1)%nat). replace (S (n - 1)) with n in Hd by lia.
      apply Hd. lia. }
    assert (H0 : 0 <= nth n exps 0) by (apply Hpos; lia).
    assert (H2 : 2 * 2 ^ nth n exps 0 <= 2 ^ nth (n - 1) exps 0).
    { rewrite <- pow2_double by lia. apply pow2_le. lia. }
    lia.
Qed.

Lemma sum_below_tail_lt (exps : list Z) (k : nat) :
  exponents exps -> (k < length exps)%nat ->
  sum_below exps (length exps) - sum_below exps k < 2 * 2 ^ nth k exps 0.
Proof.
  intros He Hk.
  pose proof (sum_below_tail exps k (length exps) He Hk (Nat.le_refl _)) as H.
  assert (0 < 2 ^ nth (length exps - 1) exps 0).
  { apply pow2_pos. apply He. lia. }
  lia.
Qed.

Lemma sum_below_nonneg (exps : list Z) (k : nat) :
  exponents exps -> (k <= length exps)%nat -> 0 <= sum_below exps k.
Proof.
  intros He Hk. induction k as [|k IH]; cbn [sum_below]; [lia|].
  specialize (IH ltac:(lia)).
  assert (0 < 2 ^ nth k exps 0) by (apply pow2_pos, He; lia). lia.
Qed.

(** The first [k+1] terms sum to a multiple of the last of them. *)
Lemma sum_below_divide (exps : list Z) (k : nat) :
  exponents exps -> (k < length exps)%nat ->
  (2 ^ nth k exps 0 | sum_below exps (S k)).
Proof.
  intros He Hk. induction k as [|k IH].
  - simpl. exists 1. lia.
  - specialize (IH ltac:(lia)). cbn [sum_below] in *.
    apply Z.divide_add_r; [|apply Z.divide_refl].
    apply Z.divide_trans with (2 ^ nth k exps 0); [|exact IH].
    destruct He as [Hpos Hd]. specialize (Hd k Hk).
    specialize (Hpos (S k) Hk).
    exists (2 ^ (nth k exps 0 - nth (S k) exps 0)).
    rewrite <- Z.pow_add_r by lia. f_equal. lia.
Qed.

(** ** The pruning pass *)

Lemma stable_from_weaken (exps : list Z) (j n : nat) :
  (S j < n)%nat -> stable_from exps j n -> stable_from exps (S j) n.
Proof.
  intros Hj [H1 H2]. split.
  - intros k Hk. apply H1. lia.
  - intros _. apply H2. lia.
Qed.

Lemma prune_loop_stable (exps : list Z) (j : nat) :
  forall numpowers,
    (j < numpowers <= length exps)%nat ->
    stable_from exps j numpowers ->
    (forall m, (numpowers < m <= length exps)%nat -> ~ stable_from exps j m) ->
    let n := prune_loop exps j numpowers in
    (1 <= n <= numpowers)%nat
    /\ stable exps n
    /\ (forall m, (n < m <= length exps)%nat -> ~ stable exps m).
Proof.
  induction j as [|j IH]; intros np Hnp Hst Hmax; cbn [prune_loop].
  - cbv zeta. repeat split; try lia; auto. apply Hst. apply Hst.
  - set (difference := nth j exps 0 - nth (S j) exps 0).
    destruct (((S j =? np - 1)%nat && (difference >? 7)) || (difference >? 8))
      eqn:Hcond.
    + (* the smaller powers are discarded *)
      assert (Hc : difference > 8 \/ (np = S (S j) /\ difference > 7)).
      { apply orb_true_iff in Hcond. destruct Hcond as [H|H].
        - apply andb_true_iff in H. destruct H as [H1 H2].
          apply Nat.eqb_eq in H1. right. lia.
        - left. lia. }
      destruct (IH (S j)) as (H1 & H2 & H3).
      * lia.
      * split; intros; lia.
      * intros m Hm [Hs1 Hs2].
        assert (Hg : difference <= 8).
        { specialize (Hs1 (S j) ltac:(lia)).
          replace (S j - 1)%nat with j in Hs1 by lia. exact Hs1. }
        destruct Hc as [Hc|[Hc1 Hc2]]; [lia|].
        destruct (Nat.eq_dec m np) as [->|Hne].
        -- specialize (Hs2 ltac:(lia)). subst np.
           replace (S (S j) - 2)%nat with j in Hs2 by lia.
           replace (S (S j) - 1)%nat with (S j) in Hs2 by lia.
           unfold difference in Hc2. lia.
        -- apply (Hmax m); [lia|].
           apply stable_from_weaken; [lia | split; assumption].
      * cbv zeta in *. split; [lia|]. split; assumption.
    + (* nothing is discarded at this gap *)
      assert (Hc : difference <= 8 /\ (np = S (S j) -> difference <= 7)).
      { apply orb_false_iff in Hcond. destruct Hcond as [H1 H2].
        split; [lia|]. intro Hn. apply andb_false_iff in H1.
        destruct H1 as [H1|H1]; [apply Nat.eqb_neq in H1|]; lia. }
      destruct (IH np) as (H1 & H2 & H3).
      * lia.
      * destruct Hst as [Hs1 Hs2]. split.
        -- intros k Hk. destruct (Nat.eq_dec k (S j)) as [->|Hne].
           ++ replace (S j - 1)%nat with j by lia. apply Hc.
           ++ apply Hs1. lia.
        -- intros _. destruct (Nat.eq_dec np (S (S j))) as [Hn|Hn].
           ++ subst np. replace (S (S j) - 2)%nat with j by lia.
              replace (S (S j) - 1)%nat with (S j) by lia.
              apply Hc. reflexivity.
           ++ apply Hs2. lia.
      * intros m Hm Hs. apply (Hmax m); [lia|].
        apply stable_from_weaken; [lia | assumption].
      * cbv zeta in *. split; [lia|]. split; assumption.
Qed.

Lemma prune_stable (exps : list Z) :
  exps <> [] ->
  (1 <= prune exps <= length exps)%nat
  /\ stable exps (prune exps)
  /\ (forall m, (prune exps < m <= length exps)%nat -> ~ stable exps m).
Proof.
  intro Hne. unfold prune.
  assert (0 < length exps)%nat by (destruct exps; [congruence | simpl; lia]).
  apply prune_loop_stable.
  - lia.
  - split; intros; lia.
  - intros m Hm. lia.
Qed.

Lemma prune_loop_negligible (exps : list Z) (j : nat) :
  exponents exps ->
  forall numpowers,
    (j < numpowers <= length exps)%nat ->
    negligible exps numpowers ->
    negligible exps (prune_loop exps j numpowers).
Proof.
  intro He. induction j as [|j IH]; intros np Hnp Hneg; cbn [prune_loop].
  - exact Hneg.
  - set (difference := nth j exps 0 - nth (S j) exps 0).
    destruct (((S j =? np - 1)%nat && (difference >? 7)) || (difference >? 8))
      eqn:Hcond; [|apply IH; [lia | assumption]].
    apply IH; [lia|].
    assert (H0 : 0 <= nth (S j) exps 0) by (apply He; lia).
    assert (Hp : 0 < 2 ^ nth (S j) exps 0) by (apply pow2_pos; assumption).
    intros x Hx. replace (S j - 1)%nat with j by lia.
    apply orb_true_iff in Hcond. destruct Hcond as [H|H].
    + apply andb_true_iff in H. destruct H as [H1 H2].
      apply Nat.eqb_eq in H1. assert (np = S (S j)) by lia. subst np.
      specialize (Hneg x Hx). replace (S (S j) - 1)%nat with (S j) in Hneg by lia.
      cbn [sum_below] in Hneg.
      assert (Hle : 2 ^ (nth (S j) exps 0 + 8) <= 2 ^ nth j exps 0).
      { apply pow2_le. unfold difference in H2. lia. }
      rewrite Z.pow_add_r in Hle by lia. change (2 ^ 8) with 256 in Hle.
      cbn [sum_below].
      generalize dependent (2 ^ nth (S j) exps 0).
      generalize (2 ^ nth j exps 0) (sum_below exps (length exps))
                 (sum_below exps j).
      intros. nia.
    + pose proof (sum_below_tail_lt exps (S j) He ltac:(lia)) as Ht.
      assert (Hle : 2 ^ (nth (S j) exps 0 + 9) <= 2 ^ nth j exps 0).
      { apply pow2_le. unfold difference in H. lia. }
      rewrite Z.pow_add_r in Hle by lia. change (2 ^ 9) with 512 in Hle.
      generalize dependent (2 ^ nth (S j) exps 0).
      generalize (2 ^ nth j exps 0)
                 (sum_below exps (length exps) - sum_below exps (S j)).
      intros. nia.
Qed.

Lemma prune_negligible (exps : list Z) :
  exponents exps -> exps <> [] -> negligible exps (prune exps).
Proof.
  intros He Hne. unfold prune.
  assert (0 < length exps)%nat by (destruct exps; [congruence | simpl; lia]).
  apply prune_loop_negligible; [assumption | lia |].
  intros x Hx. rewrite Z.sub_diag, Z.mul_0_r.
  apply pow2_pos, He. lia.
Qed.

(** ** What the built sequence computes *)

Lemma step_rra_acc9 (c : cpu) :
  0 <= regA c < 256 -> regA (step _rra c) = acc9 c / 2.
Proof.
  destruct c as [a b cy]. unfold acc9. cbn [step regA regB carry].
  revert a. destruct cy; cbn [Z.b2z]; by_bytes.
Qed.

Lemma step_add_b_acc9 (c : cpu) :
  0 <= regA c + regB c < 512 -> acc9 (step _add_b c) = regA c + regB c.
Proof.
  destruct c as [a b cy]. unfold acc9. cbn [step regA regB carry]. intro H.
  rewrite land_255, Z.testbit_spec' by lia. change (2 ^ 8) with 256.
  assert (Hq : 0 <= (a + b) / 256 < 2).
  { split; [apply Z.div_pos; lia | apply Z.div_lt_upper_bound; lia]. }
  rewrite (Z.mod_small ((a + b) / 256)) by lia.
  pose proof (Z.div_mod (a + b) 256 ltac:(lia)). lia.
Qed.

(** One term of the decomposition: [srl a] or [rra], then [srl a] up to the
    difference [g] of the exponents, then [add b]. *)
Lemma run_term (first : asmLines) (g x : Z) (c : cpu) :
  first = _srl_a \/ first = _rra ->
  1 <= g -> 0 <= x < 256 -> regB c = x -> 0 <= regA c < 256 ->
  let w := if is_srl_a first then regA c else acc9 c in
  exists c',
    run (first :: repeat _srl_a (Z.to_nat (g - 1)) ++ [_add_b]) c = c'
    /\ regB c' = x /\ 0 <= regA c' < 256
    /\ acc9 c' = w / 2 ^ g + x.
Proof.
  intros Hf Hg Hx Hb Ha w.
  assert (H1 : exists cy, step first c = mkCpu (w / 2) x cy).
  { destruct Hf as [-> | ->]; subst w; cbn [is_srl_a].
    - exists (Z.testbit (regA c) 0). cbn [step].
      rewrite Z.shiftr_div_pow2 by lia. rewrite Hb. reflexivity.
    - exists (Z.testbit (regA c) 0).
      pose proof (step_rra_acc9 c Ha) as Hr. cbn [step] in *.
      cbn [regA] in Hr. rewrite Hr, Hb. reflexivity. }
  destruct H1 as [cy1 H1].
  assert (Hw : 0 <= w < 512).
  { subst w. unfold acc9. destruct (is_srl_a first); [lia|].
    destruct (carry c); cbn [Z.b2z]; lia. }
  eexists. split; [reflexivity|].
  rewrite run_cons by (destruct Hf; subst; discriminate).
  rewrite run_app by apply not_in_repeat_srla.
  rewrite H1.
  destruct (run_srla (Z.to_nat (g - 1)) (mkCpu (w / 2) x cy1)) as [cy2 H2].
  rewrite H2. cbn [regA regB run]. rewrite Z2Nat.id by lia.
  rewrite Z.div_div by (try apply pow2_pos; lia).
  rewrite <- Z.pow_succ_r by lia. replace (Z.succ (g - 1)) with g by lia.
  assert (Hq : 0 <= w / 2 ^ g < 256).
  { split; [apply Z.div_pos; [lia | apply pow2_pos; lia]|].
    apply Z.div_lt_upper_bound; [apply pow2_pos; lia|].
    assert (2 ^ 1 <= 2 ^ g) by (apply pow2_le; lia).
    change (2 ^ 1) with 2 in *. nia. }
  split; [reflexivity|]. split.
  - cbn [step regA]. rewrite land_255. apply Z.mod_pos_bound. lia.
  - rewrite step_add_b_acc9; cbn [regA regB]; lia.
Qed.

Lemma run_terms (exps : list Z) (x : Z) (numpowers : nat)
      (rest : list asmLines) :
  exponents exps -> 0 <= x < 256 ->
  forall c s,
    (c <= numpowers <= length exps)%nat ->
    regB s = x -> 0 <= regA s < 256 ->
    exists s',
      run (terms_lines exps numpowers c ++ rest) s = run rest s'
      /\ regB s' = x /\ 0 <= regA s' < 256
      /\ ((c <= 1)%nat -> s' = s)
      /\ ((2 <= c)%nat ->
          acc9 s' = nested exps x c
                           (if (c =? numpowers)%nat then regA s else acc9 s)).
Proof.
  intros He Hx. induction c as [|j IH]; intros s Hc Hb Ha.
  { exists s. cbn [terms_lines app]. repeat split; auto; try lia. }
  destruct j as [|j'].
  { exists s. cbn [terms_lines app]. repeat split; auto; try lia. }
  set (g := nth j' exps 0 - nth (S j') exps 0).
  set (first := if (S j' =? numpowers - 1)%nat then _srl_a else _rra).
  change (terms_lines exps numpowers (S (S j')))
    with ((first :: repeat _srl_a (Z.to_nat (g - 1)) ++ [_add_b])
            ++ terms_lines exps numpowers (S j')).
  rewrite <- app_assoc.
  assert (Hg : 1 <= g).
  { destruct He as [_ Hd]. specialize (Hd j' ltac:(lia)). subst g. lia. }
  assert (Hfirst : is_srl_a first = (S (S j') =? numpowers)%nat).
  { subst first. destruct (Nat.eqb_spec (S j') (numpowers - 1)) as [E|E];
      destruct (Nat.eqb_spec (S (S j')) numpowers) as [E'|E'];
      try reflexivity; lia. }
  assert (Hf : first = _srl_a \/ first = _rra).
  { subst first. destruct (S j' =? numpowers - 1)%nat; auto. }
  destruct (run_term first g x s Hf Hg Hx Hb Ha) as (s1 & R1 & B1 & A1 & V1).
  assert (Hrun : forall tl,
    run ((first
          :: repeat _srl_a (Z.to_nat (g - 1)) ++ [_add_b]) ++ tl) s
    = run tl s1).
  { intro tl. rewrite run_app; [rewrite R1; reflexivity|].
    intros [H|H]; [destruct Hf as [Hf|Hf]; rewrite Hf in H; discriminate|].
    apply in_app_or in H. destruct H as [H|[H|[]]];
      [apply not_in_repeat_srla in H; exact H | discriminate]. }
  rewrite Hrun.
  destruct (IH s1) as (s' & R & B & A & E1 & E2); auto; [lia|].
  exists s'. split; [exact R|]. split; [exact B|]. split; [exact A|].
  split; [lia|]. intros _.
  cbn [nested]. fold g. rewrite <- Hfirst. rewrite <- V1.
  destruct j' as [|j''].
  - rewrite E1 by lia. reflexivity.
  - rewrite E2 by lia.
    destruct (Nat.eqb_spec (S (S j'')) numpowers) as [E|E]; [lia|reflexivity].
Qed.

Lemma div_absorb (n p m r : Z) :
  0 < p -> 0 < m -> (p | n) -> 0 <= r < p ->
  (n + r) / (p * m) = n / (p * m).
Proof.
  intros Hp Hm [q ->] Hr.
  rewrite <- !Z.div_div by lia.
  rewrite Z.div_add_l, Z.div_mul by lia.
  rewrite (Z.div_small r p) by lia. f_equal. lia.
Qed.

Lemma pow2_split (a b : Z) : 0 <= b <= a -> 2 ^ a = 2 ^ b * 2 ^ (a - b).
Proof. intro H. rewrite <- Z.pow_add_r by lia. f_equal. lia. Qed.

Lemma sum_below_divide_le (exps : list Z) (k m : nat) :
  exponents exps -> (k <= S m)%nat -> (m < length exps)%nat ->
  (2 ^ nth m exps 0 | sum_below exps k).
Proof.
  intros He Hk Hm. destruct k as [|k]; [apply Z.divide_0_r|].
  apply Z.divide_trans with (2 ^ nth k exps 0).
  - pose proof (exponents_le exps k m He ltac:(lia) Hm) as Hle.
    assert (0 <= nth m exps 0) by (apply He; lia).
    exists (2 ^ (nth k exps 0 - nth m exps 0)).
    rewrite Z.mul_comm. apply pow2_split. lia.
  - apply sum_below_divide; [assumption | lia].
Qed.

Lemma nested_sum (exps : list Z) (x : Z) :
  exponents exps -> 0 <= x ->
  forall c w, (1 <= c <= length exps)%nat -> 0 <= w ->
    nested exps x c w
    = (w * 2 ^ nth (c - 1) exps 0 + x * sum_below exps (c - 1))
        / 2 ^ nth 0 exps 0.
Proof.
  intros He Hx. induction c as [|j IH]; intros w Hc Hw; [lia|].
  destruct j as [|j'].
  - cbn [nested Nat.sub sum_below]. rewrite Z.mul_0_r, Z.add_0_r.
    rewrite Z.div_mul; [reflexivity|].
    assert (0 < 2 ^ nth 0 exps 0) by (apply pow2_pos, He; lia). lia.
  - set (g := nth j' exps 0 - nth (S j') exps 0).
    change (nested exps x (S (S j')) w)
      with (nested exps x (S j') (w / 2 ^ g + x)).
    assert (Hg : 1 <= g).
    { destruct He as [_ Hd]. specialize (Hd j' ltac:(lia)). subst g. lia. }
    assert (Hq : 0 <= w / 2 ^ g) by (apply Z.div_pos; [lia | apply pow2_pos; lia]).
    rewrite IH by lia.
    replace (S j' - 1)%nat with j' by lia.
    replace (S (S j') - 1)%nat with (S j') by lia.
    cbn [sum_below].
    assert (H0 : 0 <= nth (S j') exps 0) by (apply He; lia).
    assert (H0' : 0 <= nth j' exps 0) by (apply He; lia).
    pose proof (exponents_le exps 0 j' He ltac:(lia) ltac:(lia)) as Hle.
    rewrite (pow2_split (nth 0 exps 0) (nth j' exps 0)) by lia.
    pose proof (pow2_pos (nth j' exps 0) H0') as HP.
    pose proof (pow2_pos (nth (S j') exps 0) H0) as Hp.
    pose proof (pow2_pos g ltac:(lia)) as HG.
    assert (HPG : 2 ^ nth j' exps 0 = 2 ^ nth (S j') exps 0 * 2 ^ g).
    { apply pow2_split. subst g. lia. }
    pose proof (Z.div_mod w (2 ^ g) ltac:(lia)) as Hdm.
    pose proof (Z.mod_pos_bound w (2 ^ g) HG) as Hr.
    symmetry.
    replace (w * 2 ^ nth (S j') exps 0
             + x * (sum_below exps j' + 2 ^ nth j' exps 0))
      with (((w / 2 ^ g + x) * 2 ^ nth j' exps 0 + x * sum_below exps j')
            + (w mod 2 ^ g) * 2 ^ nth (S j') exps 0).
    2:{ rewrite HPG. rewrite Hdm at 3. ring. }
    apply div_absorb.
    + assumption.
    + apply pow2_pos. lia.
    + apply Z.divide_add_r.
      * apply Z.divide_factor_r.
      * apply Z.divide_mul_r.
        apply sum_below_divide_le; [assumption | lia | lia].
    + rewrite HPG. nia.
Qed.

Lemma terms_lines_one (exps : list Z) : terms_lines exps 1 1 = [].
Proof. reflexivity. Qed.

(** The retained terms: the built sequence multiplies by their sum and
    divides by [2^divpow]. *)
Lemma tail_lines_result (exps : list Z) (numpowers : nat) (divpow : Z)
      (x b : Z) (cy : bool) :
  exponents exps ->
  (1 <= numpowers <= length exps)%nat ->
  nth 0 exps 0 <= divpow ->
  ((2 <= numpowers)%nat -> nth 0 exps 0 < divpow) ->
  0 <= x < 256 ->
  result (tail_lines exps numpowers divpow ++ [_ret]) x b cy
  = x * sum_below exps numpowers / 2 ^ divpow.
Proof.
  intros He Hn Hd Hd2 Hx. unfold result, tail_lines.
  assert (H0 : 0 <= nth 0 exps 0) by (apply He; lia).
  pose proof (pow2_pos _ H0) as HP0.
  destruct (Nat.eq_dec numpowers 1) as [->|Hne].
  - (* one term *)
    cbn [Nat.ltb Nat.leb Nat.eqb negb app]. rewrite terms_lines_one. cbn [app].
    cbn [sum_below]. rewrite Z.add_0_l.
    rewrite (pow2_split divpow (nth 0 exps 0)) by lia.
    rewrite (Z.mul_comm x).
    rewrite Z.div_mul_cancel_l by (try apply Z.pow_nonzero; lia).
    destruct (Z.eqb_spec divpow (nth 0 exps 0)) as [E|E]; cbn [negb app].
    + replace (Z.to_nat (divpow - nth 0 exps 0 - 1)) with 0%nat by lia.
      cbn [repeat app run regA]. rewrite E, Z.sub_diag.
      change (2 ^ 0) with 1. rewrite Z.div_1_r. reflexivity.
    + change (_srl_a :: repeat _srl_a (Z.to_nat (divpow - nth 0 exps 0 - 1))
                ++ [_ret])
        with (repeat _srl_a (S (Z.to_nat (divpow - nth 0 exps 0 - 1)))
                ++ [_ret]).
      rewrite run_app by apply not_in_repeat_srla.
      destruct (run_srla (S (Z.to_nat (divpow - nth 0 exps 0 - 1)))
                         (mkCpu x b cy)) as [cy' Hr].
      rewrite Hr. cbn [run regA]. f_equal. f_equal. lia.
  - (* more than one term *)
    assert (H2 : (2 <= numpowers)%nat) by lia. specialize (Hd2 H2).
    replace (1 <? numpowers)%nat with true by (symmetry; apply Nat.ltb_lt; lia).
    replace (numpowers =? 1)%nat with false by (symmetry; apply Nat.eqb_neq; lia).
    cbn [negb app run step regA regB carry].
    rewrite <- app_assoc.
    destruct (run_terms exps x numpowers
                ((_rra :: repeat _srl_a (Z.to_nat (divpow - nth 0 exps 0 - 1)))
                   ++ [_ret])
                He Hx numpowers (mkCpu x x cy))
      as (s' & R & B & A & _ & V); [lia | reflexivity | assumption |].
    rewrite R. specialize (V H2).
    rewrite Nat.eqb_refl in V. cbn [regA] in V.
    cbn [app]. rewrite run_cons by discriminate.
    rewrite run_app by apply not_in_repeat_srla.
    pose proof (step_rra_acc9 s' A) as Hrra.
    destruct (run_srla (Z.to_nat (divpow - nth 0 exps 0 - 1)) (step _rra s'))
      as [cy' Hr].
    rewrite Hr. cbn [run regA]. rewrite Hrra, V.
    rewrite nested_sum by (auto; lia).
    rewrite Z2Nat.id by lia.
    rewrite !Z.div_div by (try apply pow2_pos; lia).
    replace (2 * 2 ^ (divpow - nth 0 exps 0 - 1))
      with (2 ^ (divpow - nth 0 exps 0))
      by (rewrite <- Z.pow_succ_r by lia; f_equal; lia).
    rewrite <- (pow2_split divpow (nth 0 exps 0)) by lia.
    f_equal.
    replace numpowers with (S (numpowers - 1)) at 3 by lia.
    cbn [sum_below]. ring.
Qed.

Lemma sum_below_mono (exps : list Z) (a b : nat) :
  exponents exps -> (a <= b <= length exps)%nat ->
  sum_below exps a <= sum_below exps b.
Proof.
  intros He Hab. induction b as [|b IHb].
  - replace a with 0%nat by lia. lia.
  - destruct (Nat.eq_dec a (S b)) as [->|Hab']; [lia|].
    specialize (IHb ltac:(lia)). cbn [sum_below].
    assert (0 < 2 ^ nth b exps 0) by (apply pow2_pos, He; lia). lia.
Qed.

(** Discarding the negligible terms does not change the quotient. *)
Lemma pruned_quotient (exps : list Z) (n : nat) (divpow x : Z) :
  exponents exps ->
  (1 <= n <= length exps)%nat ->
  negligible exps n ->
  nth 0 exps 0 <= divpow ->
  0 <= x <= 255 ->
  x * sum_below exps n / 2 ^ divpow
  = x * sum_below exps (length exps) / 2 ^ divpow.
Proof.
  intros He Hn Hneg Hd Hx.
  pose proof (exponents_le exps 0 (n - 1) He ltac:(lia) ltac:(lia)) as Hle.
  assert (H0 : 0 <= nth (n - 1) exps 0) by (apply He; lia).
  rewrite (pow2_split divpow (nth (n - 1) exps 0)) by lia.
  symmetry.
  replace (x * sum_below exps (length exps))
    with (x * sum_below exps n
          + x * (sum_below exps (length exps) - sum_below exps n)) by ring.
  apply div_absorb.
  - apply pow2_pos; assumption.
  - apply pow2_pos; lia.
  - apply Z.divide_mul_r. apply sum_below_divide_le; [assumption | lia | lia].
  - split; [|apply Hneg; assumption].
    apply Z.mul_nonneg_nonneg; [lia|].
    pose proof (sum_below_mono exps n (length exps) He ltac:(lia)). lia.
Qed.

(** The decomposition of a multiplier within the supported range. *)
Lemma decompose_exponents (i : Z) :
  1 <= i < 2 ^ (MAXPOWER2 + 1) ->
  exponents (decompose i)
  /\ (1 <= length (decompose i))%nat
  /\ sum_below (decompose i) (length (decompose i)) = i
  /\ (forall k, (k < length (decompose i))%nat ->
                nth k (decompose i) 0 <= MAXPOWER2).
Proof.
  intro Hi. destruct (decompose_spec i ltac:(lia)) as (Hs & Hd & Hf).
  split; [|split; [|split]].
  - apply sorted_exponents; [assumption|].
    eapply Forall_impl; [|exact Hf]. cbv beta. intros; lia.
  - destruct (decompose i); [simpl in Hs; lia | simpl; lia].
  - rewrite sum_below_length. exact Hs.
  - intros k Hk. rewrite Forall_forall in Hf.
    apply (Hf (nth k (decompose i) 0)). apply nth_In, Hk.
Qed.

Lemma decompose_first (i divpow : Z) :
  0 <= divpow <= MAXPOWER2 -> 1 <= i <= 2 ^ divpow ->
  nth 0 (decompose i) 0 <= divpow
  /\ ((2 <= length (decompose i))%nat -> nth 0 (decompose i) 0 < divpow).
Proof.
  intros Hd Hi.
  assert (Hr : 1 <= i < 2 ^ (MAXPOWER2 + 1)).
  { split; [lia|]. apply Z.le_lt_trans with (2 ^ divpow); [lia|].
    apply Z.pow_lt_mono_r; lia. }
  destruct (decompose_exponents i Hr) as (He & Hlen & Hsum & _).
  assert (H0 : 0 <= nth 0 (decompose i) 0) by (apply He; lia).
  split.
  - pose proof (sum_below_mono (decompose i) 1 (length (decompose i)) He
                               ltac:(lia)) as Hm.
    cbn [sum_below] in Hm.
    apply (Z.pow_le_mono_r_iff 2); lia.
  - intro H2.
    pose proof (sum_below_mono (decompose i) 2 (length (decompose i)) He
                               ltac:(lia)) as Hm.
    cbn [sum_below] in Hm.
    assert (0 < 2 ^ nth 1 (decompose i) 0) by (apply pow2_pos, He; lia).
    apply (Z.pow_lt_mono_r_iff 2); lia.
Qed.

(** The sequence before optimization computes the quotient. *)
Lemma build_lines_result (i divpow : Z) :
  0 <= divpow <= MAXPOWER2 -> 1 <= i <= 2 ^ divpow ->
  forall a b cy, 0 <= a <= 255 ->
    result (build_lines i divpow) a b cy = a * i / 2 ^ divpow.
Proof.
  intros Hd Hi a b cy Ha.
  assert (Hr : 1 <= i < 2 ^ (MAXPOWER2 + 1)).
  { split; [lia|]. apply Z.le_lt_trans with (2 ^ divpow); [lia|].
    apply Z.pow_lt_mono_r; lia. }
  destruct (decompose_exponents i Hr) as (He & Hlen & Hsum & _).
  destruct (decompose_first i divpow Hd Hi) as [Hf1 Hf2].
  assert (H0 : 0 <= nth 0 (decompose i) 0) by (apply He; lia).
  unfold build_lines.
  destruct (Z.gtb_spec (divpow - nth 0 (decompose i) 0) 8) as [Hbig|Hsmall].
  - (* the result is always zero *)
    cbn [app]. unfold result. cbn [run step regA].
    symmetry. apply Z.div_small. split; [nia|].
    pose proof (sum_below_tail_lt (decompose i) 0 He ltac:(lia)) as Ht.
    cbn [sum_below] in Ht. rewrite Hsum in Ht.
    assert (Hle : 2 ^ (nth 0 (decompose i) 0 + 9) <= 2 ^ divpow)
      by (apply pow2_le; lia).
    rewrite Z.pow_add_r in Hle by lia. change (2 ^ 9) with 512 in Hle.
    pose proof (pow2_pos _ H0). nia.
  - assert (Hne : decompose i <> []).
    { destruct (decompose i); [simpl in Hlen; lia | discriminate]. }
    destruct (prune_stable (decompose i) Hne) as (Hp & _).
    rewrite tail_lines_result; auto; try lia.
    rewrite (pruned_quotient (decompose i) (prune (decompose i)) divpow a);
      auto; try lia.
    + rewrite Hsum. reflexivity.
    + apply prune_negligible; assumption.
Qed.

(** ** The number of lines *)

Lemma srla_count_app (l1 l2 : list asmLines) :
  srla_count (l1 ++ l2) = (srla_count l1 + srla_count l2)%nat.
Proof. unfold srla_count. rewrite filter_app, length_app. reflexivity. Qed.

Lemma srla_count_repeat (n : nat) : srla_count (repeat _srl_a n) = n.
Proof. induction n as [|n IH]; [reflexivity|]. unfold srla_count in *. simpl. lia. Qed.

Lemma srla_count_cons (x : asmLines) (l : list asmLines) :
  srla_count (x :: l) = ((if is_srl_a x then 1 else 0) + srla_count l)%nat.
Proof. unfold srla_count. simpl. destruct (is_srl_a x); reflexivity. Qed.

(** The optimizer adds a line only where it replaces three or four
    [srl a]: three times the number of lines grows by at most the number of
    [srl a]. *)
Lemma optimize_length_aux (n : nat) :
  forall l, (length l <= n)%nat ->
    (3 * length (optimize l) <= 3 * length l + srla_count l)%nat.
Proof.
  induction n as [|n IH]; intros l Hlen.
  { destruct l; [simpl; lia | simpl in Hlen; lia]. }
  destruct l as [|x tl]; [simpl; lia|].
  cbn [length] in Hlen.
  assert (Hcopy : (3 * length (x :: optimize tl)
                   <= 3 * length (x :: tl) + srla_count (x :: tl))%nat).
  { specialize (IH tl ltac:(lia)). rewrite srla_count_cons. cbn [length]. lia. }
  destruct (count_srla_split tl) as [Htl _].
  assert (Hrule : forall new k,
             count_srla tl = k ->
             (3 * length new
              <= 3 * (1 + k) + k + (if is_srl_a x then 1 else 0))%nat ->
             (3 * length (new ++ optimize (skipn k tl))
              <= 3 * length (x :: tl) + srla_count (x :: tl))%nat).
  { intros new k Hk Hnew. subst k.
    pose proof (IH (skipn (count_srla tl) tl)
                   ltac:(pose proof (skipn_length_le (count_srla tl) tl); lia))
      as IHr.
    rewrite length_app, srla_count_cons. cbn [length].
    rewrite Htl at 3 4. rewrite length_app, srla_count_app.
    rewrite repeat_length, srla_count_repeat. lia. }
  destruct x.
  all: try (rewrite optimize_other by discriminate; exact Hcopy).
  - rewrite optimize_rra.
    destruct (count_srla tl) as [|[|[|[|[|[|[|[|k]]]]]]]] eqn:Hc;
      try exact Hcopy; (apply Hrule; [reflexivity | simpl; lia]).
  - rewrite optimize_srl_a.
    destruct (count_srla tl) as [|[|[|[|[|[|[|[|k]]]]]]]] eqn:Hc;
      try exact Hcopy; (apply Hrule; [reflexivity | simpl; lia]).
Qed.

Lemma optimize_length (l : list asmLines) :
  (3 * length (optimize l) <= 3 * length l + srla_count l)%nat.
Proof. apply (optimize_length_aux (length l)). lia. Qed.

Lemma terms_lines_succ (exps : list Z) (numpowers j : nat) :
  terms_lines exps numpowers (S (S j))
  = ((if (S j =? numpowers - 1)%nat then _srl_a else _rra)
       :: repeat _srl_a (Z.to_nat (nth j exps 0 - nth (S j) exps 0 - 1))
       ++ [_add_b])
    ++ terms_lines exps numpowers (S j).
Proof. reflexivity. Qed.

Lemma terms_lines_length (exps : list Z) (numpowers c : nat) :
  exponents exps -> (1 <= c <= length exps)%nat ->
  Z.of_nat (length (terms_lines exps numpowers c))
  = nth 0 exps 0 - nth (c - 1) exps 0 + Z.of_nat c - 1.
Proof.
  intros He Hc. induction c as [|j IH]; [lia|].
  destruct j as [|j].
  - simpl. lia.
  - rewrite terms_lines_succ, length_app, Nat2Z.inj_add, IH by lia.
    cbn [length]. rewrite length_app, repeat_length. cbn [length].
    destruct He as [_ Hd]. specialize (Hd j ltac:(lia)).
    replace (S j - 1)%nat with j by lia.
    replace (S (S j) - 1)%nat with (S j) by lia. lia.
Qed.

Lemma terms_lines_srla_count (exps : list Z) (numpowers c : nat) :
  exponents exps -> (1 <= c <= length exps)%nat -> (c <= numpowers)%nat ->
  Z.of_nat (srla_count (terms_lines exps numpowers c))
  = nth 0 exps 0 - nth (c - 1) exps 0 - (Z.of_nat c - 1)
    + (if (2 <=? c)%nat && (c =? numpowers)%nat then 1 else 0).
Proof.
  intros He Hc Hn. induction c as [|j IH]; [lia|].
  destruct j as [|j].
  - simpl. lia.
  - rewrite terms_lines_succ, srla_count_app, Nat2Z.inj_add, IH by lia.
    rewrite srla_count_cons, srla_count_app, srla_count_repeat.
    change (srla_count [_add_b]) with 0%nat.
    destruct He as [_ Hd]. specialize (Hd j ltac:(lia)).
    replace (S j - 1)%nat with j by lia.
    replace (S (S j) - 1)%nat with (S j) by lia.
    replace (S j =? numpowers)%nat with false
      by (symmetry; apply Nat.eqb_neq; lia).
    rewrite andb_false_r. cbn [Nat.leb andb].
    destruct (Nat.eqb_spec (S j) (numpowers - 1)) as [E|E];
      destruct (Nat.eqb_spec (S (S j)) numpowers) as [E'|E'];
      cbn [is_srl_a]; lia.
Qed.

(** At most 49 lines before optimization, and the count that bounds the
    optimized sequence. *)
Lemma build_lines_length (i divpow : Z) :
  0 <= divpow <= MAXPOWER2 -> 1 <= i <= 2 ^ divpow ->
  (length (build_lines i divpow) <= 49)%nat
  /\ (3 * length (build_lines i divpow) + srla_count (build_lines i divpow)
      <= 148)%nat.
Proof.
  intros Hd Hi.
  assert (Hr : 1 <= i < 2 ^ (MAXPOWER2 + 1)).
  { split; [lia|]. apply Z.le_lt_trans with (2 ^ divpow); [lia|].
    apply Z.pow_lt_mono_r; lia. }
  destruct (decompose_exponents i Hr) as (He & Hlen & Hsum & Hmax).
  destruct (decompose_first i divpow Hd Hi) as [Hf1 Hf2].
  assert (H0 : 0 <= nth 0 (decompose i) 0) by (apply He; lia).
  unfold build_lines.
  destruct (Z.gtb_spec (divpow - nth 0 (decompose i) 0) 8) as [Hbig|Hsmall].
  { unfold srla_count. cbn [app length filter is_srl_a]. lia. }
  assert (Hne : decompose i <> []).
  { destruct (decompose i); [simpl in Hlen; lia | discriminate]. }
  destruct (prune_stable (decompose i) Hne) as (Hp & _).
  set (exps := decompose i) in *. set (n := prune exps) in *.
  unfold tail_lines.
  rewrite !length_app, !srla_count_app, !repeat_length, !srla_count_repeat.
  pose proof (terms_lines_length exps n n He ltac:(lia)) as HL.
  pose proof (terms_lines_srla_count exps n n He ltac:(lia) ltac:(lia)) as HC.
  rewrite Nat.eqb_refl, andb_true_r in HC.
  pose proof (exponents_le exps 0 (n - 1) He ltac:(lia) ltac:(lia)) as Hle.
  assert (Hl0 : 0 <= nth (n - 1) exps 0) by (apply He; lia).
  unfold MAXPOWER2 in *.
  destruct (Nat.eq_dec n 1) as [E|E].
  - rewrite E in *. cbn [Nat.ltb Nat.leb Nat.eqb negb length] in *.
    change (1 - 1)%nat with 0%nat in *.
    change (srla_count [_ret]) with 0%nat.
    change (srla_count []) with 0%nat.
    destruct (divpow =? nth 0 exps 0); cbn [negb length];
      change (srla_count [_srl_a]) with 1%nat;
      change (srla_count []) with 0%nat; lia.
  - replace (1 <? n)%nat with true by (symmetry; apply Nat.ltb_lt; lia).
    replace (n =? 1)%nat with false by (symmetry; apply Nat.eqb_neq; lia).
    replace (2 <=? n)%nat with true in HC by (symmetry; apply Nat.leb_le; lia).
    cbn [negb length].
    change (srla_count [_ret]) with 0%nat.
    change (srla_count [_ld_ba]) with 0%nat.
    change (srla_count [_rra]) with 0%nat.
    specialize (Hf2 ltac:(lia)). lia.
Qed.

Lemma build_lines_optimize_length (i divpow : Z) :
  0 <= divpow <= MAXPOWER2 -> 1 <= i <= 2 ^ divpow ->
  (length (optimize (build_lines i divpow)) <= 49)%nat.
Proof.
  intros Hd Hi. destruct (build_lines_length i divpow Hd Hi) as [_ H].
  pose proof (optimize_length (build_lines i divpow)). lia.
Qed.

(** ** The built sequence and the carry *)





(** ** One call of [generateCode] *)

Lemma buildCode_ok (i divpow : Z) (g : globals) :
  (numResultLines g + length (build_lines i divpow) <= CAPACITY)%nat ->
  buildCode i divpow g
  = Some (build_numpowers i divpow,
          set_resultLines (resultLines g ++ build_lines i divpow) g).
Proof.
  intro H. rewrite buildCode_lines. unfold bind.
  rewrite addLines_ok by assumption. reflexivity.
Qed.

Lemma generateCode_ok (num : Q) (i div divpow : Z) (g : globals) :
  resultLines g = [] ->
  (length (build_lines i divpow) <= CAPACITY)%nat ->
  (length (generated i divpow) <= CAPACITY)%nat ->
  generateCode num i div divpow g
  = Some (tt, mkGlobals (generated i divpow) (generated i divpow)
                        (r_size (routine_of num i div divpow))
                        (r_speed (routine_of num i div divpow))
                        (stdout g ++ [routine_of num i div divpow])).
Proof.
  intros Hg Hb Ho. unfold generateCode, bind.
  rewrite buildCode_ok by (unfold numResultLines; rewrite Hg; simpl; lia).
  rewrite Hg. cbn [app].
  rewrite optimizeCode_ok by exact Ho.
  cbn [resultLines set_resultLines sizeResult speedResult stdout resultLinesTemp].
  unfold measureCode. cbn [resultLines].
  fold (generated i divpow).
  destruct (measure_loop (generated i divpow) 0 0) as [size speed] eqn:Hm.
  unfold printRoutine, print, routine_of, registers_of.
  cbn [resultLines set_measure sizeResult speedResult stdout resultLinesTemp].
  rewrite Hm. reflexivity.
Qed.

(** Within the supported range [generateCode] stays inside both buffers. *)
Lemma generateCode_in_range (num : Q) (i div divpow : Z) (g : globals) :
  0 <= divpow <= MAXPOWER2 -> 1 <= i <= 2 ^ divpow ->
  resultLines g = [] ->
  generateCode num i div divpow g
  = Some (tt, mkGlobals (generated i divpow) (generated i divpow)
                        (r_size (routine_of num i div divpow))
                        (r_speed (routine_of num i div divpow))
                        (stdout g ++ [routine_of num i div divpow])).
Proof.
  intros Hd Hi Hg. apply generateCode_ok; [assumption| |].
  - destruct (build_lines_length i divpow Hd Hi) as [H _].
    unfold CAPACITY. lia.
  - pose proof (build_lines_optimize_length i divpow Hd Hi).
    unfold generated, CAPACITY. lia.
Qed.

(** ** The approximation search *)

Lemma bind_unit_ret (m : M unit) (g : globals) :
  bind m (fun _ => ret tt) g = m g.
Proof. unfold bind, ret. destruct (m g) as [[[] g']|]; reflexivity. Qed.

Lemma test_loop_spec (i value div : Z) (n : nat) :
  forall j0,
    test_loop n j0 i value div = true
    <-> (forall j, j0 <= j < j0 + Z.of_nat n ->
                   (j * 1000) / (i * 1000) = (value * j) / div).
Proof.
  induction n as [|n IH]; intro j0; cbn [test_loop].
  - split; [intros _ j Hj; lia | reflexivity].
  - destruct (Z.eqb_spec ((j0 * 1000) / (i * 1000)) ((value * j0) / div))
      as [E|E]; cbn [negb].
    + rewrite IH. split; intros H j Hj.
      * destruct (Z.eq_dec j j0) as [->|Hne]; [exact E | apply H; lia].
      * apply H. lia.
    + split; [discriminate|]. intro H. exfalso. apply E, H. lia.
Qed.

Lemma test_approximation_spec (d value div : Z) :
  0 < d ->
  test_approximation d value div = true <-> passes d value div.
Proof.
  intro Hd. unfold test_approximation, passes. rewrite test_loop_spec.
  split; intros H j Hj.
  - rewrite <- (H j) by lia. symmetry. apply Z.div_mul_cancel_r; lia.
  - rewrite <- (H j) by lia. apply Z.div_mul_cancel_r; lia.
Qed.

Lemma Qfloor_cancel_1000 (i : Q) (j : Z) :
  (0 < i)%Q ->
  Qfloor (inject_Z (j * 1000) / (i * inject_Z 1000)) = Qfloor (inject_Z j / i).
Proof.
  intro Hi. apply Qfloor_comp. rewrite inject_Z_mult. field.
  intro E. rewrite E in Hi. apply (Qlt_irrefl 0). exact Hi.
Qed.

Lemma test_loop_exact_spec (i : Q) (value div : Z) (n : nat) :
  forall j0,
    test_loop_exact n j0 i value div = true
    <-> (forall j, j0 <= j < j0 + Z.of_nat n ->
                   Qfloor (inject_Z (j * 1000) / (i * inject_Z 1000))
                   = (value * j) / div).
Proof.
  induction n as [|n IH]; intro j0; cbn [test_loop_exact].
  - split; [intros _ j Hj; lia | reflexivity].
  - destruct (Z.eqb_spec
                (Qfloor (inject_Z (j0 * 1000) / (i * inject_Z 1000)))
                ((value * j0) / div)) as [E|E]; cbn [negb].
    + rewrite IH. split; intros H j Hj.
      * destruct (Z.eq_dec j j0) as [->|Hne]; [exact E | apply H; lia].
      * apply H. lia.
    + split; [discriminate|]. intro H. exfalso. apply E, H. lia.
Qed.

Lemma correct_exact_spec (i : Q) (k : Z) :
  (0 < i)%Q ->
  correct_exact i k = true
  <-> passes_exact i (value_exact i k) (Z.shiftl 1 k).
Proof.
  intro Hi. unfold correct_exact, passes_exact. rewrite test_loop_exact_spec.
  split; intros H j Hj.
  - rewrite <- (H j) by lia. symmetry. apply Qfloor_cancel_1000. exact Hi.
  - rewrite <- (H j) by lia. apply Qfloor_cancel_1000. exact Hi.
Qed.

Section SearchLoop.

Variable i : Q.
Variable value_at : Z -> Z.
Variable correct_at : Z -> bool.

Lemma search_loop_end (fuel : nat) (k : Z) (g : globals) :
  MAXPOWER2 < k -> search_loop i value_at correct_at fuel k g = Some (tt, g).
Proof.
  intro Hk. destruct fuel as [|fuel]; [reflexivity|].
  cbn [search_loop]. destruct (Z.leb_spec k MAXPOWER2); [lia | reflexivity].
Qed.

Lemma search_loop_miss (fuel : nat) (k : Z) (g : globals) :
  k <= MAXPOWER2 -> is_div i k = false -> correct_at k = false ->
  search_loop i value_at correct_at (S fuel) k g
  = search_loop i value_at correct_at fuel (k + 1) g.
Proof.
  intros Hk Hd Hc. cbn [search_loop]. unfold is_div in Hd.
  destruct (Z.leb_spec k MAXPOWER2); [|lia].
  rewrite Hd, Hc. reflexivity.
Qed.

Lemma search_loop_correct (fuel : nat) (k : Z) (g : globals) :
  k <= MAXPOWER2 -> is_div i k = false -> correct_at k = true ->
  search_loop i value_at correct_at (S fuel) k g
  = generateCode i (value_at k) 0 k g.
Proof.
  intros Hk Hd Hc. cbn [search_loop]. unfold is_div in Hd.
  destruct (Z.leb_spec k MAXPOWER2); [|lia].
  rewrite Hd, Hc. rewrite bind_ret_l, bind_assoc.
  rewrite <- (bind_unit_ret (generateCode i (value_at k) 0 k) g).
  apply bind_ext; [reflexivity|].
  intros [] g'. rewrite bind_ret_l.
  apply search_loop_end. unfold MAXPOWER2. lia.
Qed.

Lemma search_loop_div (fuel : nat) (k : Z) (g : globals) :
  k <= MAXPOWER2 -> is_div i k = true -> correct_at k = false ->
  search_loop i value_at correct_at (S fuel) k g
  = generateCode (inject_Z (Z.shiftl 1 k)) 1 0 k g.
Proof.
  intros Hk Hd Hc. cbn [search_loop]. unfold is_div in Hd.
  destruct (Z.leb_spec k MAXPOWER2); [|lia].
  rewrite Hd, Hc. rewrite bind_assoc.
  rewrite <- (bind_unit_ret (generateCode _ 1 0 k) g).
  apply bind_ext; [reflexivity|].
  intros [] g'. rewrite !bind_ret_l.
  apply search_loop_end. unfold MAXPOWER2. lia.
Qed.

(** The turns before the first candidate that is taken do nothing. *)
Lemma search_loop_first (n : nat) :
  forall fuel k0 (g : globals),
    0 <= k0 -> k0 + Z.of_nat n <= MAXPOWER2 + 1 ->
    (forall k, k0 <= k < k0 + Z.of_nat n ->
               is_div i k = false /\ correct_at k = false) ->
    search_loop i value_at correct_at (n + fuel) k0 g
    = search_loop i value_at correct_at fuel (k0 + Z.of_nat n) g.
Proof.
  induction n as [|n IH]; intros fuel k0 g H0 Hn Hmiss.
  - cbn [Nat.add]. rewrite Z.add_0_r. reflexivity.
  - cbn [Nat.add]. destruct (Hmiss k0 ltac:(lia)) as [Hd Hc].
    rewrite search_loop_miss by (auto; lia).
    rewrite IH by (try lia; intros; apply Hmiss; lia).
    f_equal. lia.
Qed.

(** No candidate up to [MAXPOWER2] is taken: the search does nothing. *)
Lemma search_nothing (g : globals) :
  (forall k, 0 <= k <= MAXPOWER2 ->
             is_div i k = false /\ correct_at k = false) ->
  search i value_at correct_at g = Some (tt, g).
Proof.
  intro H. unfold search.
  change (Z.to_nat (MAXPOWER2 + 1)) with (25 + 0)%nat.
  rewrite search_loop_first; try (unfold MAXPOWER2; simpl; lia).
  - reflexivity.
  - intros k Hk. apply H. unfold MAXPOWER2. lia.
Qed.

(** The first candidate that passes is the one the code is built from. *)
Lemma search_first_correct (k : Z) (g : globals) :
  0 <= k <= MAXPOWER2 ->
  (forall k', 0 <= k' < k -> is_div i k' = false /\ correct_at k' = false) ->
  is_div i k = false -> correct_at k = true ->
  search i value_at correct_at g = generateCode i (value_at k) 0 k g.
Proof.
  intros Hk Hmiss Hd Hc. unfold search.
  change (Z.to_nat (MAXPOWER2 + 1)) with 25%nat.
  replace 25%nat with (Z.to_nat k + S (24 - Z.to_nat k))%nat
    by (unfold MAXPOWER2 in Hk; lia).
  rewrite search_loop_first; try (unfold MAXPOWER2 in *; lia).
  - rewrite Z2Nat.id, Z.add_0_l by lia.
    apply search_loop_correct; auto; lia.
  - intros k' Hk'. apply Hmiss. lia.
Qed.

Lemma search_first_div (k : Z) (g : globals) :
  0 <= k <= MAXPOWER2 ->
  (forall k', 0 <= k' < k -> is_div i k' = false /\ correct_at k' = false) ->
  is_div i k = true -> correct_at k = false ->
  search i value_at correct_at g
  = generateCode (inject_Z (Z.shiftl 1 k)) 1 0 k g.
Proof.
  intros Hk Hmiss Hd Hc. unfold search.
  change (Z.to_nat (MAXPOWER2 + 1)) with 25%nat.
  replace 25%nat with (Z.to_nat k + S (24 - Z.to_nat k))%nat
    by (unfold MAXPOWER2 in Hk; lia).
  rewrite search_loop_first; try (unfold MAXPOWER2 in *; lia).
  - rewrite Z2Nat.id, Z.add_0_l by lia.
    apply search_loop_div; auto; lia.
  - intros k' Hk'. apply Hmiss. lia.
Qed.

End SearchLoop.

Lemma forall_candidates (P : Z -> bool) :
  forallb P candidates = true ->
  forall k, 0 <= k <= MAXPOWER2 -> P k = true.
Proof.
  intros H k Hk. rewrite forallb_forall in H. apply H.
  unfold candidates. apply in_map_iff. exists (Z.to_nat k).
  unfold MAXPOWER2 in Hk. split; [lia|]. apply in_seq. lia.
Qed.

Lemma is_div_inject_Z (d k : Z) :
  is_div (inject_Z d) k = (d =? Z.shiftl 1 k).
Proof.
  unfold is_div, Qeq_bool, inject_Z. cbn [Qnum Qden].
  rewrite !Z.mul_1_r. reflexivity.
Qed.

(** What [generateCode] leaves on the standard output. *)
Lemma addLines_stdout (l : list asmLines) (g g' : globals) (u : unit) :
  addLines l g = Some (u, g') -> stdout g' = stdout g.
Proof.
  revert g. induction l as [|x l IH]; intros g H; simpl in *.
  - inversion H; reflexivity.
  - unfold bind, addLine in H.
    destruct (numResultLines g <? CAPACITY)%nat; [|discriminate].
    apply IH in H. exact H.
Qed.

Lemma addLinesTemp_stdout (l : list asmLines) (g g' : globals) (u : unit) :
  addLinesTemp l g = Some (u, g') -> stdout g' = stdout g.
Proof.
  revert g. induction l as [|x l IH]; intros g H; simpl in *.
  - inversion H; reflexivity.
  - unfold bind, addLineTemp in H.
    destruct (numResultLinesTemp g <? CAPACITY)%nat; [|discriminate].
    apply IH in H. exact H.
Qed.

Lemma generateCode_stdout (num : Q) (i div divpow : Z) (g g' : globals)
      (u : unit) :
  generateCode num i div divpow g = Some (u, g') ->
  length (stdout g') = S (length (stdout g)).
Proof.
  unfold generateCode, bind. rewrite buildCode_lines. unfold bind.
  destruct (addLines (build_lines i divpow) g) as [[[] g1]|] eqn:H1;
    [|discriminate].
  apply addLines_stdout in H1. cbn [ret].
  unfold optimizeCode. rewrite optimize_loop_lines.
  destruct (addLinesTemp _ (set_resultLinesTemp [] g1)) as [[[] g2]|] eqn:H2;
    [|discriminate].
  apply addLinesTemp_stdout in H2.
  destruct (addLines (resultLinesTemp g2) (set_resultLines [] g2))
    as [[[] g3]|] eqn:H3; [|discriminate].
  apply addLines_stdout in H3.
  unfold measureCode.
  destruct (measure_loop (resultLines g3) 0 0) as [size speed].
  unfold printRoutine, print. intro H. inversion H; subst g'.
  cbn [stdout set_measure]. rewrite length_app. cbn [length].
  cbn [stdout set_resultLines set_resultLinesTemp] in *.
  rewrite H3, H2, H1. lia.
Qed.

Section SearchFound.

Variable i : Q.
Variable value_at : Z -> Z.
Variable correct_at : Z -> bool.

(** A candidate that is taken leaves a routine on the output. *)
Lemma search_loop_found (fuel : nat) :
  forall k (g g' : globals) (u : unit),
    0 <= k ->
    search_loop i value_at correct_at fuel k g = Some (u, g') ->
    (exists k', k <= k' <= MAXPOWER2 /\ k' < k + Z.of_nat fuel
                /\ (is_div i k' = true \/ correct_at k' = true)) ->
    (length (stdout g) < length (stdout g'))%nat.
Proof.
  induction fuel as [|fuel IH]; intros k g g' u H0 Hrun (k' & Hk' & Hf & Hhit).
  { lia. }
  cbn [search_loop] in Hrun.
  destruct (Z.leb_spec k MAXPOWER2) as [Hle|Hgt]; [|lia].
  fold (is_div i k) in Hrun.
  destruct (is_div i k) eqn:Hd; destruct (correct_at k) eqn:Hc.
  - (* both calls *)
    unfold bind in Hrun.
    destruct (generateCode (inject_Z (Z.shiftl 1 k)) 1 0 k g)
      as [[[] g1]|] eqn:G1; [|discriminate].
    cbn [ret] in Hrun.
    destruct (generateCode i (value_at k) 0 200 g1)
      as [[[] g2]|] eqn:G2; [|discriminate].
    cbn [ret] in Hrun.
    rewrite search_loop_end in Hrun by (unfold MAXPOWER2; lia).
    inversion Hrun; subst g'.
    apply generateCode_stdout in G1. apply generateCode_stdout in G2. lia.
  - unfold bind in Hrun.
    destruct (generateCode (inject_Z (Z.shiftl 1 k)) 1 0 k g)
      as [[[] g1]|] eqn:G1; [|discriminate].
    cbn [ret] in Hrun.
    rewrite search_loop_end in Hrun by (unfold MAXPOWER2; lia).
    inversion Hrun; subst g'.
    apply generateCode_stdout in G1. lia.
  - unfold bind in Hrun. cbn [ret] in Hrun.
    destruct (generateCode i (value_at k) 0 k g)
      as [[[] g1]|] eqn:G1; [|discriminate].
    cbn [ret] in Hrun.
    rewrite search_loop_end in Hrun by (unfold MAXPOWER2; lia).
    inversion Hrun; subst g'.
    apply generateCode_stdout in G1. lia.
  - unfold bind in Hrun. cbn [ret] in Hrun.
    apply (IH (k + 1) g g' u); [lia | exact Hrun |].
    exists k'. destruct (Z.eq_dec k' k) as [->|Hne].
    + destruct Hhit; congruence.
    + repeat split; try lia. exact Hhit.
Qed.

End SearchFound.

(** A divisor that is none of the powers of two, with multipliers in the
    supported range: the search stays inside the buffers. *)
Lemma search_loop_in_range (i : Q) (value_at : Z -> Z)
      (correct_at : Z -> bool) :
  (forall k, 0 <= k <= MAXPOWER2 -> is_div i k = false) ->
  (forall k, 0 <= k <= MAXPOWER2 -> correct_at k = true ->
             1 <= value_at k <= 2 ^ k) ->
  forall fuel k g,
    0 <= k -> resultLines g = [] ->
    exists g', search_loop i value_at correct_at fuel k g = Some (tt, g').
Proof.
  intros Hdiv Hval. induction fuel as [|fuel IH]; intros k g Hk Hg.
  { exists g. reflexivity. }
  destruct (Z_le_gt_dec k MAXPOWER2) as [Hle|Hgt].
  - destruct (correct_at k) eqn:Hc.
    + rewrite search_loop_correct by (auto; apply Hdiv; lia).
      rewrite generateCode_in_range; [eexists; reflexivity | lia | | exact Hg].
      apply Hval; [lia | exact Hc].
    + rewrite search_loop_miss by (auto; apply Hdiv; lia).
      apply IH; [lia | exact Hg].
  - exists g. apply search_loop_end. lia.
Qed.

(** ** Integer divisors: the search always finds an approximation *)

Lemma findApproximation_upto_256 :
  forallb (fun d => prints_one (findApproximation d initial))
          (map Z.of_nat (seq 1 256)) = true.
Proof. vm_compute. reflexivity. Qed.

Lemma findApproximation_above_256 (d : Z) (g : globals) :
  256 < d ->
  findApproximation d g = generateCode (inject_Z d) 1 0 8 g.
Proof.
  intro Hd. unfold findApproximation.
  assert (Hv : Z.shiftl 1 8 / d + 1 = 1).
  { change (Z.shiftl 1 8) with 256. rewrite Z.div_small by lia. reflexivity. }
  replace (generateCode (inject_Z d) 1 0 8 g)
    with (generateCode (inject_Z d) (Z.shiftl 1 8 / d + 1) 0 8 g)
    by (rewrite Hv; reflexivity).
  apply (search_first_correct (inject_Z d)
           (fun k => Z.shiftl 1 k / d + 1)
           (fun k => test_approximation d (Z.shiftl 1 k / d + 1)
                                        (Z.shiftl 1 k)) 8).
  - unfold MAXPOWER2. lia.
  - intros k Hk. rewrite is_div_inject_Z.
    assert (Hp : 0 < Z.shiftl 1 k <= 128).
    { rewrite Z.shiftl_1_l. split; [apply pow2_pos; lia|].
      change 128 with (2 ^ 7). apply pow2_le. lia. }
    split; [apply Z.eqb_neq; lia|].
    destruct (test_approximation d (Z.shiftl 1 k / d + 1) (Z.shiftl 1 k))
      eqn:Ht; [|reflexivity].
    apply test_approximation_spec in Ht; [|lia].
    specialize (Ht (Z.shiftl 1 k) ltac:(lia)).
    rewrite (Z.div_small (Z.shiftl 1 k) d) in Ht by lia.
    rewrite Z.add_0_l, Z.mul_1_l, Z.div_same in Ht by lia. discriminate.
  - rewrite is_div_inject_Z. apply Z.eqb_neq. change (Z.shiftl 1 8) with 256. lia.
  - apply test_approximation_spec; [lia|]. rewrite Hv.
    change (Z.shiftl 1 8) with 256.
    intros j Hj. rewrite Z.mul_1_l, !Z.div_small by lia. reflexivity.
Qed.

(** For every integer divisor from 1 on, the search prints exactly one
    routine. *)
Lemma findApproximation_total (d : Z) :
  1 <= d ->
  exists g, findApproximation d initial = Some (tt, g)
            /\ length (stdout g) = 1%nat.
Proof.
  intro Hd. destruct (Z_le_gt_dec d 256) as [Hs|Hb].
  - pose proof findApproximation_upto_256 as H.
    rewrite forallb_forall in H.
    assert (Hin : In d (map Z.of_nat (seq 1 256))).
    { apply in_map_iff. exists (Z.to_nat d). split; [lia|]. apply in_seq. lia. }
    specialize (H d Hin). unfold prints_one in H.
    destruct (findApproximation d initial) as [[[] g]|]; [|discriminate].
    exists g. split; [reflexivity|]. apply Nat.eqb_eq. exact H.
  - rewrite findApproximation_above_256 by lia.
    rewrite generateCode_in_range;
      [| unfold MAXPOWER2; lia | simpl; lia | reflexivity].
    eexists. split; reflexivity.
Qed.

Lemma isPowerOf2_loop_spec (n : nat) :
  forall k num,
    isPowerOf2_loop n k num <> 0 ->
    k + 1 <= isPowerOf2_loop n k num <= k + Z.of_nat n
    /\ num = Z.shiftl 1 (isPowerOf2_loop n k num - 1).
Proof.
  induction n as [|n IH]; intros k num H; cbn [isPowerOf2_loop] in *.
  - congruence.
  - destruct (Z.eqb_spec num (Z.shiftl 1 k)) as [E|E].
    + split; [lia|]. rewrite E. f_equal. lia.
    + destruct (IH (k + 1) num H) as [H1 H2]. split; [lia | exact H2].
Qed.

Lemma isPowerOf2_spec (num : Z) :
  isPowerOf2 num <> 0 ->
  0 <= isPowerOf2 num - 1 <= MAXPOWER2 /\ num = 2 ^ (isPowerOf2 num - 1).
Proof.
  intro H. unfold isPowerOf2 in *.
  destruct (isPowerOf2_loop_spec _ 0 num H) as [H1 H2].
  change (Z.of_nat (Z.to_nat (MAXPOWER2 + 1))) with 25 in H1.
  split; [|rewrite <- Z.shiftl_1_l; exact H2].
  generalize dependent (isPowerOf2_loop (Z.to_nat (MAXPOWER2 + 1)) 0 num).
  unfold MAXPOWER2. intros. lia.
Qed.

(** ** Rounding to single precision *)

Lemma two_pow_Qpower (e : Z) : (two_pow e == 2 ^ e)%Q.
Proof.
  unfold two_pow. destruct (Z.leb_spec 0 e) as [H|H]; rewrite Z.shiftl_1_l.
  - rewrite (Zpower_Qpower 2 e H). reflexivity.
  - assert (E : (2 ^ e == / inject_Z (2 ^ (- e)))%Q).
    { rewrite (Zpower_Qpower 2 (- e)) by lia. rewrite <- Qpower_opp.
      rewrite Z.opp_involutive. reflexivity. }
    rewrite E.
    assert (P : 0 < 2 ^ (- e)) by (apply Z.pow_pos_nonneg; lia).
    destruct (2 ^ (- e)) as [|p|p]; try lia. reflexivity.
Qed.

Lemma two_pow_pos (e : Z) : (0 < two_pow e)%Q.
Proof. rewrite two_pow_Qpower. apply Qpower_0_lt. reflexivity. Qed.

Lemma two_pow_plus (a b : Z) : (two_pow (a + b) == two_pow a * two_pow b)%Q.
Proof. rewrite !two_pow_Qpower. apply Qpower_plus. discriminate. Qed.

Lemma two_pow_le (a b : Z) : a <= b -> (two_pow a <= two_pow b)%Q.
Proof.
  intro H. rewrite !two_pow_Qpower.
  apply Qpower_le_compat_l; [exact H | discriminate].
Qed.

Lemma two_pow_lt (a b : Z) : a < b -> (two_pow a < two_pow b)%Q.
Proof.
  intro H. rewrite !two_pow_Qpower.
  apply Qpower_lt_compat_l; [exact H | reflexivity].
Qed.

Lemma two_pow_lt_inv (a b : Z) : (two_pow a < two_pow b)%Q -> a < b.
Proof.
  intro H. destruct (Z_lt_ge_dec a b) as [L|G]; [exact L|].
  exfalso. apply (Qlt_not_le _ _ H). apply two_pow_le. lia.
Qed.

Lemma two_pow_Z (e : Z) : 0 <= e -> (two_pow e == inject_Z (2 ^ e))%Q.
Proof.
  intro H. rewrite two_pow_Qpower, Zpower_Qpower by exact H. reflexivity.
Qed.

Lemma two_pow_quotient (a b : Z) :
  0 <= a -> 0 <= b ->
  (two_pow (a - b) == inject_Z (2 ^ a) / inject_Z (2 ^ b))%Q.
Proof.
  intros Ha Hb. rewrite two_pow_Qpower, Qpower_minus by discriminate.
  rewrite !Zpower_Qpower by assumption. reflexivity.
Qed.

Lemma two_pow_shift (e n : Z) :
  0 <= n -> (two_pow (e + n) == inject_Z (2 ^ n) * two_pow e)%Q.
Proof.
  intro H. rewrite two_pow_plus, (two_pow_Z n) by exact H. apply Qmult_comm.
Qed.

Lemma ilog2_spec (x : Q) :
  (0 < x)%Q -> (two_pow (ilog2 x) <= x < two_pow (ilog2 x + 1))%Q.
Proof.
  intro Hx. destruct x as [n d]. unfold ilog2. cbn [Qnum Qden].
  assert (Hn : 0 < n) by (unfold Qlt in Hx; cbn in Hx; lia).
  pose proof (Z.log2_spec n Hn) as [A1 A2].
  pose proof (Z.log2_spec (Z.pos d) (Pos2Z.is_pos d)) as [B1 B2].
  pose proof (Z.log2_nonneg n) as A0.
  pose proof (Z.log2_nonneg (Z.pos d)) as B0.
  set (a := Z.log2 n) in *. set (b := Z.log2 (Z.pos d)) in *.
  assert (Pa : 0 < 2 ^ a) by (apply Z.pow_pos_nonneg; lia).
  assert (Pb : 0 < 2 ^ b) by (apply Z.pow_pos_nonneg; lia).
  assert (Sa : 2 ^ Z.succ a = 2 * 2 ^ a) by (apply Z.pow_succ_r; lia).
  assert (Sb : 2 ^ Z.succ b = 2 * 2 ^ b) by (apply Z.pow_succ_r; lia).
  assert (Up : (n # d < two_pow (a - b + 1))%Q).
  { replace (a - b + 1) with (Z.succ a - b) by lia.
    rewrite two_pow_quotient by lia.
    apply Qlt_shift_div_l.
    - rewrite <- (Zlt_Qlt 0). exact Pb.
    - unfold Qlt, Qmult, inject_Z. cbn [Qnum Qden].
      rewrite Pos.mul_1_r, !Z.mul_1_r. nia. }
  assert (Lo : (two_pow (a - b - 1) < n # d)%Q).
  { replace (a - b - 1) with (a - Z.succ b) by lia.
    rewrite two_pow_quotient by lia.
    apply Qlt_shift_div_r.
    - rewrite <- (Zlt_Qlt 0). lia.
    - unfold Qlt, Qmult, inject_Z. cbn [Qnum Qden].
      rewrite !Z.mul_1_r. nia. }
  destruct (Qle_bool (two_pow (a - b)) (n # d)) eqn:E.
  - apply Qle_bool_iff in E. split; [exact E | exact Up].
  - split; [apply Qlt_le_weak; exact Lo|].
    replace (a - b - 1 + 1) with (a - b) by lia.
    apply Qnot_le_lt. intro H. apply Qle_bool_iff in H. congruence.
Qed.

Lemma ilog2_le (x y : Q) : (0 < x)%Q -> (x <= y)%Q -> ilog2 x <= ilog2 y.
Proof.
  intros Hx Hxy.
  destruct (ilog2_spec x Hx) as [X1 _].
  destruct (ilog2_spec y (Qlt_le_trans _ _ _ Hx Hxy)) as [_ Y2].
  assert (H : (two_pow (ilog2 x) < two_pow (ilog2 y + 1))%Q).
  { eapply Qle_lt_trans; [exact X1|]. eapply Qle_lt_trans; eassumption. }
  apply two_pow_lt_inv in H. lia.
Qed.

Lemma Qeq_le (x y : Q) : (x == y)%Q -> (x <= y)%Q.
Proof. intro E. apply Qle_lteq. right. exact E. Qed.

Lemma rne_bounds (x : Q) : Qfloor x <= rne x <= Qfloor x + 1.
Proof.
  unfold rne. destruct (x - inject_Z (Qfloor x) ?= 1 # 2)%Q;
    try destruct (Z.even (Qfloor x)); lia.
Qed.

Lemma rne_comp (x y : Q) : (x == y)%Q -> rne x = rne y.
Proof.
  intro E. unfold rne. rewrite (Qfloor_comp _ _ E).
  assert (E' : (x - inject_Z (Qfloor y) == y - inject_Z (Qfloor y))%Q)
    by (rewrite E; reflexivity).
  rewrite (Qcompare_comp _ _ E' (1 # 2) (1 # 2) (Qeq_refl _)). reflexivity.
Qed.

Lemma rne_Z (z : Z) : rne (inject_Z z) = z.
Proof.
  unfold rne. rewrite Qfloor_Z.
  assert (E : (inject_Z z - inject_Z z ?= 1 # 2)%Q = Lt).
  { apply Qlt_alt. setoid_replace (inject_Z z - inject_Z z)%Q with 0%Q by ring.
    reflexivity. }
  rewrite E. reflexivity.
Qed.

Lemma rne_le (x y : Q) : (x <= y)%Q -> rne x <= rne y.
Proof.
  intro H. pose proof (Qfloor_resp_le _ _ H) as F.
  pose proof (rne_bounds x) as Bx. pose proof (rne_bounds y) as By.
  destruct (Z.eq_dec (Qfloor x) (Qfloor y)) as [E|N]; [|lia].
  unfold rne in *. rewrite E in *.
  assert (R : (x - inject_Z (Qfloor y) <= y - inject_Z (Qfloor y))%Q).
  { apply Qplus_le_l with (z := inject_Z (Qfloor y)).
    ring_simplify. exact H. }
  destruct (Qcompare_spec (x - inject_Z (Qfloor y)) (1 # 2)) as [X|X|X];
    destruct (Qcompare_spec (y - inject_Z (Qfloor y)) (1 # 2)) as [Y|Y|Y];
    try destruct (Z.even (Qfloor y)); try lia; exfalso;
    apply (Qlt_irrefl (1 # 2));
    first
      [ solve [eapply Qle_lt_trans; [|exact Y];
               eapply Qle_trans; [|exact R]; apply Qeq_le; symmetry; exact X]
      | solve [eapply Qlt_le_trans; [exact X|];
               eapply Qle_trans; [exact R|]; apply Qeq_le; exact Y]
      | solve [eapply Qlt_trans; [exact X|];
               eapply Qle_lt_trans; [exact R | exact Y]] ].
Qed.

Lemma rne_nonneg (x : Q) : (0 <= x)%Q -> 0 <= rne x.
Proof.
  intro H. pose proof (rne_bounds x). pose proof (Qfloor_resp_le _ _ H) as F.
  change (Qfloor 0) with 0 in F. lia.
Qed.

Lemma nearest_expo (x : Q) :
  nearest x = (inject_Z (rne (x / two_pow (expo x))) * two_pow (expo x))%Q.
Proof. reflexivity. Qed.

Lemma nearest_nonneg (x : Q) : (0 <= x)%Q -> (0 <= nearest x)%Q.
Proof.
  intro H. rewrite nearest_expo. apply Qmult_le_0_compat.
  - rewrite <- (Zle_Qle 0). apply rne_nonneg.
    apply Qle_shift_div_l; [apply two_pow_pos|]. rewrite Qmult_0_l. exact H.
  - apply Qlt_le_weak, two_pow_pos.
Qed.

Lemma nearest_le (x y : Q) :
  (0 < x)%Q -> (x <= y)%Q -> (nearest x <= nearest y)%Q.
Proof.
  intros Hx Hxy. rewrite !nearest_expo.
  assert (Hy : (0 < y)%Q) by (eapply Qlt_le_trans; eassumption).
  pose proof (ilog2_le x y Hx Hxy) as L.
  destruct (ilog2_spec x Hx) as [_ X2]. destruct (ilog2_spec y Hy) as [Y1 _].
  destruct (Z.eq_dec (expo x) (expo y)) as [E|N].
  - rewrite E. apply Qmult_le_compat_r; [|apply Qlt_le_weak, two_pow_pos].
    rewrite <- Zle_Qle. apply rne_le.
    apply Qmult_le_compat_r; [exact Hxy|].
    apply Qlt_le_weak, Qinv_lt_0_compat, two_pow_pos.
  - assert (Lt : expo x < expo y) by (unfold expo in *; lia).
    apply Qle_trans with (two_pow (expo x + 24)).
    + rewrite two_pow_shift by lia.
      apply Qmult_le_compat_r; [|apply Qlt_le_weak, two_pow_pos].
      rewrite <- Zle_Qle.
      rewrite <- (rne_Z (2 ^ 24)). apply rne_le.
      rewrite <- (two_pow_Z 24) by lia.
      apply Qle_shift_div_r; [apply two_pow_pos|].
      rewrite <- two_pow_plus. apply Qlt_le_weak.
      eapply Qlt_le_trans; [exact X2|]. apply two_pow_le. unfold expo. lia.
    + apply Qle_trans with (two_pow (expo y + 23)).
      * apply two_pow_le. lia.
      * rewrite two_pow_shift by lia.
        apply Qmult_le_compat_r; [|apply Qlt_le_weak, two_pow_pos].
        rewrite <- Zle_Qle.
        rewrite <- (rne_Z (2 ^ 23)). apply rne_le.
        rewrite <- (two_pow_Z 23) by lia.
        apply Qle_shift_div_l; [apply two_pow_pos|].
        rewrite <- two_pow_plus.
        eapply Qle_trans; [|exact Y1]. apply two_pow_le. unfold expo in *. lia.
Qed.

Lemma round_pos_le (x c c' : Q) :
  (0 < x)%Q -> (x <= c)%Q -> round_pos c = Fin c' ->
  exists r, round_pos x = Fin r /\ (0 <= r <= c')%Q.
Proof.
  unfold round_pos. intros Hx Hxc Hc.
  assert (Hn : (nearest (Qred x) <= nearest (Qred c))%Q).
  { apply nearest_le; [rewrite Qred_correct; exact Hx|].
    apply Qred_le. exact Hxc. }
  assert (H0 : (0 <= nearest (Qred x))%Q).
  { apply nearest_nonneg. rewrite Qred_correct. apply Qlt_le_weak. exact Hx. }
  revert Hc Hn H0.
  generalize (nearest (Qred c)) as nc. generalize (nearest (Qred x)) as nx.
  intros nx nc Hc Hn H0.
  destruct (Qle_bool (two_pow 128) nc) eqn:Ec; [discriminate|].
  assert (E : c' = Qred nc) by congruence. subst c'.
  destruct (Qle_bool (two_pow 128) nx) eqn:Ex.
  - apply Qle_bool_iff in Ex. exfalso.
    assert (T : Qle_bool (two_pow 128) nc = true)
      by (apply Qle_bool_iff; eapply Qle_trans; eassumption).
    congruence.
  - exists (Qred nx). split; [reflexivity|]. rewrite !Qred_correct.
    split; assumption.
Qed.

Lemma round_pos_ge (x c c' : Q) :
  (0 < c)%Q -> (c <= x)%Q -> round_pos c = Fin c' -> above (round_pos x) c'.
Proof.
  unfold round_pos. intros Hc Hcx E.
  assert (Hn : (nearest (Qred c) <= nearest (Qred x))%Q).
  { apply nearest_le; [rewrite Qred_correct; exact Hc|].
    apply Qred_le. exact Hcx. }
  revert E Hn.
  generalize (nearest (Qred c)) as nc. generalize (nearest (Qred x)) as nx.
  intros nx nc E Hn.
  destruct (Qle_bool (two_pow 128) nc); [discriminate|].
  assert (E' : c' = Qred nc) by congruence. subst c'.
  destruct (Qle_bool (two_pow 128) nx); cbn [above]; [reflexivity|].
  rewrite !Qred_correct. exact Hn.
Qed.

Lemma round_pos_nonneg (x r : Q) :
  (0 < x)%Q -> round_pos x = Fin r -> (0 <= r)%Q.
Proof.
  intros Hx E. destruct (round_pos_le x x r Hx (Qle_refl x) E) as (r' & E' & H).
  rewrite E in E'. injection E' as <-. apply H.
Qed.

Lemma round32_pos (x : Q) : (0 < x)%Q -> round32 x = round_pos x.
Proof.
  intro H. unfold round32. destruct (Qcompare_spec x 0) as [E|L|G].
  - exfalso. apply (Qlt_not_eq _ _ H). symmetry. exact E.
  - exfalso. apply (Qlt_irrefl 0). eapply Qlt_trans; eassumption.
  - reflexivity.
Qed.

Lemma round32_zero (x : Q) : (x == 0)%Q -> round32 x = Fin 0.
Proof.
  intro H. unfold round32. destruct (Qcompare_spec x 0) as [E|L|G].
  - reflexivity.
  - exfalso. exact (Qlt_not_eq _ _ L H).
  - exfalso. apply (Qlt_not_eq _ _ G). symmetry. exact H.
Qed.

Lemma round32_neg (x : Q) : (x < 0)%Q -> round32 x = fl_opp (round_pos (- x)).
Proof.
  intro H. unfold round32. destruct (Qcompare_spec x 0) as [E|L|G].
  - exfalso. exact (Qlt_not_eq _ _ H E).
  - reflexivity.
  - exfalso. apply (Qlt_irrefl 0). eapply Qlt_trans; eassumption.
Qed.

Lemma round32_comp (x y : Q) : (x == y)%Q -> round32 x = round32 y.
Proof.
  intro E. unfold round32, round_pos.
  rewrite (Qcompare_comp _ _ E 0%Q 0%Q (Qeq_refl 0%Q)).
  rewrite (Qred_complete _ _ E).
  assert (E' : (- x == - y)%Q) by (rewrite E; reflexivity).
  rewrite (Qred_complete _ _ E'). reflexivity.
Qed.

Lemma round32_nonneg (x r : Q) :
  (0 <= x)%Q -> round32 x = Fin r -> (0 <= r)%Q.
Proof.
  intros Hx E. destruct (Qle_lt_or_eq _ _ Hx) as [P|Z].
  - rewrite round32_pos in E by exact P. exact (round_pos_nonneg x r P E).
  - rewrite round32_zero in E by (symmetry; exact Z).
    injection E as <-. apply Qle_refl.
Qed.

Lemma round32_le (x c c' : Q) :
  (0 <= x)%Q -> (x <= c)%Q -> round32 c = Fin c' ->
  exists r, round32 x = Fin r /\ (0 <= r <= c')%Q.
Proof.
  intros Hx Hxc Hc.
  assert (Hc0 : (0 <= c')%Q)
    by (apply (round32_nonneg c); [eapply Qle_trans; eassumption | exact Hc]).
  destruct (Qle_lt_or_eq _ _ Hx) as [P|Z].
  - rewrite round32_pos by exact P.
    rewrite round32_pos in Hc by (eapply Qlt_le_trans; eassumption).
    exact (round_pos_le x c c' P Hxc Hc).
  - rewrite round32_zero by (symmetry; exact Z).
    exists 0%Q. split; [reflexivity|]. split; [apply Qle_refl | exact Hc0].
Qed.

Lemma round32_ge (x c c' : Q) :
  (0 <= c)%Q -> (c <= x)%Q -> round32 c = Fin c' -> above (round32 x) c'.
Proof.
  intros Hc Hcx E.
  destruct (Qle_lt_or_eq _ _ Hc) as [P|Z].
  - rewrite round32_pos by (eapply Qlt_le_trans; eassumption).
    rewrite round32_pos in E by exact P.
    exact (round_pos_ge x c c' P Hcx E).
  - rewrite round32_zero in E by (symmetry; exact Z). injection E as <-.
    assert (Hx : (0 <= x)%Q) by (eapply Qle_trans; eassumption).
    destruct (round32 x) as [|s|r] eqn:R; cbn [above].
    + destruct (Qle_lt_or_eq _ _ Hx) as [P|Z'].
      * rewrite round32_pos in R by exact P. unfold round_pos in R.
        destruct (Qle_bool _ _); discriminate.
      * rewrite round32_zero in R by (symmetry; exact Z'). discriminate.
    + destruct (Qle_lt_or_eq _ _ Hx) as [P|Z'].
      * rewrite round32_pos in R by exact P. unfold round_pos in R.
        destruct (Qle_bool _ _); [injection R as <-; reflexivity | discriminate].
      * rewrite round32_zero in R by (symmetry; exact Z'). discriminate.
    + exact (round32_nonneg x r Hx R).
Qed.

(** The float of a number below [-1] is below [-1]. *)
Lemma round32_below (x : Q) :
  (x <= - (1))%Q ->
  match round32 x with
  | Fin r => (r <= - (1))%Q
  | Inf s => s = true
  | NaN => False
  end.
Proof.
  intro H. assert (N : (x < 0)%Q) by (eapply Qle_lt_trans; [exact H | reflexivity]).
  rewrite round32_neg by exact N.
  assert (P : (1 <= - x)%Q).
  { apply Qopp_le_compat in H. rewrite Qopp_involutive in H. exact H. }
  pose proof (round_pos_ge (- x) 1 1 ltac:(reflexivity) P
                           ltac:(vm_compute; reflexivity)) as A.
  destruct (round_pos (- x)) as [|s|r]; cbn [above fl_opp] in *.
  - exact A.
  - rewrite A. reflexivity.
  - apply Qopp_le_compat in A. exact A.
Qed.

(** Numbers with 24 binary digits are floats. *)
Lemma nearest_exact (x : Q) (m e : Z) :
  (x == inject_Z m * two_pow e)%Q -> 0 < m < 2 ^ 24 -> -149 <= e ->
  (nearest x == x)%Q.
Proof.
  intros Ex Hm He.
  assert (Pe : (0 < two_pow e)%Q) by apply two_pow_pos.
  assert (Px : (0 < x)%Q).
  { rewrite Ex. apply Qmult_lt_0_compat; [|exact Pe].
    rewrite <- (Zlt_Qlt 0). lia. }
  destruct (ilog2_spec x Px) as [L1 L2].
  assert (Hl : ilog2 x - 23 <= e).
  { assert (U : (x < two_pow (e + 24))%Q).
    { rewrite Ex, two_pow_shift by lia.
      apply Qmult_lt_compat_r; [exact Pe|]. rewrite <- Zlt_Qlt. lia. }
    assert (T : (two_pow (ilog2 x) < two_pow (e + 24))%Q)
      by (eapply Qle_lt_trans; eassumption).
    apply two_pow_lt_inv in T. lia. }
  rewrite nearest_expo.
  assert (Hle : expo x <= e) by (unfold expo; lia).
  set (e' := expo x) in *.
  assert (Pe' : (0 < two_pow e')%Q) by apply two_pow_pos.
  assert (E2 : (two_pow e == inject_Z (2 ^ (e - e')) * two_pow e')%Q).
  { rewrite <- two_pow_shift by lia. replace (e' + (e - e')) with e by lia.
    reflexivity. }
  assert (Q : (x / two_pow e' == inject_Z (m * 2 ^ (e - e')))%Q).
  { rewrite Ex, E2, inject_Z_mult. field.
    intro Z. rewrite Z in Pe'. exact (Qlt_irrefl 0 Pe'). }
  rewrite (rne_comp _ _ Q), rne_Z.
  rewrite Ex, E2, inject_Z_mult. ring.
Qed.

Lemma round_pos_exact (x : Q) (m e : Z) :
  (x == inject_Z m * two_pow e)%Q -> 0 < m < 2 ^ 24 -> -149 <= e <= 104 ->
  round_pos x = Fin (Qred x).
Proof.
  intros Ex Hm He. unfold round_pos.
  assert (Er : (Qred x == inject_Z m * two_pow e)%Q)
    by (rewrite Qred_correct; exact Ex).
  pose proof (nearest_exact (Qred x) m e Er Hm ltac:(lia)) as N.
  assert (B : Qle_bool (two_pow 128) (nearest (Qred x)) = false).
  { destruct (Qle_bool (two_pow 128) (nearest (Qred x))) eqn:B; [|reflexivity].
    apply Qle_bool_iff in B. exfalso. rewrite N, Er in B.
    apply (Qle_not_lt _ _ B).
    apply Qlt_le_trans with (two_pow (e + 24)).
    - rewrite two_pow_shift by lia.
      apply Qmult_lt_compat_r; [apply two_pow_pos|]. rewrite <- Zlt_Qlt. lia.
    - apply two_pow_le. lia. }
  rewrite B. f_equal. apply Qred_complete. rewrite N. apply Qred_correct.
Qed.

Lemma round32_exact (x : Q) (m e : Z) :
  (x == inject_Z m * two_pow e)%Q -> 0 < m < 2 ^ 24 -> -149 <= e <= 104 ->
  round32 x = Fin (Qred x).
Proof.
  intros Ex Hm He. rewrite round32_pos; [exact (round_pos_exact x m e Ex Hm He)|].
  rewrite Ex. apply Qmult_lt_0_compat; [|apply two_pow_pos].
  rewrite <- (Zlt_Qlt 0). lia.
Qed.

Lemma Qred_inject_Z (n : Z) : Qred (inject_Z n) = inject_Z n.
Proof.
  unfold Qred, inject_Z. cbn [Qnum Qden].
  pose proof (Z.ggcd_gcd n 1) as G. pose proof (Z.ggcd_correct_divisors n 1) as D.
  destruct (Z.ggcd n 1) as [g [aa bb]]. cbn [fst snd] in *.
  rewrite Z.gcd_1_r in G. subst g. destruct D as [D1 D2].
  rewrite Z.mul_1_l in D1, D2. subst aa bb. reflexivity.
Qed.

(** An [int] below [2^24] is a float. *)
Lemma of_int_exact (n : Z) : 0 <= n < 2 ^ 24 -> of_int n = Fin (inject_Z n).
Proof.
  intro H. unfold of_int. destruct (Z.eq_dec n 0) as [->|N]; [reflexivity|].
  rewrite (round32_exact (inject_Z n) n 0); [| |lia|lia].
  - rewrite Qred_inject_Z. reflexivity.
  - change (two_pow 0) with 1%Q. rewrite Qmult_1_r. reflexivity.
Qed.

(** So is the same with eight binary digits after the point. *)
Lemma round32_exact_256 (x : Q) (n : Z) :
  (x == inject_Z n / inject_Z 256)%Q -> 0 < n < 2 ^ 24 ->
  round32 x = Fin (Qred x).
Proof.
  intros Ex Hn. apply (round32_exact x n (-8)); [|exact Hn|lia].
  rewrite Ex. reflexivity.
Qed.

(** ** The search in single precision *)

Lemma in_candidates (k : Z) : 0 <= k <= MAXPOWER2 -> In k candidates.
Proof.
  intro Hk. unfold candidates. apply in_map_iff. exists (Z.to_nat k).
  unfold MAXPOWER2 in Hk. split; [lia|]. apply in_seq. lia.
Qed.

Ltac each_candidate H :=
  apply in_candidates in H; cbv [candidates] in H; simpl in H;
  repeat (destruct H as [<-|H]); [..|contradiction].

Lemma of_int_pow2 (k : Z) :
  0 <= k <= MAXPOWER2 -> of_int (Z.shiftl 1 k) = Fin (inject_Z (2 ^ k)).
Proof. intro Hk. each_candidate Hk; vm_compute; reflexivity. Qed.

Lemma round32_pow2_succ (k : Z) :
  0 <= k <= MAXPOWER2 ->
  exists c', round32 (inject_Z (2 ^ k) + 1) = Fin c'
             /\ (c' <= inject_Z (2 ^ k + 1))%Q.
Proof.
  intro Hk.
  each_candidate Hk; eexists; (split; [vm_compute; reflexivity|]);
    vm_compute; discriminate.
Qed.

Lemma Qeq_bool_false_pos (x : Q) : (0 < x)%Q -> Qeq_bool x 0 = false.
Proof.
  intro H. destruct (Qeq_bool x 0) eqn:E; [|reflexivity].
  apply Qeq_bool_iff in E. exfalso. apply (Qlt_not_eq _ _ H). symmetry. exact E.
Qed.

Lemma to_int_nonneg (s : Q) (n : Z) :
  (0 <= s)%Q -> (s <= inject_Z n)%Q -> n <= INT_MAX ->
  to_int (Fin s) = Qfloor s /\ 0 <= Qfloor s <= n.
Proof.
  intros H0 Hn Hm. unfold to_int.
  assert (E : Qle_bool 0 s = true) by (apply Qle_bool_iff; exact H0).
  rewrite E.
  pose proof (Qfloor_resp_le _ _ H0) as F0. change (Qfloor 0) with 0 in F0.
  pose proof (Qfloor_resp_le _ _ Hn) as Fn. rewrite Qfloor_Z in Fn.
  assert (R : (INT_MIN <=? Qfloor s) && (Qfloor s <=? INT_MAX) = true).
  { apply andb_true_iff. unfold INT_MIN, INT_MAX in *. split; apply Z.leb_le; lia. }
  rewrite R. split; [reflexivity | lia].
Qed.

Lemma to_int_floor (s : Q) :
  (0 <= s)%Q -> Qfloor s <= INT_MAX -> to_int (Fin s) = Qfloor s.
Proof.
  intros H0 Hm. unfold to_int.
  assert (E : Qle_bool 0 s = true) by (apply Qle_bool_iff; exact H0).
  rewrite E.
  pose proof (Qfloor_resp_le _ _ H0) as F0. change (Qfloor 0) with 0 in F0.
  assert (R : (INT_MIN <=? Qfloor s) && (Qfloor s <=? INT_MAX) = true).
  { apply andb_true_iff. unfold INT_MIN, INT_MAX in *. split; apply Z.leb_le; lia. }
  rewrite R. reflexivity.
Qed.

(** The multiplier of a candidate, for a divisor from 1 on. *)
Lemma value_float_range (x : Q) (k : Z) :
  (1 <= x)%Q -> 0 <= k <= MAXPOWER2 ->
  1 <= value_float (Fin x) k <= 2 ^ k + 1.
Proof.
  intros Hx Hk. unfold value_float. rewrite of_int_pow2 by exact Hk.
  replace (of_int 1) with (Fin 1) by (vm_compute; reflexivity).
  assert (Px : (0 < x)%Q) by (eapply Qlt_le_trans; [|exact Hx]; reflexivity).
  assert (Pk : 0 < 2 ^ k) by (apply pow2_pos; lia).
  assert (Pq : (0 < inject_Z (2 ^ k))%Q) by (rewrite <- (Zlt_Qlt 0); exact Pk).
  unfold fl_div. rewrite (Qeq_bool_false_pos x Px).
  destruct (round32_le (inject_Z (2 ^ k) / x) (inject_Z (2 ^ k))
                       (inject_Z (2 ^ k))) as (r & Er & Hr0 & Hr1).
  - apply Qle_shift_div_l; [exact Px|]. rewrite Qmult_0_l.
    apply Qlt_le_weak. exact Pq.
  - apply Qle_shift_div_r; [exact Px|].
    rewrite <- (Qmult_1_r (inject_Z (2 ^ k))) at 1.
    apply Qmult_le_l; [exact Pq | exact Hx].
  - pose proof (of_int_pow2 k Hk) as E. rewrite Z.shiftl_1_l in E. exact E.
  - rewrite Er. cbn [fl_add].
    destruct (round32_pow2_succ k Hk) as (c' & Ec & Hc).
    destruct (round32_le (r + 1) (inject_Z (2 ^ k) + 1) c')
      as (s & Es & Hs0 & Hs1).
    + apply Qle_trans with (0 + 1)%Q; [discriminate|].
      apply Qplus_le_l. exact Hr0.
    + apply Qplus_le_l. exact Hr1.
    + exact Ec.
    + pose proof (round32_ge (r + 1) 1 1 ltac:(discriminate)) as A.
      rewrite Es in A. cbn [above] in A.
      assert (H1 : (1 <= s)%Q).
      { apply A; [|vm_compute; reflexivity].
        apply Qle_trans with (0 + 1)%Q; [discriminate|].
        apply Qplus_le_l. exact Hr0. }
      rewrite Es.
      destruct (to_int_nonneg s (2 ^ k + 1) Hs0) as [T B].
      * eapply Qle_trans; eassumption.
      * pose proof (pow2_le k 24 ltac:(unfold MAXPOWER2 in Hk; lia)).
        unfold INT_MAX. change (2 ^ 24) with 16777216 in *.
        change (2 ^ 31) with 2147483648. lia.
      * rewrite T. pose proof (Qfloor_resp_le _ _ H1) as F.
        change (Qfloor 1) with 1 in F. lia.
Qed.

(** Equal divisors give the same results. *)
Lemma negative_comp (x y : Q) : (x == y)%Q -> negative x = negative y.
Proof.
  intro E. unfold negative. rewrite (Qleb_comp 0%Q 0%Q (Qeq_refl 0%Q) _ _ E).
  reflexivity.
Qed.

Lemma fl_div_comp (a : float) (x y : Q) :
  (x == y)%Q -> fl_div a (Fin x) = fl_div a (Fin y).
Proof.
  intro E. destruct a as [|s|z]; cbn [fl_div]; [reflexivity| |].
  - rewrite (negative_comp _ _ E). reflexivity.
  - rewrite (Qeqb_comp _ _ E 0%Q 0%Q (Qeq_refl 0%Q)).
    destruct (Qeq_bool y 0); [reflexivity|].
    apply round32_comp. rewrite E. reflexivity.
Qed.

Lemma fl_mul_comp (b : float) (x y : Q) :
  (x == y)%Q -> fl_mul (Fin x) b = fl_mul (Fin y) b.
Proof.
  intro E. destruct b as [|s|z]; cbn [fl_mul]; [reflexivity| |].
  - rewrite (Qeqb_comp _ _ E 0%Q 0%Q (Qeq_refl 0%Q)), (negative_comp _ _ E).
    reflexivity.
  - apply round32_comp. rewrite E. reflexivity.
Qed.

Lemma value_float_comp (x y : Q) (k : Z) :
  (x == y)%Q -> value_float (Fin x) k = value_float (Fin y) k.
Proof. intro E. unfold value_float. rewrite (fl_div_comp _ _ _ E). reflexivity. Qed.

Lemma test_loop_float_comp (x y : Q) (value div : Z) (n : nat) :
  (x == y)%Q ->
  forall j, test_loop_float n j (Fin x) value div
            = test_loop_float n j (Fin y) value div.
Proof.
  intro E. induction n as [|n IH]; intro j; cbn [test_loop_float].
  - reflexivity.
  - rewrite (fl_mul_comp _ _ _ E), IH. reflexivity.
Qed.

Lemma correct_float_comp (x y : Q) (k : Z) :
  (x == y)%Q -> correct_float (Fin x) k = correct_float (Fin y) k.
Proof.
  intro E. unfold correct_float.
  rewrite (value_float_comp _ _ _ E). apply test_loop_float_comp. exact E.
Qed.


(** The test of a candidate, as a property. *)
Lemma test_loop_float_spec (i : float) (value div : Z) (n : nat) :
  forall j0,
    test_loop_float n j0 i value div = true
    <-> (forall j, j0 <= j < j0 + Z.of_nat n ->
           to_int (fl_div (of_int (j * 1000)) (fl_mul i (of_int 1000)))
           = Z.quot (wrap (value * j)) div).
Proof.
  induction n as [|n IH]; intro j0; cbn [test_loop_float].
  - split; [intros _ j Hj; lia | reflexivity].
  - destruct (Z.eqb_spec
                (to_int (fl_div (of_int (j0 * 1000)) (fl_mul i (of_int 1000))))
                (Z.quot (wrap (value * j0)) div)) as [E|E]; cbn [negb].
    + rewrite IH. split; intros H j Hj.
      * destruct (Z.eq_dec j j0) as [->|Hne]; [exact E | apply H; lia].
      * apply H. lia.
    + split; [discriminate|]. intro H. exfalso. apply E, H. lia.
Qed.

Lemma correct_float_spec (i : float) (k : Z) :
  correct_float i k = true
  <-> passes_float i (value_float i k) (Z.shiftl 1 k).
Proof.
  unfold correct_float, passes_float. rewrite test_loop_float_spec.
  split; intros H j Hj; apply H; lia.
Qed.


Lemma wrap_small (n : Z) : 0 <= n < 2 ^ 31 -> wrap n = n.
Proof.
  intro H. unfold wrap. change (2 ^ 31) with 2147483648 in *.
  change (2 ^ 32) with 4294967296. rewrite Z.mod_small by lia. lia.
Qed.


(** ** Divisors from 257 on in single precision *)

Lemma value_float_above_256 (x : Q) (k : Z) :
  (257 <= x)%Q -> 0 <= k <= 8 -> value_float (Fin x) k = 1.
Proof.
  intros Hx Hk. unfold value_float. rewrite Z.shiftl_1_l.
  assert (Pk : 0 < 2 ^ k <= 2 ^ 8).
  { split; [apply pow2_pos; lia | apply pow2_le; lia]. }
  change (2 ^ 8) with 256 in Pk.
  rewrite (of_int_exact (2 ^ k)) by (change (2 ^ 24) with 16777216; lia).
  rewrite (of_int_exact 1) by (change (2 ^ 24) with 16777216; lia).
  assert (Px : (0 < x)%Q) by (eapply Qlt_le_trans; [|exact Hx]; reflexivity).
  cbn [fl_div]. rewrite (Qeq_bool_false_pos x Px).
  destruct (round32_le (inject_Z (2 ^ k) / x) (511 # 512) (511 # 512))
    as (r & Er & Hr0 & Hr1).
  - apply Qle_shift_div_l; [exact Px|]. rewrite Qmult_0_l.
    rewrite <- (Zle_Qle 0). lia.
  - apply Qle_shift_div_r; [exact Px|].
    apply Qle_trans with (inject_Z 256); [rewrite <- Zle_Qle; lia|].
    apply Qle_trans with ((511 # 512) * 257)%Q; [discriminate|].
    apply Qmult_le_l; [reflexivity | exact Hx].
  - vm_compute. reflexivity.
  - rewrite Er. cbn [fl_add].
    destruct (round32_le (r + inject_Z 1) (1023 # 512) (1023 # 512))
      as (s & Es & Hs0 & Hs1).
    + apply Qle_trans with (0 + inject_Z 1)%Q; [discriminate|].
      apply Qplus_le_l. exact Hr0.
    + apply Qle_trans with ((511 # 512) + inject_Z 1)%Q; [|discriminate].
      apply Qplus_le_l. exact Hr1.
    + vm_compute. reflexivity.
    + pose proof (round32_ge (r + inject_Z 1) 1 1 ltac:(discriminate)) as A.
      rewrite Es in A. cbn [above] in A.
      assert (H1 : (1 <= s)%Q).
      { apply A; [|vm_compute; reflexivity].
        apply Qle_trans with (0 + inject_Z 1)%Q; [discriminate|].
        apply Qplus_le_l. exact Hr0. }
      rewrite Es.
      pose proof (Qfloor_resp_le _ _ H1) as F1. change (Qfloor 1) with 1 in F1.
      pose proof (Qfloor_resp_le _ _ Hs1) as F2.
      change (Qfloor (1023 # 512)) with 1 in F2.
      rewrite to_int_floor; [lia | exact Hs0 |].
      unfold INT_MAX. change (2 ^ 31) with 2147483648. lia.
Qed.

Lemma quotient_float_above_256 (x : Q) (j : Z) :
  (257 <= x)%Q -> 0 <= j <= 255 ->
  to_int (fl_div (of_int (j * 1000)) (fl_mul (Fin x) (of_int 1000))) = 0.
Proof.
  intros Hx Hj.
  rewrite (of_int_exact (j * 1000)) by (change (2 ^ 24) with 16777216; lia).
  rewrite (of_int_exact 1000) by (change (2 ^ 24) with 16777216; lia).
  cbn [fl_mul].
  pose proof (round32_ge (x * inject_Z 1000) (inject_Z 257000)
                         (inject_Z 257000) ltac:(discriminate)) as A.
  assert (Pj : (0 <= inject_Z (j * 1000))%Q) by (rewrite <- (Zle_Qle 0); lia).
  destruct (round32 (x * inject_Z 1000)) as [|s|m]; cbn [above] in A.
  - exfalso. apply A; [|vm_compute; reflexivity].
    apply Qle_trans with (257 * inject_Z 1000)%Q; [discriminate|].
    apply Qmult_le_compat_r; [exact Hx | discriminate].
  - reflexivity.
  - assert (Hm : (inject_Z 257000 <= m)%Q).
    { apply A; [|vm_compute; reflexivity].
      apply Qle_trans with (257 * inject_Z 1000)%Q; [discriminate|].
      apply Qmult_le_compat_r; [exact Hx | discriminate]. }
    assert (Pm : (0 < m)%Q) by (eapply Qlt_le_trans; [|exact Hm]; reflexivity).
    cbn [fl_div]. rewrite (Qeq_bool_false_pos m Pm).
    destruct (round32_le (inject_Z (j * 1000) / m) (511 # 512) (511 # 512))
      as (r & Er & Hr0 & Hr1).
    + apply Qle_shift_div_l; [exact Pm|]. rewrite Qmult_0_l. exact Pj.
    + apply Qle_shift_div_r; [exact Pm|].
      apply Qle_trans with (inject_Z 255000); [rewrite <- Zle_Qle; lia|].
      apply Qle_trans with ((511 # 512) * inject_Z 257000)%Q; [discriminate|].
      apply Qmult_le_l; [reflexivity | exact Hm].
    + vm_compute. reflexivity.
    + rewrite Er.
      pose proof (Qfloor_resp_le _ _ Hr0) as F1. change (Qfloor 0) with 0 in F1.
      pose proof (Qfloor_resp_le _ _ Hr1) as F2.
      change (Qfloor (511 # 512)) with 0 in F2.
      rewrite to_int_floor; [lia | exact Hr0 |].
      unfold INT_MAX. change (2 ^ 31) with 2147483648. lia.
Qed.

Lemma correct_float_above_256 (x : Q) (k : Z) :
  (257 <= x)%Q -> 0 <= k <= 8 -> correct_float (Fin x) k = (k =? 8).
Proof.
  intros Hx Hk.
  assert (Pk : 0 < 2 ^ k <= 2 ^ 8).
  { split; [apply pow2_pos; lia | apply pow2_le; lia]. }
  change (2 ^ 8) with 256 in Pk.
  destruct (Z.eqb_spec k 8) as [->|N].
  - apply correct_float_spec. intros j Hj.
    rewrite quotient_float_above_256, value_float_above_256 by (assumption || lia).
    rewrite wrap_small by (change (2 ^ 31) with 2147483648; lia).
    change (Z.shiftl 1 8) with 256.
    rewrite Z.quot_div_nonneg, Z.div_small by lia. reflexivity.
  - destruct (correct_float (Fin x) k) eqn:C; [|reflexivity].
    apply correct_float_spec in C. exfalso.
    specialize (C (2 ^ k) ltac:(assert (2 ^ k <= 2 ^ 7) by (apply pow2_le; lia);
                                 change (2 ^ 7) with 128 in *; lia)).
    assert (B : 2 ^ k <= 2 ^ 7) by (apply pow2_le; lia).
    change (2 ^ 7) with 128 in B.
    rewrite quotient_float_above_256, value_float_above_256 in C
      by (assumption || lia).
    rewrite wrap_small in C by (change (2 ^ 31) with 2147483648; lia).
    rewrite Z.shiftl_1_l, Z.mul_1_l in C.
    rewrite Z.quot_div_nonneg, Z.div_same in C by lia. discriminate.
Qed.

Lemma is_div_above_256 (x : Q) (k : Z) :
  (257 <= x)%Q -> 0 <= k <= 8 -> is_div x k = false.
Proof.
  intros Hx Hk. unfold is_div.
  destruct (Qeq_bool x (inject_Z (Z.shiftl 1 k))) eqn:E; [|reflexivity].
  apply Qeq_bool_iff in E. exfalso. rewrite E, Z.shiftl_1_l in Hx.
  assert (B : 2 ^ k <= 2 ^ 8) by (apply pow2_le; lia).
  change (2 ^ 8) with 256 in B.
  change 257%Q with (inject_Z 257) in Hx. rewrite <- Zle_Qle in Hx. lia.
Qed.

(** From 257 on, every divisor gets the routine of 1/256. *)
Lemma findApproximation_float_above_256 (x : Q) (g : globals) :
  (257 <= x)%Q ->
  findApproximation_float (Fin x) g = generateCode x 1 0 8 g.
Proof.
  intro Hx. unfold findApproximation_float. cbn [number].
  rewrite <- (value_float_above_256 x 8 Hx ltac:(lia)).
  apply search_first_correct.
  - unfold MAXPOWER2. lia.
  - intros k Hk. split; [apply is_div_above_256; [exact Hx | lia]|].
    rewrite correct_float_above_256 by (assumption || lia).
    apply Z.eqb_neq. lia.
  - apply is_div_above_256; [exact Hx | lia].
  - rewrite correct_float_above_256 by (assumption || lia). reflexivity.
Qed.


(** ** The search inside the buffers *)

(** One more than the power of two still fits the buffers. *)
Lemma build_lines_pow2_succ (k : Z) :
  0 <= k <= MAXPOWER2 ->
  (length (build_lines (2 ^ k + 1) k) <= CAPACITY)%nat
  /\ (length (generated (2 ^ k + 1) k) <= CAPACITY)%nat.
Proof.
  intro Hk. each_candidate Hk; vm_compute; split; lia.
Qed.

Lemma generateCode_fits (num : Q) (i div divpow : Z) (g : globals) :
  0 <= divpow <= MAXPOWER2 -> 1 <= i <= 2 ^ divpow + 1 ->
  resultLines g = [] ->
  exists g', generateCode num i div divpow g = Some (tt, g').
Proof.
  intros Hd Hi Hg. destruct (Z.eq_dec i (2 ^ divpow + 1)) as [->|N].
  - destruct (build_lines_pow2_succ divpow Hd) as [B G].
    rewrite generateCode_ok by assumption. eexists. reflexivity.
  - rewrite generateCode_in_range by (try assumption; lia).
    eexists. reflexivity.
Qed.

Section SearchFits.

Variable i : Q.
Variable value_at : Z -> Z.
Variable correct_at : Z -> bool.

Hypothesis value_range :
  forall k, 0 <= k <= MAXPOWER2 -> correct_at k = true ->
            1 <= value_at k <= 2 ^ k + 1.

Hypothesis never_both :
  forall k, 0 <= k <= MAXPOWER2 -> is_div i k = true -> correct_at k = true ->
            exists k', 0 <= k' < k /\ correct_at k' = true.

Lemma search_loop_fits (fuel : nat) :
  forall k g,
    0 <= k -> resultLines g = [] ->
    (forall k', 0 <= k' < k -> correct_at k' = false) ->
    exists g', search_loop i value_at correct_at fuel k g = Some (tt, g').
Proof.
  induction fuel as [|fuel IH]; intros k g Hk Hg Hmiss.
  { exists g. reflexivity. }
  destruct (Z_le_gt_dec k MAXPOWER2) as [Hle|Hgt].
  2:{ exists g. apply search_loop_end. lia. }
  destruct (is_div i k) eqn:Hd; destruct (correct_at k) eqn:Hc.
  - destruct (never_both k ltac:(lia) Hd Hc) as (k' & Hk' & Hc').
    rewrite (Hmiss k' Hk') in Hc'. discriminate.
  - rewrite search_loop_div by assumption.
    apply generateCode_fits; [lia | | exact Hg].
    pose proof (pow2_pos k Hk). lia.
  - rewrite search_loop_correct by assumption.
    apply generateCode_fits; [lia | | exact Hg].
    apply value_range; [lia | exact Hc].
  - rewrite search_loop_miss by assumption.
    apply IH; [lia | exact Hg |].
    intros k' Hk'. destruct (Z.eq_dec k' k) as [->|N]; [exact Hc|].
    apply Hmiss. lia.
Qed.

Lemma search_fits (g : globals) :
  resultLines g = [] ->
  exists g', search i value_at correct_at g = Some (tt, g').
Proof.
  intro Hg. unfold search. apply search_loop_fits; [lia | exact Hg |].
  intros k' Hk'. lia.
Qed.

End SearchFits.

Lemma is_div_zero (k : Z) : 0 <= k <= MAXPOWER2 -> is_div 0 k = false.
Proof. intro Hk. each_candidate Hk; reflexivity. Qed.

Lemma correct_float_pow2 (k : Z) :
  0 <= k <= 8 -> correct_float (Fin (inject_Z (2 ^ k))) k = false.
Proof.
  intro Hk. assert (Hk' : 0 <= k <= MAXPOWER2) by (unfold MAXPOWER2; lia).
  each_candidate Hk'; try lia; vm_compute; reflexivity.
Qed.

Lemma correct_float_NaN (k : Z) :
  0 <= k <= MAXPOWER2 -> correct_float NaN k = false.
Proof. intro Hk. each_candidate Hk; vm_compute; reflexivity. Qed.

Lemma value_float_Inf (k : Z) :
  0 <= k <= MAXPOWER2 -> value_float (Inf false) k = 1.
Proof. intro Hk. each_candidate Hk; vm_compute; reflexivity. Qed.

Lemma findApproximation_float_fits (i : float) (g : globals) :
  searched i -> resultLines g = [] ->
  exists g', findApproximation_float i g = Some (tt, g').
Proof.
  intros Hi Hg. unfold findApproximation_float. apply search_fits; [| |exact Hg].
  - intros k Hk Hc. destruct i as [|s|x]; cbn [searched] in Hi.
    + rewrite correct_float_NaN in Hc by exact Hk. discriminate Hc.
    + subst s. rewrite value_float_Inf by exact Hk.
      pose proof (pow2_pos k ltac:(lia)). lia.
    + apply value_float_range; assumption.
  - intros k Hk Hd Hc. destruct i as [|s|x]; cbn [number] in Hd.
    + rewrite is_div_zero in Hd by exact Hk. discriminate Hd.
    + rewrite is_div_zero in Hd by exact Hk. discriminate Hd.
    + unfold is_div in Hd. apply Qeq_bool_iff in Hd.
      rewrite Z.shiftl_1_l in Hd.
      destruct (Z_le_gt_dec k 8) as [L|G].
      * rewrite (correct_float_comp _ _ _ Hd) in Hc.
        rewrite correct_float_pow2 in Hc by lia. discriminate.
      * exists 8. split; [lia|].
        rewrite correct_float_above_256; [reflexivity | | lia].
        rewrite Hd. change 257%Q with (inject_Z 257). rewrite <- Zle_Qle.
        assert (B : 2 ^ 9 <= 2 ^ k) by (apply pow2_le; lia).
        change (2 ^ 9) with 512 in B. lia.
Qed.


(** ** Integer divisors in single precision *)

(** A number between [q] and [q + 255/256] is rounded to one of them. *)
Lemma floor_round32 (x : Q) (q : Z) :
  0 <= q -> 256 * q + 255 < 2 ^ 24 ->
  (inject_Z q <= x)%Q -> (x <= inject_Z (256 * q + 255) / inject_Z 256)%Q ->
  exists r, round32 x = Fin r
            /\ (inject_Z q <= r)%Q
            /\ (r <= inject_Z (256 * q + 255) / inject_Z 256)%Q
            /\ Qfloor r = q.
Proof.
  intros Hq Hb Lo Up.
  assert (P0 : (0 <= inject_Z q)%Q) by (rewrite <- (Zle_Qle 0); exact Hq).
  destruct (round32_le x (inject_Z (256 * q + 255) / inject_Z 256)
                       (Qred (inject_Z (256 * q + 255) / inject_Z 256)))
    as (r & Er & Hr0 & Hr1).
  - eapply Qle_trans; eassumption.
  - exact Up.
  - apply (round32_exact_256 _ (256 * q + 255)); [reflexivity | lia].
  - rewrite Qred_correct in Hr1.
    pose proof (round32_ge x (inject_Z q) (inject_Z q) P0 Lo) as A.
    rewrite Er in A. cbn [above] in A.
    assert (Hr2 : (inject_Z q <= r)%Q).
    { apply A. apply (of_int_exact q). change (2 ^ 24) with 16777216 in *. lia. }
    exists r. repeat split; try assumption.
    pose proof (Qfloor_resp_le _ _ Hr2) as F1. rewrite Qfloor_Z in F1.
    pose proof (Qfloor_resp_le _ _ Hr1) as F2. rewrite <- Zdiv_Qdiv in F2.
    assert (D : (256 * q + 255) / 256 = q).
    { symmetry. apply (Z.div_unique _ 256 q 255); lia. }
    lia.
Qed.

(** The quotient of two integers, the divisor being at most 256. *)
Lemma quotient_bounds (a d : Z) :
  0 <= a -> 1 <= d <= 256 ->
  (inject_Z (a / d) <= inject_Z a / inject_Z d)%Q
  /\ (inject_Z a / inject_Z d
      <= inject_Z (256 * (a / d) + 255) / inject_Z 256)%Q.
Proof.
  intros Ha Hd.
  assert (Pd : (0 < inject_Z d)%Q) by (rewrite <- (Zlt_Qlt 0); lia).
  pose proof (Z.div_mod a d ltac:(lia)) as E.
  pose proof (Z.mod_pos_bound a d ltac:(lia)) as M.
  split.
  - apply Qle_shift_div_l; [exact Pd|].
    rewrite <- inject_Z_mult, <- Zle_Qle. nia.
  - apply Qle_shift_div_r; [exact Pd|].
    setoid_replace (inject_Z (256 * (a / d) + 255) / inject_Z 256 * inject_Z d)%Q
      with (inject_Z ((256 * (a / d) + 255) * d) / inject_Z 256)%Q
      by (rewrite inject_Z_mult; field; discriminate).
    apply Qle_shift_div_l; [reflexivity|].
    rewrite <- !inject_Z_mult, <- Zle_Qle. nia.
Qed.

Lemma quotient_float_integer (d j : Z) :
  1 <= d <= 256 -> 0 <= j <= 255 ->
  to_int (fl_div (of_int (j * 1000)) (fl_mul (Fin (inject_Z d)) (of_int 1000)))
  = j / d.
Proof.
  intros Hd Hj.
  rewrite (of_int_exact (j * 1000)) by (change (2 ^ 24) with 16777216; lia).
  rewrite (of_int_exact 1000) by (change (2 ^ 24) with 16777216; lia).
  cbn [fl_mul].
  rewrite (round32_comp _ (inject_Z (d * 1000)))
    by (rewrite inject_Z_mult; reflexivity).
  change (round32 (inject_Z (d * 1000))) with (of_int (d * 1000)).
  rewrite (of_int_exact (d * 1000)) by (change (2 ^ 24) with 16777216; lia).
  cbn [fl_div].
  assert (Pd : (0 < inject_Z (d * 1000))%Q) by (rewrite <- (Zlt_Qlt 0); lia).
  rewrite (Qeq_bool_false_pos _ Pd).
  assert (E : (inject_Z (j * 1000) / inject_Z (d * 1000)
               == inject_Z j / inject_Z d)%Q).
  { rewrite !inject_Z_mult. field. intro Z.
    assert (P : (0 < inject_Z d)%Q) by (rewrite <- (Zlt_Qlt 0); lia).
    rewrite Z in P. exact (Qlt_irrefl 0 P). }
  rewrite (round32_comp _ _ E).
  destruct (quotient_bounds j d ltac:(lia) Hd) as [Lo Up].
  assert (Hq : 0 <= j / d <= 255).
  { split; [apply Z.div_pos; lia|].
    apply Z.le_trans with (j / 1); [|rewrite Z.div_1_r; lia].
    apply Z.div_le_compat_l; lia. }
  destruct (floor_round32 _ (j / d) ltac:(lia)
              ltac:(change (2 ^ 24) with 16777216; lia) Lo Up)
    as (r & Er & R1 & R2 & F).
  rewrite Er. rewrite to_int_floor; [exact F | |].
  - eapply Qle_trans; [|exact R1]. rewrite <- (Zle_Qle 0). lia.
  - rewrite F. unfold INT_MAX. change (2 ^ 31) with 2147483648. lia.
Qed.

Lemma value_float_integer (d k : Z) :
  2 <= d <= 256 -> 0 <= k <= 16 ->
  value_float (Fin (inject_Z d)) k = Z.shiftl 1 k / d + 1.
Proof.
  intros Hd Hk. unfold value_float. rewrite Z.shiftl_1_l.
  assert (Pk : 0 < 2 ^ k <= 2 ^ 16).
  { split; [apply pow2_pos; lia | apply pow2_le; lia]. }
  change (2 ^ 16) with 65536 in Pk.
  rewrite (of_int_exact (2 ^ k)) by (change (2 ^ 24) with 16777216; lia).
  rewrite (of_int_exact 1) by (change (2 ^ 24) with 16777216; lia).
  cbn [fl_div].
  assert (Pd : (0 < inject_Z d)%Q) by (rewrite <- (Zlt_Qlt 0); lia).
  rewrite (Qeq_bool_false_pos _ Pd).
  destruct (quotient_bounds (2 ^ k) d ltac:(lia) ltac:(lia)) as [Lo Up].
  assert (Hq : 0 <= 2 ^ k / d <= 32768).
  { split; [apply Z.div_pos; lia|].
    apply Z.div_le_upper_bound; lia. }
  set (q := 2 ^ k / d) in *.
  destruct (floor_round32 _ q ltac:(lia)
              ltac:(change (2 ^ 24) with 16777216; lia) Lo Up)
    as (r & Er & R1 & R2 & F).
  rewrite Er. cbn [fl_add].
  destruct (floor_round32 (r + inject_Z 1) (q + 1) ltac:(lia)
              ltac:(change (2 ^ 24) with 16777216; lia))
    as (s & Es & S1 & S2 & G).
  - rewrite inject_Z_plus. apply Qplus_le_l. exact R1.
  - apply Qle_trans
      with (inject_Z (256 * q + 255) / inject_Z 256 + inject_Z 1)%Q.
    + apply Qplus_le_l. exact R2.
    + apply Qeq_le. replace (256 * (q + 1) + 255) with (256 * q + 255 + 256)
        by lia.
      rewrite (inject_Z_plus (256 * q + 255) 256).
      change (inject_Z 256) with 256%Q. change (inject_Z 1) with 1%Q.
      field.
  - rewrite Es. rewrite to_int_floor; [exact G | |].
    + eapply Qle_trans; [|exact S1]. rewrite <- (Zle_Qle 0). lia.
    + rewrite G. unfold INT_MAX. change (2 ^ 31) with 2147483648. lia.
Qed.

Lemma test_loop_float_integer (d value div : Z) (n : nat) :
  1 <= d <= 256 -> 0 <= value -> value * 255 < 2 ^ 31 -> 0 < div ->
  forall j0,
    0 <= j0 -> j0 + Z.of_nat n <= 256 ->
    test_loop_float n j0 (Fin (inject_Z d)) value div
    = test_loop n j0 d value div.
Proof.
  intros Hd Hv Hw Hdiv. induction n as [|n IH]; intros j0 H0 Hn;
    cbn [test_loop_float test_loop]; [reflexivity|].
  rewrite quotient_float_integer by lia.
  rewrite wrap_small by nia.
  rewrite Z.quot_div_nonneg by nia.
  rewrite Z.div_mul_cancel_r by lia.
  rewrite IH by lia. reflexivity.
Qed.

Lemma correct_float_integer (d k : Z) :
  2 <= d <= 256 -> 0 <= k <= 16 ->
  correct_float (Fin (inject_Z d)) k
  = test_approximation d (Z.shiftl 1 k / d + 1) (Z.shiftl 1 k).
Proof.
  intros Hd Hk. unfold correct_float, test_approximation.
  rewrite value_float_integer by assumption.
  assert (Pk : 0 < 2 ^ k <= 2 ^ 16).
  { split; [apply pow2_pos; lia | apply pow2_le; lia]. }
  change (2 ^ 16) with 65536 in Pk.
  assert (Hq : 0 <= 2 ^ k / d <= 32768).
  { split; [apply Z.div_pos; lia|]. apply Z.div_le_upper_bound; lia. }
  rewrite Z.shiftl_1_l.
  apply test_loop_float_integer; try lia.
Qed.


Lemma search_loop_both (i : Q) (value_at : Z -> Z) (correct_at : Z -> bool)
      (fuel : nat) (k : Z) (g : globals) :
  k <= MAXPOWER2 -> is_div i k = true -> correct_at k = true ->
  search_loop i value_at correct_at (S fuel) k g
  = (generateCode (inject_Z (Z.shiftl 1 k)) 1 0 k ;;
     generateCode i (value_at k) 0 200) g.
Proof.
  intros Hk Hd Hc. cbn [search_loop]. unfold is_div in Hd.
  destruct (Z.leb_spec k MAXPOWER2); [|lia].
  rewrite Hd, Hc. rewrite !bind_assoc.
  apply bind_ext; [reflexivity|].
  intros [] g'. rewrite bind_ret_l, bind_assoc.
  rewrite <- (bind_unit_ret (generateCode i (value_at k) 0 200) g').
  apply bind_ext; [reflexivity|].
  intros [] g''. rewrite bind_ret_l.
  apply search_loop_end. unfold MAXPOWER2. lia.
Qed.

(** Two searches that compute the same up to a candidate that is taken do
    the same. *)
Lemma search_loop_ext (i : Q) (value_at value_at' : Z -> Z)
      (correct_at correct_at' : Z -> bool) (K : Z) :
  0 <= K <= MAXPOWER2 ->
  (forall k, 0 <= k <= K ->
             value_at k = value_at' k /\ correct_at k = correct_at' k) ->
  is_div i K = true \/ correct_at K = true ->
  forall fuel k g,
    0 <= k <= K ->
    search_loop i value_at correct_at fuel k g
    = search_loop i value_at' correct_at' fuel k g.
Proof.
  intros HK Hsame Hhit. induction fuel as [|fuel IH]; intros k g Hk;
    [reflexivity|].
  destruct (Hsame k Hk) as [Ev Ec].
  destruct (is_div i k) eqn:Hd; destruct (correct_at k) eqn:Hc.
  - rewrite !search_loop_both by (congruence || lia). rewrite Ev. reflexivity.
  - rewrite !search_loop_div by (congruence || lia). reflexivity.
  - rewrite !search_loop_correct by (congruence || lia). rewrite Ev.
    reflexivity.
  - rewrite !search_loop_miss by (congruence || lia).
    apply IH. destruct (Z.eq_dec k K) as [->|N]; [|lia].
    destruct Hhit; congruence.
Qed.

Lemma search_ext (i : Q) (value_at value_at' : Z -> Z)
      (correct_at correct_at' : Z -> bool) (K : Z) (g : globals) :
  0 <= K <= MAXPOWER2 ->
  (forall k, 0 <= k <= K ->
             value_at k = value_at' k /\ correct_at k = correct_at' k) ->
  is_div i K = true \/ correct_at K = true ->
  search i value_at correct_at g = search i value_at' correct_at' g.
Proof.
  intros HK Hsame Hhit. unfold search.
  apply (search_loop_ext i _ _ _ _ K); try assumption. lia.
Qed.


(** ** The search for an integer divisor *)

(** The candidate [2^16] passes for every divisor up to 256. *)
Lemma candidate_16_passes (d : Z) :
  1 <= d <= 256 -> passes d (2 ^ 16 / d + 1) (2 ^ 16).
Proof.
  intros Hd j Hj. change (2 ^ 16) with 65536.
  pose proof (Z.div_mod j d ltac:(lia)) as Ej.
  pose proof (Z.mod_pos_bound j d ltac:(lia)) as Mj.
  pose proof (Z.div_mod 65536 d ltac:(lia)) as Ed.
  pose proof (Z.mod_pos_bound 65536 d ltac:(lia)) as Md.
  assert (Hq : 0 <= j / d) by (apply Z.div_pos; lia).
  assert (HQ : 256 <= 65536 / d) by (apply Z.div_le_lower_bound; lia).
  set (q := j / d) in *. set (r := j mod d) in *.
  set (Q := 65536 / d) in *. set (R := 65536 mod d) in *.
  apply (Z.div_unique_pos _ 65536 q ((Q + 1) * j - 65536 * q)); [|lia].
  assert (E1 : (Q + 1) * j - 65536 * q = q * (d - R) + (Q + 1) * r) by nia.
  rewrite E1. split; [nia|].
  assert (E2 : 65536 = (Q + 1) * d - (d - R)) by nia.
  assert (H1 : q * d <= 255 - r) by lia.
  assert (H2 : (q + 1) * (d - R) <= 255 + (d - r)) by nia.
  assert (H3 : 255 + (d - r) < (Q + 1) * (d - r)) by nia.
  nia.
Qed.

Lemma findApproximation_float_integer (d : Z) (g : globals) :
  1 <= d ->
  findApproximation_float (Fin (inject_Z d)) g = findApproximation d g.
Proof.
  intro Hd. destruct (Z_le_gt_dec d 256) as [Hs|Hb].
  2:{ rewrite findApproximation_float_above_256, findApproximation_above_256;
        [reflexivity | lia |].
      change 257%Q with (inject_Z 257). rewrite <- Zle_Qle. lia. }
  destruct (Z.eq_dec d 1) as [->|N1].
  { unfold findApproximation_float, findApproximation. cbn [number].
    apply (search_ext _ _ _ _ _ 0); [unfold MAXPOWER2; lia | | left; reflexivity].
    intros k Hk. assert (k = 0) by lia. subst k.
    split; vm_compute; reflexivity. }
  unfold findApproximation_float, findApproximation. cbn [number].
  apply (search_ext _ _ _ _ _ 16); [unfold MAXPOWER2; lia | |].
  - intros k Hk. split.
    + apply value_float_integer; lia.
    + apply correct_float_integer; lia.
  - right. rewrite correct_float_integer by lia.
    apply test_approximation_spec; [lia|]. rewrite Z.shiftl_1_l.
    apply candidate_16_passes. lia.
Qed.

(** ** The program in single precision *)

(** A float whose conversion to [int] is positive. *)
Lemma to_int_positive (a : float) (n : Z) :
  0 < n -> to_int a = n ->
  exists y, a = Fin y /\ (0 <= y)%Q /\ Qfloor y = n.
Proof.
  intros Hn E. destruct a as [|s|y]; cbn [to_int] in E;
    try (unfold INT_MIN in E; lia).
  exists y. split; [reflexivity|].
  destruct (Qle_bool 0 y) eqn:P.
  - apply Qle_bool_iff in P. split; [exact P|].
    destruct ((INT_MIN <=? Qfloor y) && (Qfloor y <=? INT_MAX));
      [exact E | unfold INT_MIN in E; lia].
  - exfalso.
    assert (N : (0 <= - y)%Q).
    { apply Qlt_le_weak. apply Qnot_le_lt. intro H.
      apply Qopp_le_compat in H. rewrite Qopp_involutive in H.
      apply Qle_bool_iff in H. change (- 0)%Q with 0%Q in H. congruence. }
    pose proof (Qfloor_resp_le _ _ N) as F. change (Qfloor 0) with 0 in F.
    destruct ((INT_MIN <=? - Qfloor (- y)) && (- Qfloor (- y) <=? INT_MAX));
      [lia | unfold INT_MIN in E; lia].
Qed.

Lemma num_minus_1 (k : Z) :
  0 <= k <= MAXPOWER2 -> to_int (fl_sub (of_int (k + 1)) (of_int 1)) = k.
Proof. intro Hk. each_candidate Hk; vm_compute; reflexivity. Qed.

(** The float of an [int] is 0, at least 1 or at most -1. *)
Lemma of_int_cases (n : Z) :
  match of_int n with
  | Fin z => (z == 0)%Q \/ (1 <= z)%Q \/ (z <= - (1))%Q
  | _ => True
  end.
Proof.
  unfold of_int. destruct (Z_dec n 0) as [[N|P]|Z].
  - assert (H : (inject_Z n <= - (1))%Q).
    { change (- (1))%Q with (inject_Z (-1)). rewrite <- Zle_Qle. lia. }
    pose proof (round32_below _ H) as B.
    destruct (round32 (inject_Z n)); auto.
  - assert (H : (1 <= inject_Z n)%Q).
    { change 1%Q with (inject_Z 1). rewrite <- Zle_Qle. lia. }
    pose proof (round32_ge (inject_Z n) 1 1 ltac:(discriminate) H
                           ltac:(vm_compute; reflexivity)) as A.
    destruct (round32 (inject_Z n)); cbn [above] in A; auto.
  - subst n. vm_compute. left. reflexivity.
Qed.

Lemma bind_ret_some {A B : Type} (m : M A) (b : B) (g : globals) :
  (exists a g', m g = Some (a, g')) ->
  exists s g', bind m (fun _ => ret b) g = Some (s, g').
Proof.
  intros (a & g' & E). unfold bind. rewrite E. exists b, g'. reflexivity.
Qed.

(** The dividend and the exponent [main] passes to [generateCode]. *)
Lemma fraction_in_range (param1 param2 : float) (atoi1 : Z) :
  fl_eqb param1 (of_int 0) = false ->
  isPowerOf2 (to_int param2) <> 0 ->
  fl_ltb param2 param1 = false ->
  fl_eqb param1 (of_int atoi1) = true ->
  fl_ltb param1 (of_int 0) = false ->
  1 <= to_int param1 <= 2 ^ (isPowerOf2 (to_int param2) - 1).
Proof.
  intros H1 H2 H3 H4 H5.
  destruct (isPowerOf2_spec _ H2) as [Hr Hp].
  set (k := isPowerOf2 (to_int param2) - 1) in *.
  assert (Pk : 0 < 2 ^ k) by (apply pow2_pos; lia).
  destruct (to_int_positive param2 (2 ^ k) Pk Hp) as (y & -> & Hy & Fy).
  replace (of_int 0) with (Fin 0) in * by (vm_compute; reflexivity).
  pose proof (of_int_cases atoi1) as C.
  destruct param1 as [|s|x]; cbn [fl_eqb] in H4; [discriminate| |].
  - destruct s; [cbn in H5 | cbn in H3]; discriminate.
  - destruct (of_int atoi1) as [|t|z]; try discriminate.
    apply Qeq_bool_iff in H4.
    cbn [fl_eqb] in H1. cbn [fl_ltb fl_leb] in H3, H5.
    apply negb_false_iff, Qle_bool_iff in H3.
    apply negb_false_iff, Qle_bool_iff in H5.
    assert (X1 : (1 <= x)%Q).
    { destruct C as [C|[C|C]].
      - rewrite <- H4 in C. apply Qeq_bool_iff in C. congruence.
      - rewrite H4. exact C.
      - exfalso. rewrite <- H4 in C.
        apply (Qlt_irrefl 0). eapply Qle_lt_trans; [exact H5|].
        eapply Qle_lt_trans; [exact C | reflexivity]. }
    pose proof (Qfloor_resp_le _ _ X1) as F1. change (Qfloor 1) with 1 in F1.
    pose proof (Qfloor_resp_le _ _ H3) as F2. rewrite Fy in F2.
    rewrite to_int_floor; [lia | exact H5 |].
    pose proof (pow2_le k 24 ltac:(unfold MAXPOWER2 in Hr; lia)).
    unfold INT_MAX. change (2 ^ 24) with 16777216 in *.
    change (2 ^ 31) with 2147483648. lia.
Qed.

Lemma main_runs (argv : arguments) :
  exists status g, main argv initial = Some (status, g).
Proof.
  destruct argv as [|param1|param1 atoi1 param2]; cbn [main].
  - eexists _, _. reflexivity.
  - replace (of_int (-1)) with (Fin (- (1))) by (vm_compute; reflexivity).
    replace (of_int 1) with (Fin 1) by (vm_compute; reflexivity).
    destruct (fl_leb param1 (Fin (- (1)))) eqn:L.
    { apply bind_ret_some.
      destruct (findApproximation_float_fits (fl_opp param1) initial)
        as (g & E); [|reflexivity|exists tt, g; exact E].
      destruct param1 as [|s|x]; cbn [fl_leb fl_opp searched] in *.
      - exact I.
      - destruct s; [reflexivity | discriminate].
      - apply Qle_bool_iff in L. apply Qopp_le_compat in L. exact L. }
    destruct (fl_ltb param1 (Fin 1)) eqn:T1; [eexists _, _; reflexivity|].
    destruct (fl_ltb (of_int 128) param1 && fl_leb param1 (of_int 255));
      [eexists _, _; reflexivity|].
    destruct (fl_ltb (of_int 85) param1 && fl_ltb param1 (of_int 128));
      [eexists _, _; reflexivity|].
    destruct (fl_ltb (of_int 64) param1 && fl_leb param1 (of_int 85));
      [eexists _, _; reflexivity|].
    apply bind_ret_some.
    destruct (findApproximation_float_fits param1 initial)
      as (g & E); [|reflexivity|exists tt, g; exact E].
    destruct param1 as [|s|x]; cbn [fl_leb fl_ltb searched] in *.
    + exact I.
    + destruct s; [discriminate | reflexivity].
    + apply negb_false_iff, Qle_bool_iff in T1. exact T1.
  - destruct (fl_eqb param1 (of_int 0)) eqn:H1.
    { destruct (fl_ltb param2 (of_int 1)); eexists _, _; reflexivity. }
    destruct (fl_eqb (of_int (isPowerOf2 (to_int param2))) (of_int 0)) eqn:H2;
      [eexists _, _; reflexivity|].
    destruct (fl_ltb param2 param1) eqn:H3; [eexists _, _; reflexivity|].
    destruct (fl_eqb param1 (of_int atoi1)) eqn:H4;
      [|eexists _, _; reflexivity].
    destruct (fl_ltb param1 (of_int 0)) eqn:H5; [eexists _, _; reflexivity|].
    cbn [negb orb].
    assert (Hr : isPowerOf2 (to_int param2) <> 0).
    { intro Z. rewrite Z in H2. vm_compute in H2. discriminate. }
    pose proof (fraction_in_range _ _ _ H1 Hr H3 H4 H5) as R.
    destruct (isPowerOf2_spec _ Hr) as [Hk _].
    assert (N : to_int (fl_sub (of_int (isPowerOf2 (to_int param2))) (of_int 1))
                = isPowerOf2 (to_int param2) - 1).
    { pose proof (num_minus_1 _ Hk) as N.
      replace (isPowerOf2 (to_int param2) - 1 + 1)
        with (isPowerOf2 (to_int param2)) in N by lia.
      exact N. }
    rewrite N.
    apply bind_ret_some.
    rewrite generateCode_in_range by (try assumption; reflexivity).
    eexists _, _. reflexivity.
Qed.

(** ** [main] for integer arguments *)

Lemma Qle_bool_inject_Z (a b : Z) :
  Qle_bool (inject_Z a) (inject_Z b) = (a <=? b).
Proof. unfold Qle_bool, inject_Z. cbn [Qnum Qden]. rewrite !Z.mul_1_r. reflexivity. Qed.

Lemma Qeq_bool_inject_Z (a b : Z) :
  Qeq_bool (inject_Z a) (inject_Z b) = (a =? b).
Proof. unfold Qeq_bool, inject_Z. cbn [Qnum Qden]. rewrite !Z.mul_1_r. reflexivity. Qed.

Lemma fl_ltb_inject_Z (a b : Z) :
  fl_ltb (Fin (inject_Z a)) (Fin (inject_Z b)) = (a <? b).
Proof.
  cbn [fl_ltb fl_leb]. rewrite Qle_bool_inject_Z. symmetry. apply Z.ltb_antisym.
Qed.

Lemma of_int_exact_24 (n : Z) : 0 <= n <= 2 ^ 24 -> of_int n = Fin (inject_Z n).
Proof.
  intro H. destruct (Z.eq_dec n (2 ^ 24)) as [->|N]; [vm_compute; reflexivity|].
  apply of_int_exact. lia.
Qed.

Lemma to_int_inject_Z (n : Z) :
  to_int (Fin (inject_Z n))
  = if (INT_MIN <=? n) && (n <=? INT_MAX) then n else INT_MIN.
Proof.
  unfold to_int. change 0%Q with (inject_Z 0). rewrite Qle_bool_inject_Z.
  destruct (0 <=? n).
  - rewrite Qfloor_Z. reflexivity.
  - change (- inject_Z n)%Q with (inject_Z (- n)). rewrite Qfloor_Z.
    rewrite Z.opp_involutive. reflexivity.
Qed.

Lemma isPowerOf2_range (num : Z) :
  isPowerOf2 num <> 0 -> 1 <= num <= 2 ^ 24.
Proof.
  intro H. destruct (isPowerOf2_spec num H) as [Hk ->].
  unfold MAXPOWER2 in Hk. split.
  - pose proof (pow2_pos (isPowerOf2 num - 1) ltac:(lia)). lia.
  - apply pow2_le. lia.
Qed.

Lemma isPowerOf2_to_int (n : Z) :
  isPowerOf2 (to_int (Fin (inject_Z n))) = isPowerOf2 n.
Proof.
  rewrite to_int_inject_Z.
  destruct ((INT_MIN <=? n) && (n <=? INT_MAX)) eqn:R; [reflexivity|].
  change (isPowerOf2 INT_MIN) with 0.
  destruct (Z.eq_dec (isPowerOf2 n) 0) as [E|E]; [symmetry; exact E|].
  apply isPowerOf2_range in E. exfalso.
  apply andb_false_iff in R. unfold INT_MIN, INT_MAX in R.
  change (2 ^ 24) with 16777216 in E. change (2 ^ 31) with 2147483648 in R.
  destruct R as [R|R]; apply Z.leb_gt in R; lia.
Qed.

(** For an integer divisor [main] does what [main_divisor] does. *)
Lemma main_divisor_main (num : Z) (g : globals) :
  main (one_argument (Fin (inject_Z num))) g = main_divisor num g.
Proof.
  cbn [main]. unfold main_divisor.
  replace (of_int (-1)) with (Fin (inject_Z (-1))) by (vm_compute; reflexivity).
  rewrite !of_int_exact by (change (2 ^ 24) with 16777216; lia).
  cbn [fl_leb]. rewrite !fl_ltb_inject_Z, !Qle_bool_inject_Z.
  rewrite !Z.gtb_ltb.
  destruct (Z.leb_spec num (-1)) as [L|L].
  { unfold bind. cbn [fl_opp].
    change (- inject_Z num)%Q with (inject_Z (- num)).
    rewrite findApproximation_float_integer by lia. reflexivity. }
  destruct (num <? 1) eqn:T; [reflexivity|].
  destruct ((128 <? num) && (num <=? 255)); [reflexivity|].
  destruct ((85 <? num) && (num <? 128)); [reflexivity|].
  destruct ((64 <? num) && (num <=? 85)); [reflexivity|].
  apply Z.ltb_ge in T. unfold bind.
  rewrite findApproximation_float_integer by lia. reflexivity.
Qed.

(** For an integer dividend and an integer divisor [main] does what
    [main_fraction] does. *)
Lemma main_fraction_main (param1 param2 : Z) (g : globals) :
  main (two_arguments (Fin (inject_Z param1)) param1 (Fin (inject_Z param2))) g
  = main_fraction param1 param2 g.
Proof.
  cbn [main]. unfold main_fraction.
  rewrite (of_int_exact 0), (of_int_exact 1)
    by (change (2 ^ 24) with 16777216; lia).
  cbn [fl_eqb]. rewrite Qeq_bool_inject_Z, !fl_ltb_inject_Z.
  destruct (param1 =? 0); [reflexivity|].
  rewrite isPowerOf2_to_int.
  destruct (Z.eq_dec (isPowerOf2 param2) 0) as [E|E].
  { rewrite E. reflexivity. }
  destruct (isPowerOf2_spec _ E) as [Hk Hp].
  pose proof (isPowerOf2_range _ E) as Hr.
  unfold MAXPOWER2 in Hk. change (2 ^ 24) with 16777216 in Hr.
  rewrite (of_int_exact (isPowerOf2 param2))
    by (change (2 ^ 24) with 16777216; lia).
  cbn [fl_eqb]. rewrite Qeq_bool_inject_Z.
  destruct (Z.eqb_spec (isPowerOf2 param2) 0) as [Z|_]; [contradiction|].
  rewrite Z.gtb_ltb.
  destruct (Z.ltb_spec param2 param1) as [G|G]; [reflexivity|].
  destruct (Z.ltb_spec param1 0) as [N|N].
  { rewrite orb_true_r. reflexivity. }
  rewrite (of_int_exact_24 param1) by (change (2 ^ 24) with 16777216; lia).
  cbn [fl_eqb]. rewrite Qeq_bool_inject_Z, Z.eqb_refl. cbn [negb orb].
  cbn [number]. rewrite !to_int_inject_Z.
  assert (R1 : (INT_MIN <=? param1) && (param1 <=? INT_MAX) = true).
  { apply andb_true_iff. unfold INT_MIN, INT_MAX.
    change (2 ^ 31) with 2147483648. split; apply Z.leb_le; lia. }
  assert (R2 : (INT_MIN <=? param2) && (param2 <=? INT_MAX) = true).
  { apply andb_true_iff. unfold INT_MIN, INT_MAX.
    change (2 ^ 31) with 2147483648. split; apply Z.leb_le; lia. }
  rewrite R1, R2.
  assert (S : to_int (fl_sub (Fin (inject_Z (isPowerOf2 param2))) (Fin (inject_Z 1)))
              = isPowerOf2 param2 - 1).
  { pose proof (num_minus_1 (isPowerOf2 param2 - 1)
                            ltac:(unfold MAXPOWER2; lia)) as S.
    replace (isPowerOf2 param2 - 1 + 1) with (isPowerOf2 param2) in S by lia.
    rewrite (of_int_exact (isPowerOf2 param2)), (of_int_exact 1) in S
      by (change (2 ^ 24) with 16777216; lia).
    exact S. }
  rewrite S. reflexivity.
Qed.

(** The float 10.000001 is [10 + 2^-20]: none of its candidates passes the
    tests of the program. *)
Lemma exhausted_10_000001_float :
  findApproximation_float (Fin (10485761 # 1048576)) initial
  = Some (tt, initial).
Proof. vm_compute. reflexivity. Qed.

(** * Main results *)

(** C7. For every integer [v] from 0 to [2^(MAXPOWER2+1) - 1] the
    decomposition computed by the first loop of [generateCode], before any
    pruning, is a strictly decreasing sequence of exponents, each between 0
    and 24, whose powers of two sum to exactly [v]. *)
Theorem decomposition_correct (v : Z) :
  0 <= v <= 2 ^ (MAXPOWER2 + 1) - 1 ->
  StronglySorted Z.gt (decompose v)
  /\ Forall (fun e => 0 <= e <= 24) (decompose v)
  /\ sum_pow2 (decompose v) = v.
Proof.
  intro Hv. destruct (decompose_spec v ltac:(lia)) as (H1 & H2 & H3).
  repeat split; assumption.
Qed.

Lemma decomposition_correct_witness :
  0 <= 515 <= 2 ^ (MAXPOWER2 + 1) - 1
  /\ StronglySorted Z.gt (decompose 515)
  /\ Forall (fun e => 0 <= e <= 24) (decompose 515)
  /\ sum_pow2 (decompose 515) = 515.
Proof.
  split; [vm_compute; split; discriminate|].
  apply (decomposition_correct 515). vm_compute. split; discriminate.
Defined.

(** C1. For every multiplier [i] and shift amount [divpow] in the supported
    range ([0 <= divpow <= MAXPOWER2] and [1 <= i <= 2^divpow]),
    [generateCode] builds, before [optimizeCode] runs, a sequence that
    returns [floor (j * i / 2^divpow)] for every input [j] from 0 to 255,
    whatever B and the carry flag hold on entry. *)
Theorem builder_correct (i divpow : Z) :
  0 <= divpow <= MAXPOWER2 -> 1 <= i <= 2 ^ divpow ->
  exists numpowers g,
    buildCode i divpow initial = Some (numpowers, g)
    /\ forall j b cy, 0 <= j <= 255 ->
         result (resultLines g) j b cy = j * i / 2 ^ divpow.
Proof.
  intros Hd Hi.
  destruct (build_lines_length i divpow Hd Hi) as [Hlen _].
  exists (build_numpowers i divpow).
  eexists. split.
  - apply buildCode_ok. unfold numResultLines, CAPACITY. simpl. lia.
  - intros j b cy Hj. cbn [resultLines set_resultLines initial app].
    apply build_lines_result; assumption.
Qed.

Lemma builder_correct_witness :
  exists numpowers g,
    buildCode 17 8 initial = Some (numpowers, g)
    /\ forall j b cy, 0 <= j <= 255 ->
         result (resultLines g) j b cy = j * 17 / 2 ^ 8.
Proof.
  apply (builder_correct 17 8); vm_compute; split; discriminate.
Defined.

(** C5. If the most significant exponent of the decomposition (the pruning
    pass never discards it) is more than 8 below [divpow], the decomposition
    is set aside: the sequence built is [xor a] followed by [ret], the
    routine is flagged as using A only, and it returns zero on every input. *)
Theorem far_exponent_always_zero (num : Q) (i div divpow : Z) :
  1 <= i ->
  divpow - nth 0 (decompose i) 0 > 8 ->
  buildCode i divpow initial
    = Some (1%nat, set_resultLines [_xor_a; _ret] initial)
  /\ (exists g, generateCode num i div divpow initial = Some (tt, g)
                /\ stdout g = [mkRoutine num div _only_use_a 2 4
                                         [_xor_a; _ret]])
  /\ forall a b cy, result [_xor_a; _ret] a b cy = 0.
Proof.
  intros Hi Hfar.
  assert (Hb : build_lines i divpow = [_xor_a; _ret]).
  { unfold build_lines.
    destruct (Z.gtb_spec (divpow - nth 0 (decompose i) 0) 8); [reflexivity|lia]. }
  assert (Hn : build_numpowers i divpow = 1%nat).
  { unfold build_numpowers.
    destruct (Z.gtb_spec (divpow - nth 0 (decompose i) 0) 8); [reflexivity|lia]. }
  split; [|split].
  - rewrite buildCode_ok; rewrite Hb; [rewrite Hn; reflexivity|].
    unfold numResultLines, CAPACITY. simpl. lia.
  - eexists. split.
    + apply generateCode_ok; unfold generated; rewrite ?Hb;
        [reflexivity | unfold CAPACITY; simpl; lia
         | unfold CAPACITY; vm_compute; lia].
    + unfold routine_of, registers_of, generated. rewrite Hb, Hn. reflexivity.
  - reflexivity.
Qed.

Lemma far_exponent_always_zero_witness :
  (1 <= 3 /\ 10 - nth 0 (decompose 3) 0 > 8)
  /\ buildCode 3 10 initial
     = Some (1%nat, set_resultLines [_xor_a; _ret] initial)
  /\ (exists g, generateCode (3 # 1) 3 1024 10 initial = Some (tt, g)
                /\ stdout g = [mkRoutine (3 # 1) 1024 _only_use_a 2 4
                                         [_xor_a; _ret]])
  /\ forall a b cy, result [_xor_a; _ret] a b cy = 0.
Proof.
  split; [split; [lia | vm_compute; reflexivity]|].
  apply (far_exponent_always_zero (3 # 1) 3 1024 10);
    [lia | vm_compute; reflexivity].
Defined.

(** C10. For every input the program accepts, no call of [addLine] or
    [addLineTemp] writes beyond the 50 entries of its buffer: [main] runs to
    its end for every command line, whatever floats [atof] gives, infinities
    and NaN included, and whatever [atoi] gives. So does the search for
    every divisor from 1 on, started with an empty result buffer; and
    within the supported range the sequence before optimization and the
    optimized one have at most 49 lines each. *)
Theorem buffers_never_overflow :
  (forall argv, exists status g, main argv initial = Some (status, g))
  /\ (forall x g,
        (1 <= x)%Q -> resultLines g = [] ->
        exists g', findApproximation_float (Fin x) g = Some (tt, g'))
  /\ (forall i divpow,
        0 <= divpow <= MAXPOWER2 -> 1 <= i <= 2 ^ divpow ->
        (length (build_lines i divpow) <= 49)%nat
        /\ (length (optimize (build_lines i divpow)) <= 49)%nat).
Proof.
  split; [|split].
  - exact main_runs.
  - intros x g Hx Hg. apply findApproximation_float_fits; assumption.
  - intros i divpow Hd Hi. split.
    + apply build_lines_length; assumption.
    + apply build_lines_optimize_length; assumption.
Qed.





Lemma powers_of_two_search (k : Z) :
  0 <= k <= MAXPOWER2 ->
  findApproximation (2 ^ k) initial
  = generateCode (inject_Z (2 ^ k)) 1 0 k initial.
Proof.
  intro Hk. apply in_candidates in Hk. unfold candidates in Hk.
  cbn [seq map Z.of_nat Pos.of_succ_nat Pos.succ] in Hk.
  repeat (destruct Hk as [<-|Hk]; [vm_compute; reflexivity|]).
  destruct Hk.
Qed.

(** C3, as the code has it. [findApproximation] takes the candidate
    exponents [k] from 0 to [MAXPOWER2] in ascending order and, for a
    divisor that is not a power of two, builds the code from the first
    candidate that passes the 256 tests of the program, with its multiplier.
    Multiplier and tests are computed in single precision: the multiplier is
    [(int)(2^k / i + 1)] and the test at [j] is
    [(int)((j*1000) / (i*1000)) = (multiplier * j) / 2^k], the product on
    the right being an [int] product. For an integer divisor [d >= 1] the
    search does what the search with the integer quotients does: the
    multiplier is [floor (2^k / d) + 1] and the test is
    [floor (j / d) = floor (multiplier * j / 2^k)]. For [d = 2^k] the search
    does what [generateCode] does with the multiplier 1 and the shift amount
    [k], and stops. *)
Theorem search_takes_first_passing (i : float) :
  (forall g k,
      (forall k', 0 <= k' <= MAXPOWER2 -> is_div (number i) k' = false) ->
      0 <= k <= MAXPOWER2 ->
      passes_float i (value_float i k) (2 ^ k) ->
      (forall k', 0 <= k' < k ->
                  ~ passes_float i (value_float i k') (2 ^ k')) ->
      findApproximation_float i g
      = generateCode (number i) (value_float i k) 0 k g)
  /\ (forall d g,
        i = Fin (inject_Z d) -> 1 <= d ->
        findApproximation_float i g = findApproximation d g)
  /\ (forall d g k,
        i = Fin (inject_Z d) -> 1 <= d ->
        (forall k', 0 <= k' <= MAXPOWER2 -> d <> 2 ^ k') ->
        0 <= k <= MAXPOWER2 ->
        passes d (2 ^ k / d + 1) (2 ^ k) ->
        (forall k', 0 <= k' < k -> ~ passes d (2 ^ k' / d + 1) (2 ^ k')) ->
        findApproximation_float i g
        = generateCode (inject_Z d) (2 ^ k / d + 1) 0 k g)
  /\ (forall d k,
        i = Fin (inject_Z d) ->
        0 <= k <= MAXPOWER2 -> d = 2 ^ k ->
        findApproximation_float i initial
        = generateCode (inject_Z d) 1 0 k initial).
Proof.
  split; [|split; [|split]].
  - intros g k Hnp Hk Hpass Hfirst. unfold findApproximation_float.
    apply search_first_correct.
    + exact Hk.
    + intros k' Hk'. split; [apply Hnp; lia|].
      destruct (correct_float i k') eqn:Ht; [|reflexivity].
      apply correct_float_spec in Ht. rewrite Z.shiftl_1_l in Ht.
      exfalso. exact (Hfirst k' Hk' Ht).
    + apply Hnp. exact Hk.
    + apply correct_float_spec. rewrite Z.shiftl_1_l. exact Hpass.
  - intros d g -> Hd. apply findApproximation_float_integer. exact Hd.
  - intros d g k -> Hd Hnp Hk Hpass Hfirst.
    rewrite findApproximation_float_integer by exact Hd.
    unfold findApproximation.
    rewrite <- (Z.shiftl_1_l k).
    apply (search_first_correct (inject_Z d)
             (fun k => Z.shiftl 1 k / d + 1)
             (fun k => test_approximation d (Z.shiftl 1 k / d + 1)
                                          (Z.shiftl 1 k)) k).
    + exact Hk.
    + intros k' Hk'. rewrite is_div_inject_Z, Z.shiftl_1_l. split.
      * apply Z.eqb_neq. apply Hnp. lia.
      * destruct (test_approximation d (2 ^ k' / d + 1) (2 ^ k')) eqn:Ht;
          [|reflexivity].
        apply test_approximation_spec in Ht; [|lia].
        exfalso. apply (Hfirst k' Hk'). exact Ht.
    + rewrite is_div_inject_Z, Z.shiftl_1_l. apply Z.eqb_neq. apply Hnp. exact Hk.
    + rewrite Z.shiftl_1_l. apply test_approximation_spec; [lia | exact Hpass].
  - intros d k -> Hk ->.
    rewrite findApproximation_float_integer by (pose proof (pow2_pos k); lia).
    apply powers_of_two_search. exact Hk.
Qed.


(** The float 1.1: the first candidate that passes the tests of the program
    is 931/1024. *)
Lemma first_passing_float_11 :
  (forall k', 0 <= k' <= MAXPOWER2 -> is_div (number f11) k' = false)
  /\ passes_float f11 (value_float f11 10) (2 ^ 10)
  /\ (forall k', 0 <= k' < 10 ->
                 ~ passes_float f11 (value_float f11 k') (2 ^ k')).
Proof.
  assert (H : forallb (fun k => negb (is_div (number f11) k)
                               && (if k <? 10 then negb (correct_float f11 k)
                                   else true))
                      candidates = true) by (vm_compute; reflexivity).
  split; [|split].
  - intros k Hk. pose proof (forall_candidates _ H k Hk) as E. cbv beta in E.
    apply andb_true_iff in E. apply negb_true_iff. apply E.
  - rewrite <- (Z.shiftl_1_l 10). apply correct_float_spec.
    vm_compute. reflexivity.
  - intros k Hk P. rewrite <- (Z.shiftl_1_l k) in P.
    apply correct_float_spec in P.
    pose proof (forall_candidates _ H k ltac:(unfold MAXPOWER2; lia)) as E.
    cbv beta in E. apply andb_true_iff in E. destruct E as [_ E].
    destruct (Z.ltb_spec k 10); [|lia]. rewrite P in E. discriminate.
Qed.

Lemma search_takes_first_passing_witness :
  ((forall k', 0 <= k' <= MAXPOWER2 -> is_div (number f11) k' = false)
   /\ passes_float f11 (value_float f11 10) (2 ^ 10)
   /\ (forall k', 0 <= k' < 10 ->
                  ~ passes_float f11 (value_float f11 k') (2 ^ k')))
  /\ findApproximation_float f11 initial
     = generateCode (number f11) (value_float f11 10) 0 10 initial.
Proof.
  split; [exact first_passing_float_11|].
  destruct first_passing_float_11 as (H1 & H2 & H3).
  apply (proj1 (search_takes_first_passing f11) initial 10);
    [exact H1 | unfold MAXPOWER2; lia | exact H2 | exact H3].
Defined.

(** C3 as stated fails. For the float 1.1 the program builds its code from
    the candidate 931/1024, the multiplier being [floor (1024 / i) + 1], and
    this candidate does not pass the check
    [floor (j / i) = floor (931 * j / 1024)] at [j = 11]: the float is a
    little above 1.1, so [floor (11 / i)] is 9, and [floor (931 * 11 / 1024)]
    is 10. The test of the program passes there because it divides by
    [i*1000], which is rounded to 1100. *)
Lemma search_validates_in_floats_counterexample :
  ~ (forall (i : float) (k : Z),
        (1 <= number i)%Q ->
        (forall k', 0 <= k' <= MAXPOWER2 -> is_div (number i) k' = false) ->
        0 <= k <= MAXPOWER2 ->
        findApproximation_float i initial
        = generateCode (number i)
                       (Qfloor (inject_Z (2 ^ k) / number i) + 1) 0 k initial ->
        passes_exact (number i) (Qfloor (inject_Z (2 ^ k) / number i) + 1)
                     (2 ^ k)).
Proof.
  intro H.
  specialize (H f11 10 ltac:(vm_compute; discriminate)
                (proj1 first_passing_float_11) ltac:(unfold MAXPOWER2; lia)
                ltac:(vm_compute; reflexivity)).
  specialize (H 11 ltac:(lia)). vm_compute in H. discriminate.
Qed.

(** C6, as the code has it. When no candidate exponent up to [MAXPOWER2]
    passes, and the divisor is none of the powers of two, the search ends
    without calling [generateCode]: it leaves every global as it found it
    and prints nothing, and [main] returns 0 as it does after a successful
    search. Whenever a candidate is taken, a routine is printed, so the
    empty output is what tells the exhausted search apart. The results of
    the tests are taken as they come from the floating-point computation. *)
Theorem search_exhaustion_outcome (i : Q) (value_at : Z -> Z)
        (correct_at : Z -> bool) (g : globals) :
  ((forall k, 0 <= k <= MAXPOWER2 ->
              is_div i k = false /\ correct_at k = false) ->
   search i value_at correct_at g = Some (tt, g)
   /\ (search i value_at correct_at ;; ret 0) g = Some (0, g))
  /\ ((exists k, 0 <= k <= MAXPOWER2
                 /\ (is_div i k = true \/ correct_at k = true)) ->
      forall u g', search i value_at correct_at g = Some (u, g') ->
                   (length (stdout g) < length (stdout g'))%nat).
Proof.
  split.
  - intro H. pose proof (search_nothing i value_at correct_at g H) as Hs.
    split; [exact Hs|]. unfold bind. rewrite Hs. reflexivity.
  - intros (k & Hk & Hhit) u g' Hrun.
    apply (search_loop_found i value_at correct_at
                             (Z.to_nat (MAXPOWER2 + 1)) 0 g g' u);
      [lia | exact Hrun |].
    exists k. change (Z.of_nat (Z.to_nat (MAXPOWER2 + 1))) with 25.
    unfold MAXPOWER2 in *. repeat split; try lia. exact Hhit.
Qed.

(** The divisor 10.000001 is the single-precision number [10 + 2^-20]. None
    of its 25 candidates passes. *)
Lemma exhausted_10_000001 (k : Z) :
  0 <= k <= MAXPOWER2 ->
  is_div (10485761 # 1048576) k = false
  /\ correct_exact (10485761 # 1048576) k = false.
Proof.
  intro Hk.
  assert (H : forallb (fun k => negb (is_div (10485761 # 1048576) k)
                               && negb (correct_exact (10485761 # 1048576) k))
                      candidates = true) by (vm_compute; reflexivity).
  pose proof (forall_candidates _ H k Hk) as E. cbv beta in E.
  apply andb_true_iff in E. destruct E as [E1 E2].
  split; apply negb_true_iff; assumption.
Qed.

Lemma search_exhaustion_outcome_witness :
  findApproximation_exact (10485761 # 1048576) initial = Some (tt, initial)
  /\ (findApproximation_exact (10485761 # 1048576) ;; ret 0) initial
     = Some (0, initial).
Proof.
  apply (proj1 (search_exhaustion_outcome
                  (10485761 # 1048576) (value_exact (10485761 # 1048576))
                  (correct_exact (10485761 # 1048576)) initial)).
  exact exhausted_10_000001.
Defined.

(** C6 as stated fails. For the divisor 10.000001 no candidate passes, and
    the program gives no sign of it: the exit status is 0 and nothing is
    printed. *)
Lemma exhausted_search_silent_counterexample :
  ~ (forall i : Q,
        (forall k, 0 <= k <= MAXPOWER2 ->
                   is_div i k = false /\ correct_exact i k = false) ->
        exists status g,
          (findApproximation_exact i ;; ret 0) initial = Some (status, g)
          /\ (status <> 0 \/ stdout g <> [])).
Proof.
  intro H.
  destruct (H (10485761 # 1048576) exhausted_10_000001)
    as (status & g & Hrun & Hsign).
  assert (Hsilent : (findApproximation_exact (10485761 # 1048576) ;; ret 0)
                      initial = Some (0, initial)).
  { unfold bind, findApproximation_exact.
    rewrite (search_nothing _ _ _ initial exhausted_10_000001). reflexivity. }
  rewrite Hsilent in Hrun. inversion Hrun; subst status g.
  destruct Hsign as [Hs|Hs]; apply Hs; reflexivity.
Qed.

(** C8, as the code has it. For the divisor 4 the program prints one
    routine: two [srl a] and [ret]. Its size and time are those of two
    shift-right instructions and one return, 5 bytes and 7 microseconds,
    and it returns [floor (j / 4)] for every [j] from 0 to 255. *)
Theorem divisor_4_routine :
  exists g r,
    main_divisor 4 initial = Some (0, g)
    /\ stdout g = [r]
    /\ r_lines r = [_srl_a; _srl_a; _ret]
    /\ r_registers r = _only_use_a
    /\ r_size r = 2 * size_of _srl_a + size_of _ret
    /\ r_speed r = 2 * speed_of _srl_a + speed_of _ret
    /\ forall j b cy, 0 <= j <= 255 -> result (r_lines r) j b cy = j / 4.
Proof.
  eexists. eexists.
  split; [vm_compute; reflexivity|].
  split; [reflexivity|].
  repeat (split; [reflexivity|]).
  intros j b cy Hj. cbn [r_lines]. unfold result.
  assert (Hj' : 0 <= j < 256) by lia. clear Hj. revert j Hj'.
  cbv [run step regA regB carry]. by_bytes.
Qed.

(** C8 as stated fails: the totals of the routine for the divisor 4 are not
    those of one shift-right and one return. *)
Lemma divisor_4_single_shift_counterexample :
  ~ (exists g r,
        main_divisor 4 initial = Some (0, g)
        /\ stdout g = [r]
        /\ r_size r = size_of _srl_a + size_of _ret
        /\ r_speed r = speed_of _srl_a + speed_of _ret).
Proof.
  intros (g & r & Hrun & Hout & Hsize & _).
  vm_compute in Hrun. inversion Hrun; subst g.
  cbn [stdout] in Hout. inversion Hout; subst r.
  vm_compute in Hsize. discriminate.
Qed.

(** C4, as the code has it. Walking from the least significant term
    backward, the pruning pass drops all remaining smaller terms at a gap
    between two consecutive exponents that exceeds 8, and at a gap that
    exceeds 7 when it is next to the least significant exponent still kept.
    On a decomposition that is not empty it keeps the longest leading part
    in which every gap is at most 8 and the last gap is at most 7; terms are
    dropped below every gap above 8, below a last gap above 7, and only
    below a gap above 7. *)
Theorem prune_longest_stable_prefix (exps : list Z) :
  exps <> [] ->
  (1 <= prune exps <= length exps)%nat
  /\ stable exps (prune exps)
  /\ (forall m, (prune exps < m <= length exps)%nat -> ~ stable exps m)
  /\ (forall k, (1 <= k < length exps)%nat ->
                nth (k - 1) exps 0 - nth k exps 0 > 8 ->
                (prune exps <= k)%nat)
  /\ ((2 <= length exps)%nat ->
      nth (length exps - 2) exps 0 - nth (length exps - 1) exps 0 > 7 ->
      (prune exps <= length exps - 1)%nat)
  /\ ((prune exps < length exps)%nat ->
      nth (prune exps - 1) exps 0 - nth (prune exps) exps 0 > 7).
Proof.
  intro Hne.
  destruct (prune_stable exps Hne) as (Hrange & Hst & Hmax).
  split; [exact Hrange|]. split; [exact Hst|]. split; [exact Hmax|].
  destruct Hst as [Hgaps Hlast].
  split; [|split].
  - intros k Hk Hgap.
    destruct (le_lt_dec (prune exps) k) as [Hle|Hlt]; [exact Hle|].
    specialize (Hgaps k ltac:(lia)). lia.
  - intros Hlen Hgap.
    destruct (Nat.eq_dec (prune exps) (length exps)) as [E|E]; [|lia].
    rewrite E in Hlast. specialize (Hlast ltac:(lia)). lia.
  - intro Hlt.
    destruct (Z_le_gt_dec
                (nth (prune exps - 1) exps 0 - nth (prune exps) exps 0) 7)
      as [Hle|Hgt]; [|exact Hgt].
    exfalso. apply (Hmax (S (prune exps))); [lia|].
    split.
    + intros k Hk. destruct (Nat.eq_dec k (prune exps)) as [->|Hne'].
      * lia.
      * apply Hgaps. lia.
    + intros _. replace (S (prune exps) - 2)%nat with (prune exps - 1)%nat by lia.
      replace (S (prune exps) - 1)%nat with (prune exps) by lia. exact Hle.
Qed.

Lemma prune_longest_stable_prefix_witness :
  decompose 1538 = [10; 9; 1]
  /\ prune (decompose 1538) = 2%nat
  /\ stable (decompose 1538) 2
  /\ ~ stable (decompose 1538) 3.
Proof.
  assert (Hne : decompose 1538 <> []) by (vm_compute; discriminate).
  destruct (prune_longest_stable_prefix (decompose 1538) Hne)
    as (H1 & H2 & H3 & _).
  assert (Hp : prune (decompose 1538) = 2%nat) by (vm_compute; reflexivity).
  split; [vm_compute; reflexivity|]. split; [exact Hp|].
  rewrite Hp in H2, H3. split; [exact H2|].
  apply H3. change (length (decompose 1538)) with 3%nat. lia.
Defined.

(** C4 as stated fails. In the decomposition 9, 1, 0 of 515 the gap next to
    the most significant exponent is 8, above 7, and nothing is dropped; in
    the decomposition 10, 9, 1 of 1538 the gap of 8 that is not next to the
    most significant exponent is not above 8, and the term below it is
    dropped. *)
Lemma prune_top_gap_counterexample :
  ~ (forall i k,
        1 <= i < 2 ^ (MAXPOWER2 + 1) ->
        (1 <= k < length (decompose i))%nat ->
        nth (k - 1) (decompose i) 0 - nth k (decompose i) 0
          > threshold_as_claimed k ->
        (prune (decompose i) <= k)%nat)
  /\ (decompose 1538 = [10; 9; 1]
      /\ nth 1 (decompose 1538) 0 - nth 2 (decompose 1538) 0
         <= threshold_as_claimed 2
      /\ prune (decompose 1538) = 2%nat).
Proof.
  split.
  - intro H.
    assert (Hl : length (decompose 515) = 3%nat) by (vm_compute; reflexivity).
    specialize (H 515 1%nat
                  ltac:(vm_compute; split; [discriminate | reflexivity])
                  ltac:(rewrite Hl; lia)
                  ltac:(vm_compute; reflexivity)).
    vm_compute in H. lia.
  - repeat split; vm_compute; congruence.
Qed.

(** ** The use of B *)

Lemma in_repeat_srla (x : asmLines) (n : nat) :
  In x (repeat _srl_a n) -> x = _srl_a.
Proof. intro H. apply repeat_spec in H. exact H. Qed.

(** The optimizer neither adds nor removes [ld b,a], [add b] and [ret]. *)
Lemma optimize_untouched_aux (x : asmLines) (n : nat) :
  untouched x = true ->
  forall l, (length l <= n)%nat -> (In x (optimize l) <-> In x l).
Proof.
  intro Hx. induction n as [|n IH]; intros l Hlen.
  { destruct l; [reflexivity | simpl in Hlen; lia]. }
  destruct l as [|y tl]; [reflexivity|].
  cbn [length] in Hlen.
  assert (Hcopy : In x (y :: optimize tl) <-> In x (y :: tl)).
  { cbn [In]. rewrite (IH tl) by lia. reflexivity. }
  destruct (count_srla_split tl) as [Htl _].
  assert (Hrule : forall new k,
             count_srla tl = k -> ~ In x new ->
             y = _rra \/ y = _srl_a ->
             (In x (new ++ optimize (skipn k tl)) <-> In x (y :: tl))).
  { intros new k Hk Hnew Hy. subst k.
    rewrite in_app_iff, (IH (skipn (count_srla tl) tl))
      by (pose proof (skipn_length_le (count_srla tl) tl); lia).
    rewrite Htl at 3. cbn [In]. rewrite in_app_iff.
    split.
    - intros [H|H]; [contradiction | right; right; exact H].
    - intros [H|[H|H]].
      + subst x. destruct Hy; subst y; discriminate.
      + apply in_repeat_srla in H. subst x. discriminate.
      + right. exact H. }
  destruct y.
  all: try (rewrite optimize_other by discriminate; exact Hcopy).
  - rewrite optimize_rra.
    destruct (count_srla tl) as [|[|[|[|[|[|[|[|k]]]]]]]] eqn:Hc;
      try exact Hcopy;
      (apply Hrule; [reflexivity | | left; reflexivity]);
      cbn [In]; intros H; repeat (destruct H as [H|H]; [subst x; discriminate|]);
      exact H.
  - rewrite optimize_srl_a.
    destruct (count_srla tl) as [|[|[|[|[|[|[|[|k]]]]]]]] eqn:Hc;
      try exact Hcopy;
      (apply Hrule; [reflexivity | | right; reflexivity]);
      cbn [In]; intros H; repeat (destruct H as [H|H]; [subst x; discriminate|]);
      exact H.
Qed.

Lemma optimize_untouched (x : asmLines) (l : list asmLines) :
  untouched x = true -> (In x (optimize l) <-> In x l).
Proof. intro Hx. apply (optimize_untouched_aux x (length l) Hx). lia. Qed.

Lemma terms_lines_add_b (exps : list Z) (numpowers c : nat) :
  (2 <= c)%nat -> In _add_b (terms_lines exps numpowers c).
Proof.
  intro Hc. destruct c as [|[|j]]; try lia.
  rewrite terms_lines_succ. apply in_or_app. left.
  right. apply in_or_app. right. left. reflexivity.
Qed.

(** C9, as the code has it. Within the supported range the routine is
    flagged as destroying B, begins by saving the input with [ld b,a] and
    adds B back with [add b] if the pruned decomposition has more than one
    term and is not set aside by the always-zero case (its most significant
    exponent is at most 8 below [divpow]); otherwise the routine is flagged
    as using A only and contains neither [ld b,a] nor [add b]. *)
Theorem register_b_usage (num : Q) (i div divpow : Z) :
  0 <= divpow <= MAXPOWER2 -> 1 <= i <= 2 ^ divpow ->
  exists g r,
    generateCode num i div divpow initial = Some (tt, g)
    /\ stdout g = [r]
    /\ ((1 < prune (decompose i))%nat
        /\ divpow - nth 0 (decompose i) 0 <= 8 ->
        r_registers r = _destroys_b
        /\ hd_error (build_lines i divpow) = Some _ld_ba
        /\ hd_error (r_lines r) = Some _ld_ba
        /\ In _add_b (r_lines r))
    /\ (~ ((1 < prune (decompose i))%nat
           /\ divpow - nth 0 (decompose i) 0 <= 8) ->
        r_registers r = _only_use_a
        /\ ~ In _ld_ba (r_lines r)
        /\ ~ In _add_b (r_lines r)).
Proof.
  intros Hd Hi.
  exists (mkGlobals (generated i divpow) (generated i divpow)
                    (r_size (routine_of num i div divpow))
                    (r_speed (routine_of num i div divpow))
                    [routine_of num i div divpow]),
         (routine_of num i div divpow).
  split; [apply generateCode_in_range; auto|].
  split; [reflexivity|].
  assert (Hr : 1 <= i < 2 ^ (MAXPOWER2 + 1)).
  { split; [lia|]. apply Z.le_lt_trans with (2 ^ divpow); [lia|].
    apply Z.pow_lt_mono_r; lia. }
  destruct (decompose_exponents i Hr) as (He & Hlen & _).
  assert (Hne : decompose i <> []).
  { destruct (decompose i); [simpl in Hlen; lia | discriminate]. }
  destruct (prune_stable (decompose i) Hne) as (Hp & _).
  unfold routine_of, registers_of, generated, build_numpowers, build_lines.
  cbn [r_registers r_lines].
  destruct (Z.gtb_spec (divpow - nth 0 (decompose i) 0) 8) as [Hbig|Hsmall].
  - (* always zero *)
    split; [intros [_ H]; lia|]. intros _.
    split; [reflexivity|].
    change (optimize ([_xor_a] ++ [_ret])) with [_xor_a; _ret].
    split; intros [H|[H|[]]]; discriminate.
  - unfold tail_lines.
    destruct (Nat.ltb_spec 1 (prune (decompose i))) as [Hmore|Hone].
    + split; [|intros H; exfalso; apply H; split; [exact Hmore | lia]].
      intros _. split; [reflexivity|]. split; [reflexivity|].
      cbn [app]. rewrite optimize_other by discriminate.
      split; [reflexivity|]. right.
      apply optimize_untouched; [reflexivity|].
      apply in_or_app. left. apply in_or_app. left.
      apply terms_lines_add_b. lia.
    + split; [intros [H _]; lia|]. intros _.
      split; [reflexivity|].
      assert (E : prune (decompose i) = 1%nat) by lia. rewrite E.
      rewrite terms_lines_one. cbn [Nat.eqb negb app].
      split; intro H;
        [apply (proj1 (optimize_untouched _ld_ba _ eq_refl)) in H
        |apply (proj1 (optimize_untouched _add_b _ eq_refl)) in H];
        apply in_app_or in H; destruct H as [H|[H|[]]]; try discriminate;
        apply in_app_or in H; destruct H as [H|H];
        try (apply in_repeat_srla in H; discriminate);
        destruct (negb (divpow =? nth 0 (decompose i) 0));
        try destruct H as [H|[]]; try discriminate; destruct H.
Qed.

Lemma register_b_usage_witness :
  exists g r,
    generateCode (17 # 1) 17 256 8 initial = Some (tt, g)
    /\ stdout g = [r]
    /\ ((1 < prune (decompose 17))%nat
        /\ 8 - nth 0 (decompose 17) 0 <= 8 ->
        r_registers r = _destroys_b
        /\ hd_error (build_lines 17 8) = Some _ld_ba
        /\ hd_error (r_lines r) = Some _ld_ba
        /\ In _add_b (r_lines r))
    /\ (~ ((1 < prune (decompose 17))%nat
           /\ 8 - nth 0 (decompose 17) 0 <= 8) ->
        r_registers r = _only_use_a
        /\ ~ In _ld_ba (r_lines r)
        /\ ~ In _add_b (r_lines r)).
Proof.
  apply (register_b_usage (17 # 1) 17 256 8); vm_compute; split; discriminate.
Defined.

(** C9 as stated fails. For the fraction 3/1024 the pruned decomposition
    1, 0 has two terms, but the routine is [xor a] and [ret]: it is flagged
    as using A only and has no [ld b,a] and no [add b]. *)
Lemma register_b_discarded_counterexample :
  (1 < prune (decompose 3))%nat
  /\ exists g r,
       main_fraction 3 1024 initial = Some (0, g)
       /\ stdout g = [r]
       /\ r_lines r = [_xor_a; _ret]
       /\ r_registers r = _only_use_a
       /\ ~ In _ld_ba (r_lines r)
       /\ ~ In _add_b (r_lines r).
Proof.
  split; [vm_compute; lia|].
  eexists. eexists.
  split; [vm_compute; reflexivity|].
  split; [reflexivity|].
  split; [reflexivity|]. split; [reflexivity|].
  split; intros [H|[H|[]]]; discriminate.
Qed.
